(** * YuiBot: the music cog's playback engine

    A shallow embedding of [core/audio_loader.py] (the resolver adapter
    [YTDLSource.create_source] and the clock [duration_formatted]), of
    [cogs/music.py] (the per-guild [GuildState], the session registry
    [MusicCog.guild_states] and the coroutines of [MusicCog] and
    [MusicControlView]) and of the team draw of [cogs/team.py], followed
    by the properties of the queueing engine and of the draw.

    Python objects that are shared by reference ([GuildState], the voice
    client) live in object stores indexed by address; the dictionary
    [guild_states] and the attribute [guild.voice_client] hold addresses.
    The timers are [asyncio] tasks in a task table.

    The event loop runs one piece of coroutine at a time.  [play] is cut
    at [await YTDLSource.create_source(...)], the one await of the engine
    that waits for the network while the queue is at stake: what comes
    before it and what comes after it are two steps, and anything may
    happen between them.  [queue.put] and [queue.get] never wait (the
    queue is unbounded, and it is read only when it is not empty), and
    connecting, moving and disconnecting the voice client are taken as a
    whole.  The end of a track happens in the player thread: the voice
    client stops playing and [after_playing] submits [play_next] to the
    loop, which runs it in a later step. *)

From Stdlib Require Import Ascii.
From stdpp Require Import gmap strings list pretty.

Set Default Proof Using "Type".

(* ===================================================================== *)
(** ** core/audio_loader.py *)
(* ===================================================================== *)

Abbreviation User := nat (only parsing).

(** The [info] dictionaries of yt-dlp, restricted to the keys the code
    reads.  A field is [None] when the key is absent or maps to [None];
    [entries] is [Some l] exactly when the key ['entries'] is present. *)
#[local] Set Warnings "-register-all".
Inductive Info : Type := MkInfo {
  entries : option (list Info);
  info_url : option string;
  info_webpage_url : option string;
  info_title : option string;
  info_duration : option Z;
  info_thumbnail : option string;
  info_requester : option User }.

(** Python truthiness of [d.get(k)] for a string-valued key. *)
Definition truthy (s : option string) : bool :=
  match s with
  | Some s => negb (String.eqb s "")
  | None => false
  end.

(** [a or b]. *)
Definition py_or (a b : option string) : option string :=
  if truthy a then a else b.

(** [class YTDLSource]: the attributes set by [__init__]. *)
Record YTDLSource : Type := {
  data : Info;
  title : option string;
  url : option string;
  stream_url : option string;
  duration : option Z;
  thumbnail : option string;
  requester : option User }.

(** [YTDLSource.__init__(source, data=data)]; the FFmpeg source and the
    volume are not modelled. *)
Definition YTDLSource_init (d : Info) : YTDLSource :=
  {| data := d;
     title := info_title d;
     url := py_or (info_webpage_url d) (info_url d);
     stream_url := info_url d;
     duration := info_duration d;
     thumbnail := info_thumbnail d;
     requester := info_requester d |}.

(** [f"{x:02d}"]: the decimal digits of [x], with a zero in front when
    that is a single character. *)
Definition format_02d (x : Z) : string :=
  let s := pretty x in
  if (String.length s <? 2)%nat then "0" +:+ s else s.

(** The property [YTDLSource.duration_formatted]; [divmod] by a positive
    number is [Z.div] and [Z.modulo]. *)
Definition duration_formatted (s : YTDLSource) : string :=
  match duration s with
  | None => "N/A"
  | Some d =>
      let '(minutes, seconds) := (d `div` 60, d `mod` 60)%Z in
      let '(hours, minutes) := (minutes `div` 60, minutes `mod` 60)%Z in
      if (0 <? hours)%Z then
        format_02d hours +:+ ":" +:+ format_02d minutes +:+ ":"
          +:+ format_02d seconds
      else format_02d minutes +:+ ":" +:+ format_02d seconds
  end.

(** What [ytdl.extract_info] can do: raise, return [None], or return an
    info dictionary. *)
Inductive Extract : Type :=
  | ExtRaise (msg : string)
  | ExtNone
  | ExtInfo (d : Info).

(** The exceptions that leave [create_source]. *)
Inductive ResolveError : Type :=
  | ValueError (msg : string)
  | IndexError
  | DownloadError (msg : string).

Definition set_requester (d : Info) (r : User) : Info :=
  MkInfo (entries d) (info_url d) (info_webpage_url d) (info_title d)
         (info_duration d) (info_thumbnail d) (Some r).

Section Resolver.
(** [extract_flat q] is [ytdl.extract_info(q, download=False,
    process=False)] and [extract_full q] is
    [ytdl.extract_info(q, download=False)]; both belong to yt-dlp. *)
Variable extract_flat : string → Extract.
Variable extract_full : string → Extract.

(** Lines 97-125: step 2, from the chosen candidate to the source. *)
Definition resolve_candidate (search : string) (r : User)
    (process_info : Info) : ResolveError + YTDLSource :=
  let webpage_url :=
    py_or (info_url process_info) (info_webpage_url process_info) in
  if negb (truthy webpage_url) then
    inl (ValueError ("Couldn't extract a valid URL for `" +:+ search +:+ "`"))
  else
    match extract_full (default "" webpage_url) with
    | ExtRaise m => inl (DownloadError m)
    | ExtNone =>
        inl (ValueError ("Couldn't process audio for `" +:+ search +:+ "`"))
    | ExtInfo processed_data =>
        let first :=
          match entries processed_data with
          | Some [] => inl IndexError
          | Some (e :: _) => inr e
          | None => inr processed_data
          end in
        match first with
        | inl err => inl err
        | inr processed_data =>
            let processed_data := set_requester processed_data r in
            if negb (truthy (info_url processed_data)) then
              inl (ValueError
                     ("Couldn't get stream URL for `" +:+ search +:+ "`"))
            else inr (YTDLSource_init processed_data)
        end
    end.

(** [YTDLSource.create_source(search, requester=r)]. *)
Definition create_source (search : string) (r : User)
    : ResolveError + YTDLSource :=
  match extract_flat search with
  | ExtRaise m => inl (DownloadError m)
  | ExtNone =>
      inl (ValueError ("Couldn't find anything matching `" +:+ search +:+ "`"))
  | ExtInfo data =>
      match entries data with
      | Some entries =>
          match entries with
          | [] =>
              inl (ValueError
                     ("Couldn't find anything matching `" +:+ search +:+ "`"))
          | process_info :: _ => resolve_candidate search r process_info
          end
      | None => resolve_candidate search r data
      end
  end.
End Resolver.

(* ===================================================================== *)
(** ** cogs/music.py: the data *)
(* ===================================================================== *)

Abbreviation GuildId := Z (only parsing).
Abbreviation ChannelId := Z (only parsing).
Abbreviation Loc := nat (only parsing).      (* address of a GuildState *)
Abbreviation VcRef := nat (only parsing).    (* address of a VoiceClient *)
Abbreviation TaskId := nat (only parsing).   (* address of an asyncio.Task *)

(** [class GuildState].  [voice_client] is the attribute that [play]
    adds with [state.voice_client = vc]; [now_playing_message] is only ever
    [None]. *)
Record GuildState : Type := {
  queue : list YTDLSource;
  current_track : option YTDLSource;
  now_playing_message : option nat;
  disconnect_timer : option TaskId;
  voice_client : option VcRef }.

(** [GuildState.__init__]. *)
Definition GuildState_init : GuildState :=
  {| queue := [];
     current_track := None;
     now_playing_message := None;
     disconnect_timer := None;
     voice_client := None |}.

(** An [asyncio.Task] running [disconnect_after_timeout(guild_id)].
    [Sleeping]: suspended in [asyncio.sleep(300)].  [Running]: the body
    after the sleep is executing.  [MustCancel]: running, and [cancel()]
    was called on it meanwhile, so that [CancelledError] is thrown into it
    at its next suspension.  [Cancelled] and [Finished] are the two ways of
    being [done()]. *)
Inductive TaskStatus : Type :=
  Sleeping | Running | MustCancel | Cancelled | Finished.

Record Task : Type := {
  task_guild : GuildId;
  task_status : TaskStatus }.

(** The audio player of a voice client: the source being rendered, the
    guild captured by the closure [after_playing] given to [vc.play], and
    whether it is paused. *)
Inductive Player : Type :=
  | NoPlayer
  | Playing (source : YTDLSource) (after_guild : GuildId) (paused : bool).

Record VoiceClient : Type := {
  channel : ChannelId;
  connected : bool;
  player : Player }.

(** A [play] command suspended in [await YTDLSource.create_source(...)]:
    its local variables. *)
Record PlayFrame : Type := {
  frame_guild : GuildId;
  frame_state : Loc;
  frame_vc : VcRef }.

(** What the user is told. *)
Inductive Reply : Type :=
  | NeedVoiceChannel
  | CouldNotLoad (e : ResolveError)
  | NowPlayingReply (s : YTDLSource)
  | AddedToQueue (pos : nat) (s : YTDLSource)
  | NowPlayingEmbed (s : YTDLSource)
  | Skipped
  | NothingToSkip
  | Stopped
  | NotConnected
  | QueueEmpty
  | QueueEmbed (now : option YTDLSource) (upcoming : list YTDLSource)
               (more : nat)
  | Resumed
  | Paused
  | NothingPlaying
  | NotInVoiceChannel
  | NothingPlayingToSkip.

(** What the engine did, in order: the messages it sent, the lines it
    logged, and the two assignments the ordering properties are about,
    [await state.queue.put(source)] (line 226) and
    [state.current_track = source] (line 160).  No operation reads it. *)
Inductive Obs : Type :=
  | OReply (g : GuildId) (r : Reply)
  | OLogError (g : GuildId)
  | OLogInfo (g : GuildId)
  | OPut (g : GuildId) (s : YTDLSource)
  | OCurrent (g : GuildId) (s : YTDLSource)
  | OSinkPlay (g : GuildId) (s : YTDLSource).

Record World : Type := {
  guild_states : gmap Z nat;        (* MusicCog.guild_states *)
  states : list GuildState;         (* the GuildState objects *)
  voice_clients : gmap Z nat;       (* guild.voice_client, per guild *)
  vcs : list VoiceClient;           (* the VoiceClient objects *)
  tasks : list Task;                (* the timer tasks *)
  running : option TaskId;          (* the timer task being executed *)
  loop_calls : list GuildId;        (* play_next(guild) submitted with
                                       run_coroutine_threadsafe, not yet run *)
  suspended : list PlayFrame;       (* play commands awaiting resolution *)
  trace : list Obs }.

Definition empty_world : World :=
  {| guild_states := ∅; states := []; voice_clients := ∅; vcs := [];
     tasks := []; running := None; loop_calls := []; suspended := [];
     trace := [] |}.

(** Field updates of [World] and of the objects. *)
Definition set_guild_states (f : gmap Z nat → gmap Z nat) (w : World) : World :=
  {| guild_states := f (guild_states w); states := states w;
     voice_clients := voice_clients w; vcs := vcs w; tasks := tasks w;
     running := running w; loop_calls := loop_calls w;
     suspended := suspended w; trace := trace w |}.
Definition set_states (f : list GuildState → list GuildState) (w : World) : World :=
  {| guild_states := guild_states w; states := f (states w);
     voice_clients := voice_clients w; vcs := vcs w; tasks := tasks w;
     running := running w; loop_calls := loop_calls w;
     suspended := suspended w; trace := trace w |}.
Definition set_voice_clients (f : gmap Z nat → gmap Z nat) (w : World) : World :=
  {| guild_states := guild_states w; states := states w;
     voice_clients := f (voice_clients w); vcs := vcs w; tasks := tasks w;
     running := running w; loop_calls := loop_calls w;
     suspended := suspended w; trace := trace w |}.
Definition set_vcs (f : list VoiceClient → list VoiceClient) (w : World) : World :=
  {| guild_states := guild_states w; states := states w;
     voice_clients := voice_clients w; vcs := f (vcs w); tasks := tasks w;
     running := running w; loop_calls := loop_calls w;
     suspended := suspended w; trace := trace w |}.
Definition set_tasks (f : list Task → list Task) (w : World) : World :=
  {| guild_states := guild_states w; states := states w;
     voice_clients := voice_clients w; vcs := vcs w; tasks := f (tasks w);
     running := running w; loop_calls := loop_calls w;
     suspended := suspended w; trace := trace w |}.
Definition set_running (r : option nat) (w : World) : World :=
  {| guild_states := guild_states w; states := states w;
     voice_clients := voice_clients w; vcs := vcs w; tasks := tasks w;
     running := r; loop_calls := loop_calls w;
     suspended := suspended w; trace := trace w |}.
Definition set_loop_calls (f : list Z → list Z) (w : World) : World :=
  {| guild_states := guild_states w; states := states w;
     voice_clients := voice_clients w; vcs := vcs w; tasks := tasks w;
     running := running w; loop_calls := f (loop_calls w);
     suspended := suspended w; trace := trace w |}.
Definition set_suspended (f : list PlayFrame → list PlayFrame) (w : World) : World :=
  {| guild_states := guild_states w; states := states w;
     voice_clients := voice_clients w; vcs := vcs w; tasks := tasks w;
     running := running w; loop_calls := loop_calls w;
     suspended := f (suspended w); trace := trace w |}.
Definition set_trace (f : list Obs → list Obs) (w : World) : World :=
  {| guild_states := guild_states w; states := states w;
     voice_clients := voice_clients w; vcs := vcs w; tasks := tasks w;
     running := running w; loop_calls := loop_calls w;
     suspended := suspended w; trace := f (trace w) |}.

Definition set_queue (q : list YTDLSource) (s : GuildState) : GuildState :=
  {| queue := q; current_track := current_track s;
     now_playing_message := now_playing_message s;
     disconnect_timer := disconnect_timer s; voice_client := voice_client s |}.
Definition set_current_track (c : option YTDLSource) (s : GuildState) : GuildState :=
  {| queue := queue s; current_track := c;
     now_playing_message := now_playing_message s;
     disconnect_timer := disconnect_timer s; voice_client := voice_client s |}.
Definition set_now_playing_message (m : option nat) (s : GuildState) : GuildState :=
  {| queue := queue s; current_track := current_track s;
     now_playing_message := m;
     disconnect_timer := disconnect_timer s; voice_client := voice_client s |}.
Definition set_disconnect_timer (t : option nat) (s : GuildState) : GuildState :=
  {| queue := queue s; current_track := current_track s;
     now_playing_message := now_playing_message s;
     disconnect_timer := t; voice_client := voice_client s |}.
Definition set_voice_client (v : option nat) (s : GuildState) : GuildState :=
  {| queue := queue s; current_track := current_track s;
     now_playing_message := now_playing_message s;
     disconnect_timer := disconnect_timer s; voice_client := v |}.

Definition set_status (s : TaskStatus) (t : Task) : Task :=
  {| task_guild := task_guild t; task_status := s |}.
Definition set_channel (c : Z) (v : VoiceClient) : VoiceClient :=
  {| channel := c; connected := connected v; player := player v |}.
Definition set_connected (b : bool) (v : VoiceClient) : VoiceClient :=
  {| channel := channel v; connected := b; player := player v |}.
Definition set_player (p : Player) (v : VoiceClient) : VoiceClient :=
  {| channel := channel v; connected := connected v; player := p |}.

(* ===================================================================== *)
(** ** Coroutine pieces: state and exceptions *)
(* ===================================================================== *)

Inductive Exn : Type :=
  | ClientException (msg : string)
  | CancelledError.

Inductive Result (A : Type) : Type :=
  | Ok (a : A)
  | Raise (e : Exn).
Arguments Ok {A} a.
Arguments Raise {A} e.

(** A piece of coroutine that runs without yielding to the loop. *)
Definition M (A : Type) : Type := World → Result A * World.

#[global] Instance M_ret : MRet M := λ A a w, (Ok a, w).
#[global] Instance M_bind : MBind M := λ A B f m w,
  match m w with
  | (Ok a, w') => f a w'
  | (Raise e, w') => (Raise e, w')
  end.

Definition gets {A} (f : World → A) : M A := λ w, (Ok (f w), w).
Definition modify (f : World → World) : M unit := λ w, (Ok tt, f w).
Definition raise {A} (e : Exn) : M A := λ w, (Raise e, w).
Definition emit (o : Obs) : M unit := modify (set_trace (λ tr, tr ++ [o])).

(** [try: m except discord.ClientException: h]. *)
Definition try_except_client {A} (m h : M A) : M A := λ w,
  match m w with
  | (Raise (ClientException _), w') => h w'
  | r => r
  end.

(** The world a piece leaves behind. *)
Definition exec {A} (m : M A) (w : World) : World := (m w).2.

(** Object access.  The addresses the code holds are always allocated; a
    dangling one reads as a fresh object and is not written. *)
Definition state_at (l : Loc) : M GuildState :=
  gets (λ w, default GuildState_init (states w !! l)).
Definition update_state (l : Loc) (f : GuildState → GuildState) : M unit :=
  modify (set_states (alter f l)).

Definition no_client : VoiceClient :=
  {| channel := 0; connected := false; player := NoPlayer |}.
Definition vc_at (v : VcRef) : M VoiceClient :=
  gets (λ w, default no_client (vcs w !! v)).
Definition update_vc (v : VcRef) (f : VoiceClient → VoiceClient) : M unit :=
  modify (set_vcs (alter f v)).

(** [guild.voice_client]. *)
Definition guild_voice_client (g : GuildId) : M (option VcRef) :=
  gets (λ w, voice_clients w !! g).

(** *** asyncio *)

Definition is_done (s : TaskStatus) : bool :=
  match s with
  | Cancelled | Finished => true
  | _ => false
  end.

(** [task.done()]. *)
Definition task_done (t : TaskId) : M bool :=
  gets (λ w, from_option (λ k, is_done (task_status k)) true (tasks w !! t)).

(** [task.cancel()].  A sleeping task has its sleep cancelled and ends
    without running its body; the running task is only marked. *)
Definition cancel_status (s : TaskStatus) : TaskStatus :=
  match s with
  | Sleeping => Cancelled
  | Running => MustCancel
  | s => s
  end.
Definition task_cancel (t : TaskId) : M unit :=
  modify (set_tasks (alter (λ k, set_status (cancel_status (task_status k)) k) t)).

(** [asyncio.create_task(self.disconnect_after_timeout(guild_id))]. *)
Definition create_task (g : GuildId) : M TaskId := λ w,
  (Ok (length (tasks w)),
   set_tasks (λ ts, ts ++ [{| task_guild := g; task_status := Sleeping |}]) w).

(** An await that really suspends: a pending cancellation of the running
    task is delivered here. *)
Definition suspension_point : M unit := λ w,
  match running w with
  | Some t =>
      match task_status <$> tasks w !! t with
      | Some MustCancel => (Raise CancelledError, w)
      | _ => (Ok tt, w)
      end
  | None => (Ok tt, w)
  end.

(** *** The voice client of discord.py, as the cog uses it *)

Definition vc_is_connected (v : VcRef) : M bool :=
  c ← vc_at v; mret (connected c).
Definition vc_is_playing (v : VcRef) : M bool :=
  c ← vc_at v;
  mret (match player c with Playing _ _ false => true | _ => false end).
Definition vc_is_paused (v : VcRef) : M bool :=
  c ← vc_at v;
  mret (match player c with Playing _ _ true => true | _ => false end).

(** The closure [after_playing(error)] of [play_next] (lines 162-166), for
    the guild it captured: log the error if there is one, then hand
    [play_next(guild, text_channel)] to the loop in both cases. *)
Definition after_playing (g : GuildId) (error : option Exn) : M unit :=
  (match error with Some _ => emit (OLogError g) | None => mret tt end);;
  modify (set_loop_calls (λ l, l ++ [g])).

(** [vc.stop()]: the player ends, and ends by calling its [after]. *)
Definition vc_stop (v : VcRef) : M unit :=
  c ← vc_at v;
  match player c with
  | Playing _ g _ => update_vc v (set_player NoPlayer);; after_playing g None
  | NoPlayer => mret tt
  end.

(** [vc.play(source, after=after_playing)]. *)
Definition vc_play (v : VcRef) (source : YTDLSource) (g : GuildId) : M unit :=
  c ← vc_at v;
  if negb (connected c) then raise (ClientException "Not connected to voice.")
  else
    match player c with
    | Playing _ _ false => raise (ClientException "Already playing audio.")
    | _ =>
        update_vc v (set_player (Playing source g false));;
        emit (OSinkPlay g source)
    end.

Definition vc_pause (v : VcRef) : M unit :=
  update_vc v (λ c,
    match player c with
    | Playing s g _ => set_player (Playing s g true) c
    | NoPlayer => c
    end).
Definition vc_resume (v : VcRef) : M unit :=
  update_vc v (λ c,
    match player c with
    | Playing s g _ => set_player (Playing s g false) c
    | NoPlayer => c
    end).

(** [await vc.disconnect(force=True)]: the player is stopped, the
    connection is closed and the guild has no voice client any more; the
    coroutine suspends while the gateway answers. *)
Definition vc_disconnect (g : GuildId) (v : VcRef) : M unit :=
  vc_stop v;;
  update_vc v (set_connected false);;
  modify (set_voice_clients (delete g));;
  suspension_point.

(** [await channel.connect(self_deaf=True)]: refused when the guild
    already has a voice client. *)
Definition channel_connect (g : GuildId) (ch : ChannelId) : M VcRef :=
  cur ← guild_voice_client g;
  match cur with
  | Some _ => raise (ClientException "Already connected to a voice channel.")
  | None =>
      v ← gets (λ w, length (vcs w));
      modify (set_vcs (λ l, l ++
        [{| channel := ch; connected := true; player := NoPlayer |}]));;
      modify (set_voice_clients <[g := v]>);;
      mret v
  end.

(** [await vc.move_to(channel)]. *)
Definition vc_move_to (v : VcRef) (ch : ChannelId) : M unit :=
  update_vc v (set_channel ch).

(* ===================================================================== *)
(** ** class GuildState *)
(* ===================================================================== *)

(** [GuildState.clear], on the object at [l]. *)
Definition clear (l : Loc) : M unit :=
  update_state l (set_queue []);;
  update_state l (set_current_track None);;
  update_state l (set_now_playing_message None);;
  st ← state_at l;
  match disconnect_timer st with
  | Some t =>
      d ← task_done t;
      if negb d then
        task_cancel t;;
        update_state l (set_disconnect_timer None)
      else mret tt
  | None => mret tt
  end.

(* ===================================================================== *)
(** ** class MusicCog *)
(* ===================================================================== *)

Module MusicCog.

Definition get_guild_state (guild_id : GuildId) : M Loc :=
  known ← gets (λ w, guild_states w !! guild_id);
  match known with
  | Some l => mret l
  | None =>
      l ← gets (λ w, length (states w));
      modify (set_states (λ s, s ++ [GuildState_init]));;
      modify (set_guild_states <[guild_id := l]>);;
      mret l
  end.

(** [full_stop(guild, state)], taken as one piece: what the loop could run
    while [vc.disconnect] is awaited is not part of it.  A [play_next] that
    [vc.stop] makes the player submit is run by the loop in a later step. *)
Definition full_stop (guild : GuildId) (state : Loc) : M unit :=
  clear state;;
  vc ← guild_voice_client guild;
  match vc with
  | Some v => vc_stop v;; vc_disconnect guild v
  | None => mret tt
  end;;
  present ← gets (λ w, bool_decide (is_Some (guild_states w !! guild)));
  if (present : bool) then modify (set_guild_states (delete guild))
  else mret tt.

(** [user_channel] is [interaction.user.voice.channel], [None] when the
    user is in no voice channel. *)
Definition ensure_voice (guild : GuildId) (user_channel : option ChannelId)
    : M (option VcRef) :=
  match user_channel with
  | None => emit (OReply guild NeedVoiceChannel);; mret None
  | Some ch =>
      vc ← guild_voice_client guild;
      try_except_client
        (match vc with
         | None => v ← channel_connect guild ch; mret (Some v)
         | Some v =>
             c ← vc_at v;
             if negb (bool_decide (channel c = ch)) then
               vc_move_to v ch;; mret (Some v)
             else if negb (connected c) then
               vc_disconnect guild v;;
               v' ← channel_connect guild ch; mret (Some v')
             else mret (Some v)
         end)
        (vc ← guild_voice_client guild;
         match vc with
         | Some v =>
             c ← vc_at v;
             (if negb (bool_decide (channel c = ch))
              then vc_move_to v ch else mret tt);;
             mret (Some v)
         | None => mret None
         end)
  end.

(** [play_next(guild, text_channel)], from its first line to the sending
    of the embed.  Nothing in it suspends before [vc.play]: the queue is
    unbounded and is read only when it is not empty. *)
Definition play_next (guild : GuildId) : M unit :=
  state ← get_guild_state guild;
  vc ← guild_voice_client guild;
  match vc with
  | None => mret tt
  | Some v =>
      conn ← vc_is_connected v;
      if negb conn then mret tt
      else
        st ← state_at state;
        match queue st with
        | [] =>
            update_state state (set_current_track None);;
            match disconnect_timer st with
            | Some t =>
                d ← task_done t;
                if negb d then task_cancel t else mret tt
            | None => mret tt
            end;;
            t ← create_task guild;
            update_state state (set_disconnect_timer (Some t))
        | source :: rest =>
            match disconnect_timer st with
            | Some t =>
                d ← task_done t;
                if negb d then
                  task_cancel t;;
                  update_state state (set_disconnect_timer None)
                else mret tt
            | None => mret tt
            end;;
            update_state state (set_queue rest);;
            update_state state (set_current_track (Some source));;
            emit (OCurrent guild source);;
            vc_play v source guild;;
            emit (OReply guild (NowPlayingEmbed source))
        end
  end.

(** [disconnect_after_timeout(guild_id)] after [await asyncio.sleep(300)].
    [guild_known] tells whether [self.bot.get_guild(guild_id)] finds the
    guild. *)
Definition disconnect_after_timeout (guild_id : GuildId) (guild_known : bool)
    : M unit :=
  if negb guild_known then mret tt
  else
    state ← gets (λ w, guild_states w !! guild_id);
    match state with
    | None => mret tt
    | Some state =>
        vc ← guild_voice_client guild_id;
        match vc with
        | None => mret tt
        | Some v =>
            conn ← vc_is_connected v;
            pl ← vc_is_playing v;
            if conn && negb pl then
              full_stop guild_id state;;
              emit (OLogInfo guild_id)
            else mret tt
        end
    end.

(** [play], lines 207-215: up to the await of [create_source].  The
    result is the frame the coroutine keeps while it is suspended. *)
Definition play_request (guild : GuildId) (user_channel : option ChannelId)
    : M (option PlayFrame) :=
  vc ← ensure_voice guild user_channel;
  match vc with
  | None => mret None
  | Some v =>
      state ← get_guild_state guild;
      update_state state (set_voice_client (Some v));;
      mret (Some {| frame_guild := guild; frame_state := state;
                    frame_vc := v |})
  end.

(** [play], lines 217-237: from the outcome of [create_source] on. *)
Definition play_resolved (f : PlayFrame) (r : ResolveError + YTDLSource)
    : M unit :=
  match r with
  | inl e =>
      emit (OLogError (frame_guild f));;
      emit (OReply (frame_guild f) (CouldNotLoad e))
  | inr source =>
      update_state (frame_state f) (λ s, set_queue (queue s ++ [source]) s);;
      emit (OPut (frame_guild f) source);;
      pl ← vc_is_playing (frame_vc f);
      pa ← vc_is_paused (frame_vc f);
      if negb pl && negb pa then
        play_next (frame_guild f);;
        emit (OReply (frame_guild f) (NowPlayingReply source))
      else
        st ← state_at (frame_state f);
        emit (OReply (frame_guild f)
                (AddedToQueue (length (queue st) + 1) source))
  end.

(** The whole of [play] when nothing else runs while it is suspended. *)
Definition play (guild : GuildId) (user_channel : option ChannelId)
    (r : ResolveError + YTDLSource) : M unit :=
  f ← play_request guild user_channel;
  match f with
  | Some f => play_resolved f r
  | None => mret tt
  end.

Definition skip (guild : GuildId) : M unit :=
  vc ← guild_voice_client guild;
  match vc with
  | Some v =>
      pl ← vc_is_playing v;
      if (pl : bool) then vc_stop v;; emit (OReply guild Skipped)
      else emit (OReply guild NothingPlayingToSkip)
  | None => emit (OReply guild NothingPlayingToSkip)
  end.

Definition stop (guild : GuildId) : M unit :=
  state ← get_guild_state guild;
  vc ← guild_voice_client guild;
  match vc with
  | Some _ => full_stop guild state;; emit (OReply guild Stopped)
  | None => emit (OReply guild NotConnected)
  end.

Definition queue (guild : GuildId) : M unit :=
  state ← get_guild_state guild;
  st ← state_at state;
  let upcoming := queue st in
  match upcoming with
  | _ :: _ =>
      emit (OReply guild
              (QueueEmbed (current_track st) (take 10 upcoming)
                          (length upcoming - 10)))
  | [] =>
      match current_track st with
      | None => emit (OReply guild QueueEmpty)
      | Some _ => emit (OReply guild (QueueEmbed (current_track st) [] 0))
      end
  end.

End MusicCog.

(* ===================================================================== *)
(** ** class MusicControlView: the buttons under the embed *)
(* ===================================================================== *)

Module MusicControlView.

Definition pause_resume (guild : GuildId) : M unit :=
  vc ← guild_voice_client guild;
  match vc with
  | Some v =>
      pa ← vc_is_paused v;
      if (pa : bool) then vc_resume v;; emit (OReply guild Resumed)
      else
        pl ← vc_is_playing v;
        if (pl : bool) then vc_pause v;; emit (OReply guild Paused)
        else emit (OReply guild NothingPlaying)
  | None => emit (OReply guild NotInVoiceChannel)
  end.

Definition skip (guild : GuildId) : M unit :=
  vc ← guild_voice_client guild;
  match vc with
  | Some v =>
      pl ← vc_is_playing v;
      if (pl : bool) then vc_stop v;; emit (OReply guild Skipped)
      else emit (OReply guild NothingToSkip)
  | None => emit (OReply guild NothingToSkip)
  end.

Definition stop (guild : GuildId) : M unit :=
  state ← MusicCog.get_guild_state guild;
  MusicCog.full_stop guild state;;
  emit (OReply guild Stopped).

End MusicControlView.

(* ===================================================================== *)
(** ** cogs/team.py: the team draw *)
(* ===================================================================== *)

(** A [discord.Member], as the draw reads it. *)
Record Member : Type := {
  member_id : nat;
  display_name : string;
  bot : bool }.

(** [sep.join(parts)]. *)
Fixpoint str_join (sep : string) (parts : list string) : string :=
  match parts with
  | [] => ""
  | [p] => p
  | p :: rest => p +:+ sep +:+ str_join sep rest
  end.

Definition newline : string := String (Ascii.ascii_of_nat 10) "".

(** The value of one team field of [build_teams_embed] (lines 18-19): one
    bullet line per member, or the placeholder when that text is empty. *)
Definition team_text (team : list Member) : string :=
  let text := str_join newline ((λ m, "• " +:+ display_name m) <$> team) in
  if String.eqb text "" then "_(vazio)_" else text.

(** [build_teams_embed(team1, team2)]: the values of the two fields. *)
Definition build_teams_embed (team1 team2 : list Member) : string * string :=
  (team_text team1, team_text team2).

(** [split_into_teams(members)].  [shuffle] is what [random.shuffle] does
    to the copy of the list this time. *)
Definition split_into_teams (shuffle : list Member → list Member)
    (members : list Member) : list Member * list Member :=
  let shuffled := shuffle members in
  let mid := (length shuffled / 2)%nat in
  (take mid shuffled, drop mid shuffled).

Inductive TeamReply : Type :=
  | NeedVoiceChannelForDraw
  | NeedTwoPlayers
  | TeamsEmbed (fields : string * string) (players : nat).

(** [TeamCog.sortear_voz].  [channel_members] is
    [interaction.user.voice.channel.members], [None] when the user is in
    no voice channel; [players] is the number shown in the description. *)
Definition sortear_voz (shuffle : list Member → list Member)
    (channel_members : option (list Member)) : TeamReply :=
  match channel_members with
  | None => NeedVoiceChannelForDraw
  | Some all =>
      let members := filter (λ m, bot m = false) all in
      if (length members <? 2)%nat then NeedTwoPlayers
      else
        let '(team1, team2) := split_into_teams shuffle members in
        TeamsEmbed (build_teams_embed team1 team2) (length members)
  end.

(* ===================================================================== *)
(** ** The event loop *)
(* ===================================================================== *)

(** What can happen next.  Each event is one atomic step: a command up to
    its first real suspension, the resumption of a suspended [play], the
    end of a track in the player thread, the loop running a submitted
    [play_next], or a timer waking from its sleep. *)
Inductive Event : Type :=
  | EvPlay (g : GuildId) (user_channel : option ChannelId)
  | EvResolved (k : nat) (r : ResolveError + YTDLSource)
  | EvFinished (v : VcRef) (error : option Exn)
  | EvLoopCall
  | EvTimer (t : TaskId) (guild_known : bool)
  | EvSkip (g : GuildId)
  | EvStop (g : GuildId)
  | EvQueue (g : GuildId)
  | EvPauseResumeButton (g : GuildId)
  | EvSkipButton (g : GuildId)
  | EvStopButton (g : GuildId).

(** The source of voice client [v] is exhausted, or fails with [error]:
    the player thread ends and calls [after_playing(error)]. *)
Definition track_finished (v : VcRef) (error : option Exn) : M unit :=
  c ← vc_at v;
  match player c with
  | Playing _ g false =>
      update_vc v (set_player NoPlayer);; after_playing g error
  | _ => mret tt
  end.

(** The loop runs the oldest submitted [play_next]. *)
Definition run_loop_call : M unit :=
  calls ← gets loop_calls;
  match calls with
  | g :: rest => modify (set_loop_calls (λ _, rest));; MusicCog.play_next g
  | [] => mret tt
  end.

(** [/play] up to the await: the frame is parked. *)
Definition start_play (g : GuildId) (user_channel : option ChannelId) : M unit :=
  f ← MusicCog.play_request g user_channel;
  match f with
  | Some f => modify (set_suspended (λ l, l ++ [f]))
  | None => mret tt
  end.

(** The [k]-th parked [play] gets the outcome of its resolution. *)
Definition resume_play (k : nat) (r : ResolveError + YTDLSource) : M unit :=
  frames ← gets suspended;
  match frames !! k with
  | Some f =>
      modify (set_suspended (delete k));;
      MusicCog.play_resolved f r
  | None => mret tt
  end.

(** Timer [t] wakes up and runs the rest of
    [disconnect_after_timeout]; it ends cancelled when [CancelledError]
    reaches it, finished otherwise. *)
Definition run_timer (t : TaskId) (guild_known : bool) (w : World) : World :=
  match tasks w !! t with
  | Some k =>
      match task_status k with
      | Sleeping =>
          let w1 :=
            set_running (Some t) (set_tasks (alter (set_status Running) t) w) in
          let '(r, w2) :=
            MusicCog.disconnect_after_timeout (task_guild k) guild_known w1 in
          let final :=
            match r with
            | Raise CancelledError => Cancelled
            | _ => Finished
            end in
          set_running None (set_tasks (alter (set_status final) t) w2)
      | _ => w
      end
  | None => w
  end.

Definition step (w : World) (e : Event) : World :=
  match e with
  | EvPlay g user_channel => exec (start_play g user_channel) w
  | EvResolved k r => exec (resume_play k r) w
  | EvFinished v error => exec (track_finished v error) w
  | EvLoopCall => exec run_loop_call w
  | EvTimer t guild_known => run_timer t guild_known w
  | EvSkip g => exec (MusicCog.skip g) w
  | EvStop g => exec (MusicCog.stop g) w
  | EvQueue g => exec (MusicCog.queue g) w
  | EvPauseResumeButton g => exec (MusicControlView.pause_resume g) w
  | EvSkipButton g => exec (MusicControlView.skip g) w
  | EvStopButton g => exec (MusicControlView.stop g) w
  end.

Definition run (w : World) (es : list Event) : World := foldl step w es.

(** *** Observations *)

(** The state object the registry holds for a guild. *)
Definition session (w : World) (g : GuildId) : option GuildState :=
  l ← guild_states w !! g; states w !! l.

(** [pending]: the queue of the session; empty when there is none. *)
Definition pending (w : World) (g : GuildId) : list YTDLSource :=
  from_option queue [] (session w g).

(** [current]: the track of the session; none when there is no session. *)
Definition current (w : World) (g : GuildId) : option YTDLSource :=
  session w g ≫= current_track.

(** The guild is connected to an output device. *)
Definition is_connected (w : World) (g : GuildId) : bool :=
  from_option (λ v, from_option connected false (vcs w !! v)) false
              (voice_clients w !! g).

(** What the guild's voice client renders. *)
Definition rendering (w : World) (g : GuildId) : Player :=
  from_option (λ v, from_option player NoPlayer (vcs w !! v)) NoPlayer
              (voice_clients w !! g).

(** The session holds a timer that has neither fired nor been cancelled. *)
Definition timer_live (w : World) (g : GuildId) : bool :=
  match session w g ≫= disconnect_timer with
  | Some t => from_option (λ k, negb (is_done (task_status k))) false
                          (tasks w !! t)
  | None => false
  end.

(** The tracks put on a queue for guild [g], in order. *)
Definition puts (g : GuildId) (tr : list Obs) : list YTDLSource :=
  omap (λ o, match o with
             | OPut g' s => if bool_decide (g' = g) then Some s else None
             | _ => None
             end) tr.

(** The tracks that became [current_track] of guild [g], in order. *)
Definition currents (g : GuildId) (tr : list Obs) : list YTDLSource :=
  omap (λ o, match o with
             | OCurrent g' s => if bool_decide (g' = g) then Some s else None
             | _ => None
             end) tr.

(** *** Sample data *)

Definition entry (u : string) : Info :=
  MkInfo None (Some u) None (Some u) (Some 215%Z) None None.

Definition track (name : string) : YTDLSource := YTDLSource_init (entry name).

(** Guild 1, a user in channel 5, and the world in which track "A" plays
    with nothing pending. *)
Definition playing_A : World :=
  run empty_world [EvPlay 1 (Some 5%Z); EvResolved 0 (inr (track "A"))].

(** Track "A" plays and track "B" waits. *)
Definition playing_A_then_B : World :=
  run playing_A [EvPlay 1 (Some 5%Z); EvResolved 0 (inr (track "B"))].

(** Track "A" has ended, and a [play] of track "X" has been resumed
    between the end of "A" and the [play_next] that the end of "A"
    submitted to the loop. *)
Definition race_world : World :=
  run playing_A [EvPlay 1 (Some 5%Z); EvFinished 0 None;
                 EvResolved 0 (inr (track "X")); EvLoopCall].

(** *** Predicates of the statements *)

(** A piece that leaves the registry, the state objects and the timers
    alone. *)
Definition same_sessions (w w' : World) : Prop :=
  guild_states w' = guild_states w ∧ states w' = states w
  ∧ tasks w' = tasks w.

(** The object at [l] holds nothing to clear: no queue, no current track,
    no message, and no timer that could still fire. *)
Definition cleared (w : World) (l : Loc) : Prop :=
  ∀ st, states w !! l = Some st →
    queue st = [] ∧ current_track st = None ∧ now_playing_message st = None
    ∧ match disconnect_timer st with
      | Some t =>
          from_option (λ k, is_done (task_status k)) true (tasks w !! t) = true
      | None => True
      end.

(** The end state of a full stop: the object is cleared, the guild has no
    voice client and the registry has no entry for it. *)
Definition stopped (w : World) (g : GuildId) (l : Loc) : Prop :=
  cleared w l ∧ voice_clients w !! g = None ∧ guild_states w !! g = None.

(** [task.done()], read off the task table. *)
Definition timer_done (ts : list Task) (t : TaskId) : bool :=
  from_option (λ k, is_done (task_status k)) true (ts !! t).

(** The task table after "cancel the timer if it is pending". *)
Definition cancel_pending (timer : option TaskId) (ts : list Task)
    : list Task :=
  match timer with
  | Some t =>
      if timer_done ts t then ts
      else alter (λ k, set_status (cancel_status (task_status k)) k) t ts
  | None => ts
  end.

(** The timer field after "cancel it if it is pending, and forget it". *)
Definition forget_pending (ts : list Task) (timer : option TaskId)
    : option TaskId :=
  match timer with
  | Some t => if timer_done ts t then Some t else None
  | None => None
  end.

(** Every registry entry is the address of an object. *)
Definition registry_allocated (w : World) : Prop :=
  ∀ g l, guild_states w !! g = Some l → l < length (states w).

(** The timer invariant of the specification. *)
Definition timer_invariant (w : World) (g : GuildId) : Prop :=
  timer_live w g = true ↔ current w g = None ∧ is_connected w g = true.

(** The voice client at [v] renders nothing: neither playing nor paused. *)
Definition sink_idle (w : World) (v : VcRef) : bool :=
  match player (default no_client (vcs w !! v)) with
  | Playing _ _ _ => false
  | NoPlayer => true
  end.

(** The world right after [await state.queue.put(source)] in frame [f]. *)
Definition enqueued (f : PlayFrame) (x : YTDLSource) (w : World) : World :=
  set_trace (λ tr, tr ++ [OPut (frame_guild f) x])
    (set_states (alter (λ s, set_queue (queue s ++ [x]) s) (frame_state f)) w).

(** What the timer invariant looks at. *)
Definition timer_view (w : World) (g : GuildId)
    : bool * option YTDLSource * bool :=
  (timer_live w g, current w g, is_connected w g).

(** The fields of a state object that a session consists of. *)
Definition session_fields (st : GuildState)
    : list YTDLSource * option YTDLSource * option TaskId :=
  (queue st, current_track st, disconnect_timer st).

(** The queue, current track and timer of a guild's session; those of a
    fresh [GuildState] when the registry has none yet. *)
Definition session_view (w : World) (g : GuildId)
    : list YTDLSource * option YTDLSource * option TaskId :=
  from_option session_fields ([], None, None) (session w g).

(** Two worlds that differ at most in what was logged and sent. *)
Definition same_state (w w' : World) : Prop :=
  guild_states w' = guild_states w ∧ states w' = states w
  ∧ voice_clients w' = voice_clients w ∧ vcs w' = vcs w
  ∧ tasks w' = tasks w ∧ running w' = running w
  ∧ loop_calls w' = loop_calls w ∧ suspended w' = suspended w.

(** No two guilds share a state object. *)
Definition registry_injective (w : World) : Prop :=
  ∀ g g' l,
    guild_states w !! g = Some l → guild_states w !! g' = Some l → g = g'.

(** Every suspended [play] holds the state object that the registry has
    for its guild. *)
Definition frames_valid (w : World) : Prop :=
  ∀ f, f ∈ suspended w →
       guild_states w !! frame_guild f = Some (frame_state f).

(** What was put on the queue of [g] is what became current, followed by
    what is pending. *)
Definition fifo_at (w : World) (g : GuildId) : Prop :=
  puts g (trace w) = currents g (trace w) ++ pending w g.

Definition fifo_invariant (w : World) : Prop :=
  registry_allocated w ∧ registry_injective w ∧ frames_valid w
  ∧ ∀ g, fifo_at w g.

(** A piece that touches neither the registry, nor a queue, nor the
    suspended commands, and records no put and no new current track. *)
Definition queue_neutral (w w' : World) : Prop :=
  guild_states w' = guild_states w
  ∧ queue <$> states w' = queue <$> states w
  ∧ suspended w' = suspended w
  ∧ (∀ g, puts g (trace w') = puts g (trace w))
  ∧ (∀ g, currents g (trace w') = currents g (trace w)).

(** The events that do not tear a session down: everything but the two
    stops and the firing of a timer. *)
Definition teardown_free (e : Event) : bool :=
  match e with
  | EvStop _ | EvStopButton _ | EvTimer _ _ => false
  | _ => true
  end.

(** The state object of a suspended [play] is allocated, and if some guild
    has it in the registry, it is the guild of that [play]. *)
Definition frames_apart (w : World) : Prop :=
  ∀ f, f ∈ suspended w →
    frame_state f < length (states w)
    ∧ ∀ g, guild_states w !! g = Some (frame_state f) → g = frame_guild f.

(** What became current, followed by what is pending, is a subsequence
    of what was put on the queue of [g]. *)
Definition order_at (w : World) (g : GuildId) : Prop :=
  (currents g (trace w) ++ pending w g) `sublist_of` puts g (trace w).

Definition order_invariant (w : World) : Prop :=
  registry_allocated w ∧ registry_injective w ∧ frames_apart w
  ∧ ∀ g, order_at w g.

(** A piece that may empty queues and does nothing else to them. *)
Definition queue_shrinking (w w' : World) : Prop :=
  guild_states w' = guild_states w
  ∧ length (states w') = length (states w)
  ∧ (∀ i st', states w' !! i = Some st' →
       ∃ st, states w !! i = Some st
             ∧ (queue st' = queue st ∨ queue st' = []))
  ∧ suspended w' = suspended w
  ∧ (∀ g, puts g (trace w') = puts g (trace w))
  ∧ (∀ g, currents g (trace w') = currents g (trace w)).

(** A source of which only the duration matters. *)
Definition with_duration (d : option Z) : YTDLSource :=
  {| data := MkInfo None None None None d None None; title := None;
     url := None; stream_url := None; duration := d; thumbnail := None;
     requester := None |}.

(** Reading a clock back: the value of a digit, of two digits, and the
    seconds that "MM:SS" or "HH:MM:SS" stands for. *)
Definition digit_value (c : Ascii.ascii) : option Z :=
  let n := Z.of_nat (Ascii.nat_of_ascii c) in
  if bool_decide (48 ≤ n ≤ 57)%Z then Some (n - 48)%Z else None.

Definition two_digits (a b : Ascii.ascii) : option Z :=
  x ← digit_value a; y ← digit_value b; Some (10 * x + y)%Z.

Definition clock_seconds (s : string) : option Z :=
  match s with
  | String m1 (String m2 (String ":"%char (String s1 (String s2 "")))) =>
      m ← two_digits m1 m2; sec ← two_digits s1 s2;
      Some (60 * m + sec)%Z
  | String h1 (String h2 (String ":"%char (String m1 (String m2
      (String ":"%char (String s1 (String s2 ""))))))) =>
      h ← two_digits h1 h2; m ← two_digits m1 m2; sec ← two_digits s1 s2;
      Some (3600 * h + 60 * m + sec)%Z
  | _ => None
  end.


(** The table behind [format_02d] on two-digit numbers: the text has two
    characters, and they read back as the number. *)
Definition two_digit_check (n : Z) : bool :=
  match format_02d n with
  | String a (String b "") => bool_decide (two_digits a b = Some n)
  | _ => false
  end.

(** The candidate that step 1 of [create_source] hands to step 2, and the
    address that step 2 asks the extractor about. *)
Definition first_candidate (d : Info) : option Info :=
  match entries d with
  | Some [] => None
  | Some (e :: _) => Some e
  | None => Some d
  end.

Definition second_query (c : Info) : option string :=
  py_or (info_url c) (info_webpage_url c).

(** Every [guild.voice_client] is the address of a voice client. *)
Definition voice_allocated (w : World) : Prop :=
  ∀ g v, voice_clients w !! g = Some v → v < length (vcs w).

(** Every sleeping timer is the [disconnect_timer] of the state object
    that the registry holds for the timer's guild. *)
Definition timer_owned (w : World) : Prop :=
  ∀ t k, tasks w !! t = Some k → task_status k = Sleeping →
    ∃ l st, guild_states w !! task_guild k = Some l
            ∧ states w !! l = Some st ∧ disconnect_timer st = Some t.

Definition timer_ownership (w : World) : Prop :=
  registry_allocated w ∧ registry_injective w ∧ timer_owned w.

(** A piece that touches neither the registry, nor a timer field, nor a
    timer. *)
Definition timer_neutral (w w' : World) : Prop :=
  guild_states w' = guild_states w
  ∧ disconnect_timer <$> states w' = disconnect_timer <$> states w
  ∧ tasks w' = tasks w.

(** Three members and a bot in a voice channel. *)
Definition sample_channel : list Member :=
  [ {| member_id := 1; display_name := "ana"; bot := false |};
    {| member_id := 2; display_name := "dj"; bot := true |};
    {| member_id := 3; display_name := "bia"; bot := false |};
    {| member_id := 4; display_name := "edu"; bot := false |} ].

(* ===================================================================== *)
(** ** Properties *)
(* ===================================================================== *)

(** *** Tactics *)

(** Unfold the monad, then the sink, then the state and task primitives. *)
Ltac munfold :=
  unfold emit in *;
  unfold exec, mbind, M_bind, mret, M_ret, gets, modify, raise in *.

Ltac sink_unfold :=
  unfold vc_disconnect, vc_stop, vc_play, vc_pause, vc_resume,
    channel_connect, vc_move_to, after_playing, vc_at, update_vc,
    guild_voice_client, suspension_point, try_except_client,
    vc_is_connected, vc_is_playing, vc_is_paused in *;
  munfold.

Ltac crunch := repeat (case_match; simplify_eq/=); try done.

Ltac ops_unfold :=
  unfold clear, update_state, state_at, task_done, task_cancel,
    create_task in *;
  sink_unfold.

Ltac trace_neutral :=
  intros ?; unfold puts, currents; cbn; rewrite ?omap_app; cbn;
  by rewrite ?app_nil_r.

(** Push [+:+] through the characters of its first argument. *)
Ltac string_app :=
  repeat (change (String ?a ?s +:+ ?t) with (String a (s +:+ t))
          || change ("" +:+ ?t) with t).

(** *** The resolver adapter *)

(** C9.  When the first extraction of a query yields a collection,
    [create_source] resolves its first entry and nothing else: the result
    is that of step 2 on the first entry, whatever the other entries are;
    and an empty collection makes it fail with the "nothing matching"
    error, never with a source. *)
Theorem create_source_first_entry
    (extract_flat extract_full : string → Extract) (search : string)
    (r : User) (d : Info) (collection : list Info) :
  extract_flat search = ExtInfo d →
  entries d = Some collection →
  match collection with
  | first :: others =>
      create_source extract_flat extract_full search r
        = resolve_candidate extract_full search r first
      ∧ ∀ extract_flat' d' others',
          extract_flat' search = ExtInfo d' →
          entries d' = Some (first :: others') →
          create_source extract_flat' extract_full search r
            = create_source extract_flat extract_full search r
  | [] =>
      create_source extract_flat extract_full search r
        = inl (ValueError
                 ("Couldn't find anything matching `" +:+ search +:+ "`"))
  end.
Proof.
  intros Hflat Hentries. unfold create_source.
  rewrite Hflat, Hentries.
  destruct collection as [|first others]; [reflexivity|].
  split; [reflexivity|].
  intros flat' d' others' Hflat' Hentries'.
  by rewrite Hflat', Hentries'.
Qed.

Lemma create_source_first_entry_witness :
  create_source
    (λ _, ExtInfo (MkInfo (Some [entry "u1"; entry "u2"]) None None None None
                          None None))
    (λ u, ExtInfo (entry u)) "lofi" 7
  = resolve_candidate (λ u, ExtInfo (entry u)) "lofi" 7 (entry "u1").
Proof.
  exact (proj1 (create_source_first_entry
    (λ _, ExtInfo (MkInfo (Some [entry "u1"; entry "u2"]) None None None None
                          None None))
    (λ u, ExtInfo (entry u)) "lofi" 7 _ [entry "u1"; entry "u2"]
    eq_refl eq_refl)).
Defined.

(** *** The session registry *)

Lemma get_guild_state_miss w g :
  guild_states w !! g = None →
  MusicCog.get_guild_state g w =
    (Ok (length (states w)),
     set_guild_states <[g := length (states w)]>
       (set_states (λ s, s ++ [GuildState_init]) w)).
Proof.
  intros H. unfold MusicCog.get_guild_state. munfold. by rewrite H.
Qed.

Lemma get_guild_state_hit w g l :
  guild_states w !! g = Some l →
  MusicCog.get_guild_state g w = (Ok l, w).
Proof.
  intros H. unfold MusicCog.get_guild_state. munfold. by rewrite H.
Qed.

Lemma session_fresh w g :
  session (set_guild_states <[g := length (states w)]>
             (set_states (λ s, s ++ [GuildState_init]) w)) g
  = Some GuildState_init.
Proof.
  unfold session. simpl. rewrite lookup_insert_eq. simpl.
  rewrite lookup_app_r by lia. by rewrite Nat.sub_diag.
Qed.

Lemma get_guild_state_ok g w : ∃ l, (MusicCog.get_guild_state g w).1 = Ok l.
Proof. unfold MusicCog.get_guild_state. munfold. crunch; eauto. Qed.

Lemma queue_view_frame g w :
  ∃ tr, exec (MusicCog.queue g) w
        = set_trace tr (exec (MusicCog.get_guild_state g) w).
Proof.
  unfold MusicCog.queue. unfold exec, mbind at 1, M_bind at 1.
  destruct (get_guild_state_ok g w) as [l Hl].
  destruct (MusicCog.get_guild_state g w) as [r w1]; simpl in *; subst r.
  unfold state_at. munfold. simpl. crunch; eexists; reflexivity.
Qed.

Lemma ensure_voice_frame g uc w :
  same_sessions w (exec (MusicCog.ensure_voice g uc) w).
Proof.
  unfold MusicCog.ensure_voice. destruct uc as [ch|]; [|by munfold].
  sink_unfold. simpl. crunch.
Qed.

(** C10.  A lookup that misses is never neutral: [get_guild_state] puts a
    fresh, empty [GuildState] in the registry, and so the handlers that
    call it leave one behind: the read-only queue view, a stop issued
    while the guild has no voice client, and a play that got its voice
    client (which also records that client in the new state). *)
Theorem get_guild_state_inserts_on_miss (w : World) (g : GuildId) :
  guild_states w !! g = None →
  session (exec (MusicCog.get_guild_state g) w) g = Some GuildState_init
  ∧ guild_states (exec (MusicCog.get_guild_state g) w) ≠ guild_states w
  ∧ session (exec (MusicCog.queue g) w) g = Some GuildState_init
  ∧ (voice_clients w !! g = None →
     session (exec (MusicCog.stop g) w) g = Some GuildState_init)
  ∧ (∀ user_channel f w',
       MusicCog.play_request g user_channel w = (Ok (Some f), w') →
       session w' g
         = Some (set_voice_client (Some (frame_vc f)) GuildState_init)).
Proof.
  intros Hmiss.
  assert (Hget : exec (MusicCog.get_guild_state g) w
                 = set_guild_states <[g := length (states w)]>
                     (set_states (λ s, s ++ [GuildState_init]) w)).
  { unfold exec. by rewrite get_guild_state_miss. }
  split_and!.
  - rewrite Hget. apply session_fresh.
  - rewrite Hget. simpl. intros Heq.
    assert (<[g:=length (states w)]> (guild_states w) !! g = None)
      as Habs by (by rewrite Heq).
    by rewrite lookup_insert_eq in Habs.
  - destruct (queue_view_frame g w) as [tr ->]. rewrite Hget.
    apply session_fresh.
  - intros Hvc. unfold MusicCog.stop. unfold exec, mbind at 1, M_bind at 1.
    rewrite get_guild_state_miss by done.
    unfold guild_voice_client. munfold. simpl. rewrite Hvc. simpl.
    apply session_fresh.
  - intros uc f w' Hplay. unfold MusicCog.play_request in Hplay.
    unfold mbind at 1, M_bind at 1 in Hplay.
    pose proof (ensure_voice_frame g uc w) as (Hreg & Hst & _).
    unfold exec in Hreg, Hst.
    destruct (MusicCog.ensure_voice g uc w) as [[[v|]|e] w1];
      simpl in *; [|by munfold; simplify_eq..].
    unfold mbind at 1, M_bind at 1 in Hplay.
    rewrite get_guild_state_miss in Hplay by (by rewrite Hreg).
    unfold update_state in Hplay. munfold. simplify_eq/=.
    unfold session. simpl. rewrite lookup_insert_eq. simpl.
    rewrite Hst, list_lookup_alter_eq.
    rewrite lookup_app_r by lia. by rewrite Nat.sub_diag.
Qed.

Lemma get_guild_state_inserts_on_miss_witness :
  session (exec (MusicCog.queue 1) empty_world) 1 = Some GuildState_init.
Proof.
  exact (proj1 (proj2 (proj2
    (get_guild_state_inserts_on_miss empty_world 1 eq_refl)))).
Defined.

(** *** Full stop *)

Lemma bind_eq {A B} (m : M A) (f : A → M B) w :
  (m ≫= f) w
  = match m w with (Ok a, w') => f a w' | (Raise e, w') => (Raise e, w') end.
Proof. reflexivity. Qed.

Lemma alter_fix {A} (f : A → A) (i : nat) (l : list A) :
  (∀ x, l !! i = Some x → f x = x) → alter f i l = l.
Proof.
  intros H. apply list_eq. intros j.
  destruct (decide (i = j)) as [->|].
  - rewrite list_lookup_alter_eq. destruct (l !! j) eqn:E; simpl; [|done].
    by rewrite H.
  - by rewrite list_lookup_alter_ne.
Qed.

Lemma clear_ok l w : (clear l w).1 = Ok tt.
Proof. ops_unfold. simpl. crunch. Qed.

Lemma clear_noop l w : cleared w l → clear l w = (Ok tt, w).
Proof.
  intros H. ops_unfold. cbn.
  assert (Hfix : ∀ f, (∀ st, queue st = [] → current_track st = None →
                          now_playing_message st = None → f st = st) →
                 alter f l (states w) = states w).
  { intros f Hf. apply alter_fix. intros st Hst.
    destruct (H st Hst) as (?&?&?&?). by apply Hf. }
  assert (Hs : alter (set_now_playing_message None) l
                 (alter (set_current_track None) l
                    (alter (set_queue []) l (states w))) = states w).
  { rewrite (Hfix (set_queue [])) by (by intros []; intros; simplify_eq/=).
    rewrite (Hfix (set_current_track None))
      by (by intros []; intros; simplify_eq/=).
    by rewrite (Hfix (set_now_playing_message None))
      by (by intros []; intros; simplify_eq/=). }
  rewrite Hs.
  destruct (states w !! l) as [st|] eqn:Hst; cbn.
  - destruct (H st Hst) as (?&?&?&Ht).
    destruct (disconnect_timer st) as [t|]; cbn.
    + rewrite Ht. cbn. f_equal.
      destruct w; unfold set_states; cbn in *. by rewrite Hs.
    + f_equal. destruct w; unfold set_states; cbn in *. by rewrite Hs.
  - f_equal. destruct w; unfold set_states; cbn in *. by rewrite Hs.
Qed.

Lemma clear_cleared l w : cleared (clear l w).2 l.
Proof.
  intros st'. ops_unfold. cbn. rewrite !list_lookup_alter_eq.
  destruct (states w !! l) as [st|] eqn:Hst; cbn;
    [|by rewrite !list_lookup_alter_eq, Hst].
  destruct (disconnect_timer st) as [t|] eqn:Ht; cbn.
  - destruct (from_option _ _ _) eqn:Hd; cbn.
    + rewrite !list_lookup_alter_eq, Hst. cbn. intros; simplify_eq/=.
      by rewrite Ht, Hd.
    + rewrite !list_lookup_alter_eq, Hst. cbn. intros; simplify_eq/=. done.
  - rewrite !list_lookup_alter_eq, Hst. cbn. intros; simplify_eq/=.
    by rewrite Ht.
Qed.

Lemma clear_frame l w :
  let w' := (clear l w).2 in
  guild_states w' = guild_states w ∧ voice_clients w' = voice_clients w
  ∧ vcs w' = vcs w ∧ running w' = running w
  ∧ loop_calls w' = loop_calls w ∧ suspended w' = suspended w
  ∧ trace w' = trace w.
Proof. ops_unfold. cbn. crunch. Qed.

Lemma clear_spec l w :
  ∃ w', clear l w = (Ok tt, w') ∧ cleared w' l
        ∧ guild_states w' = guild_states w
        ∧ voice_clients w' = voice_clients w ∧ vcs w' = vcs w
        ∧ running w' = running w ∧ loop_calls w' = loop_calls w
        ∧ suspended w' = suspended w ∧ trace w' = trace w.
Proof.
  pose proof (clear_ok l w). pose proof (clear_cleared l w).
  pose proof (clear_frame l w) as (?&?&?&?&?&?&?).
  destruct (clear l w) as [r w']; cbn in *; subst r. by exists w'.
Qed.

Lemma cleared_ext w w' l :
  states w' = states w → tasks w' = tasks w → cleared w l → cleared w' l.
Proof. unfold cleared. by intros -> ->. Qed.

Lemma vc_stop_spec v w :
  ∃ w', vc_stop v w = (Ok tt, w') ∧ same_sessions w w'
        ∧ running w' = running w ∧ voice_clients w' = voice_clients w
        ∧ suspended w' = suspended w ∧ trace w' = trace w.
Proof.
  sink_unfold. cbn. case_match; eexists; (split; [reflexivity|]); done.
Qed.

Lemma hangup_spec g v w :
  running w = None →
  ∃ w', (vc_stop v;; vc_disconnect g v) w = (Ok tt, w')
        ∧ same_sessions w w' ∧ running w' = None
        ∧ voice_clients w' = delete g (voice_clients w)
        ∧ suspended w' = suspended w ∧ trace w' = trace w.
Proof.
  intros Hr. unfold vc_disconnect. rewrite bind_eq.
  destruct (vc_stop_spec v w) as (w1 & -> & (?&?&?) & Hr1 & Hv1 & ? & ?).
  rewrite bind_eq.
  destruct (vc_stop_spec v w1) as (w2 & -> & (?&?&?) & Hr2 & Hv2 & ? & ?).
  unfold update_vc, suspension_point. munfold. cbn.
  rewrite Hr2, Hr1, Hr. eexists; split; [reflexivity|].
  unfold same_sessions. cbn. split_and!; congruence.
Qed.

Lemma full_stop_noop g l w :
  stopped w g l → MusicCog.full_stop g l w = (Ok tt, w).
Proof.
  intros (Hc & Hv & Hg). unfold MusicCog.full_stop.
  rewrite bind_eq, (clear_noop _ _ Hc).
  unfold guild_voice_client. munfold. cbn. by rewrite Hv, Hg.
Qed.

Lemma full_stop_spec g l w :
  running w = None →
  ∃ w', MusicCog.full_stop g l w = (Ok tt, w') ∧ stopped w' g l
        ∧ running w' = None ∧ suspended w' = suspended w
        ∧ trace w' = trace w.
Proof.
  intros Hr. unfold MusicCog.full_stop. rewrite bind_eq.
  destruct (clear_spec l w)
    as (w1 & -> & Hc & Hg & Hv & _ & Hr' & _ & Hsu & Htr).
  rewrite Hr in Hr'.
  unfold guild_voice_client at 1. rewrite bind_eq. unfold gets at 1.
  rewrite bind_eq.
  destruct (voice_clients w1 !! g) as [v|] eqn:Hvc.
  - destruct (hangup_spec g v w1 Hr')
      as (w2 & -> & (Hg2 & Hs2 & Ht2) & Hr2 & Hv2 & Hsu2 & Htr2).
    munfold. cbn. case_bool_decide; cbn.
    + eexists; split; [reflexivity|]. split_and!; cbn; try congruence.
      split_and!; cbn.
      * by apply (cleared_ext w1).
      * by rewrite Hv2, lookup_delete_eq.
      * by rewrite lookup_delete_eq.
    + eexists; split; [reflexivity|]. split_and!; cbn; try congruence.
      split_and!; cbn.
      * by apply (cleared_ext w1).
      * by rewrite Hv2, lookup_delete_eq.
      * by apply eq_None_not_Some.
  - munfold. cbn. case_bool_decide; cbn.
    + eexists; split; [reflexivity|]. split_and!; cbn; try congruence.
      split_and!; cbn; try done. by rewrite lookup_delete_eq.
    + eexists; split; [reflexivity|]. split_and!; cbn; try congruence.
      split_and!; cbn; try done. by apply eq_None_not_Some.
Qed.

(** The same without knowing who runs it: a timer that runs [full_stop]
    may be cancelled at the await, before the registry entry is deleted. *)
Lemma hangup_effect g v w :
  ∃ r w', (vc_stop v;; vc_disconnect g v) w = (r, w')
        ∧ same_sessions w w' ∧ running w' = running w
        ∧ voice_clients w' = delete g (voice_clients w)
        ∧ suspended w' = suspended w ∧ trace w' = trace w.
Proof.
  unfold vc_disconnect. rewrite bind_eq.
  destruct (vc_stop_spec v w) as (w1 & -> & (?&?&?) & Hr1 & Hv1 & ? & ?).
  rewrite bind_eq.
  destruct (vc_stop_spec v w1) as (w2 & -> & (?&?&?) & Hr2 & Hv2 & ? & ?).
  unfold update_vc, suspension_point. munfold. cbn.
  unfold same_sessions.
  repeat case_match; simplify_eq/=; eexists _, _; (split; [reflexivity|]);
    cbn; split_and!; congruence.
Qed.

Lemma full_stop_effect g l w :
  ∃ r w', MusicCog.full_stop g l w = (r, w')
    ∧ cleared w' l ∧ voice_clients w' !! g = None
    ∧ (guild_states w' = delete g (guild_states w)
       ∨ guild_states w' = guild_states w)
    ∧ tasks w' = tasks (clear l w).2
    ∧ states w' = states (clear l w).2
    ∧ running w' = running w ∧ trace w' = trace w.
Proof.
  unfold MusicCog.full_stop. rewrite bind_eq.
  destruct (clear_spec l w)
    as (w1 & Hcl & Hc & Hg & Hv & _ & Hr' & _ & Hsu & Htr).
  rewrite Hcl. cbn.
  unfold guild_voice_client at 1. rewrite bind_eq. unfold gets at 1.
  rewrite bind_eq.
  destruct (voice_clients w1 !! g) as [v|] eqn:Hvc.
  - destruct (hangup_effect g v w1)
      as (r & w2 & -> & (Hg2 & Hs2 & Ht2) & Hr2 & Hv2 & Hsu2 & Htr2).
    destruct r as [[]|e].
    + munfold. cbn. case_bool_decide as Hin; cbn.
      * eexists _, _; split; [reflexivity|]. cbn.
        split_and!; try congruence.
        -- by apply (cleared_ext w1).
        -- by rewrite Hv2, lookup_delete_eq.
        -- left. congruence.
      * eexists _, _; split; [reflexivity|]. cbn.
        split_and!; try congruence.
        -- by apply (cleared_ext w1).
        -- by rewrite Hv2, lookup_delete_eq.
        -- right. congruence.
    + eexists _, _; split; [reflexivity|]. cbn.
      split_and!; try congruence.
      * by apply (cleared_ext w1).
      * by rewrite Hv2, lookup_delete_eq.
      * right. congruence.
  - munfold. cbn. case_bool_decide as Hin; cbn.
    + eexists _, _; split; [reflexivity|]. cbn.
      split_and!; try congruence; [exact Hc|left].
      congruence.
    + eexists _, _; split; [reflexivity|]. cbn.
      split_and!; try congruence; [exact Hc|right].
      congruence.
Qed.

Lemma session_unregistered w g : guild_states w !! g = None → session w g = None.
Proof. unfold session. by intros ->. Qed.

(** C3, as the code has it.  [full_stop] is idempotent: from any world in
    which no timer body is executing, it returns normally and reaches a
    stopped state (object cleared, no voice client, no registry entry, so
    no current track and nothing pending), and a second [full_stop] returns
    normally and changes nothing.  The Stop button, which always calls
    [full_stop], again ends without a registry entry.  A second [/stop]
    command returns normally too and answers "not connected", with no
    current track and nothing pending, but its lookup has put a fresh
    [GuildState] back in the registry. *)
Theorem full_stop_idempotent (w : World) (g : GuildId) (l : Loc) :
  running w = None →
  ∃ w1, MusicCog.full_stop g l w = (Ok tt, w1)
    ∧ MusicCog.full_stop g l w1 = (Ok tt, w1)
    ∧ stopped w1 g l
    ∧ current w1 g = None ∧ pending w1 g = []
    ∧ (∃ w2, MusicControlView.stop g w1 = (Ok tt, w2)
             ∧ guild_states w2 !! g = None
             ∧ current w2 g = None ∧ pending w2 g = [])
    ∧ (∃ w2, MusicCog.stop g w1 = (Ok tt, w2)
             ∧ trace w2 = trace w1 ++ [OReply g NotConnected]
             ∧ current w2 g = None ∧ pending w2 g = []
             ∧ session w2 g = Some GuildState_init).
Proof.
  intros Hr.
  destruct (full_stop_spec g l w Hr) as (w1 & Hfs & Hstop & Hr1 & _).
  exists w1. pose proof Hstop as (Hc & Hv & Hg).
  split_and!; try done.
  - by apply full_stop_noop.
  - unfold current. by rewrite session_unregistered.
  - unfold pending. by rewrite session_unregistered.
  - unfold MusicControlView.stop. rewrite bind_eq.
    rewrite get_guild_state_miss by done.
    rewrite bind_eq.
    destruct (full_stop_spec g (length (states w1))
                (set_guild_states <[g:=length (states w1)]>
                   (set_states (λ s, s ++ [GuildState_init]) w1)) Hr1)
      as (w2 & -> & (_ & _ & Hg2) & _).
    munfold. cbn. eexists; split; [reflexivity|].
    unfold current, pending. rewrite session_unregistered by done. done.
  - unfold MusicCog.stop. rewrite bind_eq.
    rewrite get_guild_state_miss by done.
    unfold guild_voice_client. munfold. cbn. rewrite Hv. cbn.
    eexists; split; [reflexivity|].
    pose proof (session_fresh w1 g) as Hfresh.
    unfold current, pending, session in *. cbn in *. by rewrite Hfresh.
Qed.

Lemma full_stop_idempotent_witness :
  ∃ w1, MusicCog.full_stop 1 0 playing_A = (Ok tt, w1)
        ∧ MusicCog.full_stop 1 0 w1 = (Ok tt, w1).
Proof.
  destruct (full_stop_idempotent playing_A 1 0 eq_refl)
    as (w1 & H1 & H2 & _).
  exists w1. by split.
Defined.

(** C3, as stated, fails for the [/stop] command: after one [/stop] on a
    playing session the registry has no entry for the guild; after a second
    one it has an entry again. *)
Lemma stop_twice_differs_from_once :
  let once := step playing_A (EvStop 1) in
  let twice := step once (EvStop 1) in
  guild_states once !! 1%Z = None
  ∧ ¬ (guild_states twice !! 1%Z = None)
  ∧ ¬ (guild_states twice = guild_states once).
Proof.
  cbn zeta. split_and!.
  - by vm_compute.
  - by vm_compute.
  - intros H.
    assert (guild_states (step (step playing_A (EvStop 1)) (EvStop 1)) !! 1%Z
            = guild_states (step playing_A (EvStop 1)) !! 1%Z)
      as Habs by (by rewrite H).
    by vm_compute in Habs.
Qed.

(** *** The inactivity timer *)

Lemma timer_guard_noop g known w :
  guild_states w !! g = None
  ∨ is_connected w g = false
  ∨ (∃ s g', rendering w g = Playing s g' false) →
  MusicCog.disconnect_after_timeout g known w = (Ok tt, w).
Proof.
  intros H. unfold MusicCog.disconnect_after_timeout.
  destruct known; cbn; [|done].
  rewrite bind_eq. unfold gets at 1.
  destruct (guild_states w !! g) as [l|] eqn:Hg; [|done].
  destruct H as [?|H]; [done|].
  unfold is_connected, rendering in H. sink_unfold. cbn.
  destruct (voice_clients w !! g) as [v|]; cbn in *; [|done].
  destruct (vcs w !! v) as [c|]; cbn in *.
  - destruct H as [->|(s & g' & ->)]; [done|].
    by rewrite andb_false_r.
  - done.
Qed.

(** C7.  A timer that fires when its guild has no session any more, or is
    not connected, or is rendering a track, tears nothing down: the
    registry, the state objects, the voice clients, the submitted calls and
    the messages are untouched, and so are all other timers. *)
Theorem stale_timer_fire_is_noop (w : World) (t : TaskId) (known : bool) :
  (∀ k, tasks w !! t = Some k →
        guild_states w !! task_guild k = None
        ∨ is_connected w (task_guild k) = false
        ∨ ∃ s g', rendering w (task_guild k) = Playing s g' false) →
  let w' := step w (EvTimer t known) in
  guild_states w' = guild_states w ∧ states w' = states w
  ∧ voice_clients w' = voice_clients w ∧ vcs w' = vcs w
  ∧ loop_calls w' = loop_calls w ∧ suspended w' = suspended w
  ∧ trace w' = trace w
  ∧ ∀ t', t' ≠ t → tasks w' !! t' = tasks w !! t'.
Proof.
  intros Hstale. cbn. unfold run_timer.
  destruct (tasks w !! t) as [k|] eqn:Hk; [|done].
  destruct (task_status k); try done.
  specialize (Hstale k eq_refl).
  rewrite timer_guard_noop; [|done].
  cbn. split_and!; try done.
  intros t' Hne. by rewrite !list_lookup_alter_ne.
Qed.

(** *** Advancing the queue *)

Lemma play_next_no_client g w :
  voice_clients w !! g = None →
  MusicCog.play_next g w = (Ok tt, exec (MusicCog.get_guild_state g) w).
Proof.
  intros Hv. unfold MusicCog.play_next, exec. rewrite bind_eq.
  destruct (get_guild_state_ok g w) as [l Hl].
  assert (voice_clients (MusicCog.get_guild_state g w).2 = voice_clients w) as Hvv.
  { unfold MusicCog.get_guild_state. munfold. crunch. }
  destruct (MusicCog.get_guild_state g w) as [r w1]; cbn in *; subst r.
  unfold guild_voice_client. munfold. by rewrite Hvv, Hv.
Qed.

Lemma play_next_idle g l st v c w :
  guild_states w !! g = Some l → states w !! l = Some st →
  voice_clients w !! g = Some v → vcs w !! v = Some c →
  connected c = true → queue st = [] →
  MusicCog.play_next g w =
    (Ok tt,
     {| guild_states := guild_states w;
        states := alter (λ s, set_disconnect_timer (Some (length (tasks w)))
                                (set_current_track None s)) l (states w);
        voice_clients := voice_clients w;
        vcs := vcs w;
        tasks := cancel_pending (disconnect_timer st) (tasks w)
                 ++ [{| task_guild := g; task_status := Sleeping |}];
        running := running w;
        loop_calls := loop_calls w;
        suspended := suspended w;
        trace := trace w |}).
Proof.
  intros Hg Hl Hv Hc Hconn Hq. unfold MusicCog.play_next.
  rewrite bind_eq, (get_guild_state_hit _ _ _ Hg).
  ops_unfold. cbn. rewrite Hv, Hc. cbn. rewrite Hconn. cbn. rewrite Hl. cbn.
  rewrite Hq. unfold cancel_pending, timer_done.
  destruct w; unfold set_states, set_tasks; cbn in *.
  destruct (disconnect_timer st) as [t|]; cbn.
  - destruct (from_option _ _ _); cbn.
    + by rewrite list_alter_alter_eq.
    + by rewrite length_alter, list_alter_alter_eq.
  - by rewrite list_alter_alter_eq.
Qed.

Lemma play_next_advance g l st v c w source rest :
  guild_states w !! g = Some l → states w !! l = Some st →
  voice_clients w !! g = Some v → vcs w !! v = Some c →
  connected c = true → queue st = source :: rest →
  MusicCog.play_next g w =
    (match player c with
     | Playing _ _ false => Raise (ClientException "Already playing audio.")
     | _ => Ok tt
     end,
     {| guild_states := guild_states w;
        states := alter (λ s, set_current_track (Some source)
                                (set_queue rest
                                   (set_disconnect_timer
                                      (forget_pending (tasks w)
                                         (disconnect_timer st)) s)))
                        l (states w);
        voice_clients := voice_clients w;
        vcs := match player c with
               | Playing _ _ false => vcs w
               | _ => alter (set_player (Playing source g false)) v (vcs w)
               end;
        tasks := cancel_pending (disconnect_timer st) (tasks w);
        running := running w;
        loop_calls := loop_calls w;
        suspended := suspended w;
        trace := trace w ++ [OCurrent g source]
                 ++ match player c with
                    | Playing _ _ false => []
                    | _ => [OSinkPlay g source;
                            OReply g (NowPlayingEmbed source)]
                    end |}).
Proof.
  intros Hg Hl Hv Hc Hconn Hq. unfold MusicCog.play_next.
  rewrite bind_eq, (get_guild_state_hit _ _ _ Hg).
  ops_unfold. cbn. rewrite Hv, Hc. cbn. rewrite Hconn. cbn. rewrite Hl. cbn.
  rewrite Hq. unfold cancel_pending, forget_pending, timer_done.
  destruct w; unfold set_states, set_tasks, set_vcs, set_trace; cbn in *.
  destruct (disconnect_timer st) as [t|] eqn:Ht; cbn.
  - destruct (from_option _ _ _); cbn; rewrite Hc; cbn; rewrite Hconn; cbn;
      destruct (player c) as [|? ? []]; cbn;
      rewrite ?list_alter_alter_eq, <- ?(assoc_L (++)); cbn; try done.
    all: do 2 f_equal; apply list_alter_ext; [|done..];
      intros x Hx; rewrite Hl in Hx; simplify_eq; unfold compose;
      destruct x; cbn in *; by simplify_eq.
  - rewrite Hc; cbn; rewrite Hconn; cbn;
      destruct (player c) as [|? ? []]; cbn;
      rewrite ?list_alter_alter_eq, <- ?(assoc_L (++)); cbn; try done.
    all: do 2 f_equal; apply list_alter_ext; [|done..];
      intros x Hx; rewrite Hl in Hx; simplify_eq; unfold compose;
      destruct x; cbn in *; by simplify_eq.
Qed.

Lemma get_guild_state_lookup g w :
  ∃ l, MusicCog.get_guild_state g w = (Ok l, exec (MusicCog.get_guild_state g) w)
       ∧ guild_states (exec (MusicCog.get_guild_state g) w) !! g = Some l.
Proof.
  unfold exec. destruct (guild_states w !! g) as [l|] eqn:Hg.
  - rewrite (get_guild_state_hit _ _ _ Hg). by exists l.
  - rewrite (get_guild_state_miss _ _ Hg). eexists; split; [done|].
    cbn. by rewrite lookup_insert_eq.
Qed.

Lemma play_next_lookup g w :
  MusicCog.play_next g w
  = MusicCog.play_next g (exec (MusicCog.get_guild_state g) w).
Proof.
  destruct (get_guild_state_lookup g w) as (l & Hl & Hreg).
  unfold MusicCog.play_next. rewrite !bind_eq, Hl.
  by rewrite (get_guild_state_hit _ _ _ Hreg).
Qed.

Lemma play_next_not_connected g w :
  is_connected w g = false →
  MusicCog.play_next g w = (Ok tt, exec (MusicCog.get_guild_state g) w).
Proof.
  intros Hn. destruct (get_guild_state_lookup g w) as (l & Hl & Hreg).
  unfold MusicCog.play_next. rewrite !bind_eq, Hl.
  assert (is_connected (exec (MusicCog.get_guild_state g) w) g = false) as Hn'.
  { unfold exec, MusicCog.get_guild_state. munfold. crunch. }
  revert Hn'. generalize (exec (MusicCog.get_guild_state g) w). intros w1 Hn'.
  unfold is_connected in Hn'. sink_unfold. cbn.
  destruct (voice_clients w1 !! g) as [v|]; cbn in *; [|done].
  destruct (vcs w1 !! v) as [c|]; cbn in *; [|done]. by rewrite Hn'.
Qed.

Lemma registry_allocated_lookup g w :
  registry_allocated w → registry_allocated (exec (MusicCog.get_guild_state g) w).
Proof.
  intros Hwf. unfold exec. destruct (guild_states w !! g) as [l|] eqn:Hg.
  - by rewrite (get_guild_state_hit _ _ _ Hg).
  - rewrite (get_guild_state_miss _ _ Hg). cbn. intros g' l'. cbn.
    rewrite length_app. cbn. destruct (decide (g = g')) as [->|].
    + rewrite lookup_insert_eq. intros; simplify_eq. lia.
    + rewrite lookup_insert_ne by done. intros H%Hwf. lia.
Qed.

Lemma is_connected_lookup g g' w :
  is_connected (exec (MusicCog.get_guild_state g) w) g' = is_connected w g'.
Proof. unfold exec, MusicCog.get_guild_state. munfold. crunch. Qed.

Lemma play_next_timer_invariant g w :
  registry_allocated w → is_connected w g = true →
  timer_invariant (exec (MusicCog.play_next g) w) g.
Proof.
  intros Hwf Hconn. unfold exec. rewrite play_next_lookup.
  apply (registry_allocated_lookup g) in Hwf.
  rewrite <- (is_connected_lookup g) in Hconn.
  destruct (get_guild_state_lookup g w) as (l & _ & Hreg).
  revert Hwf Hconn Hreg. generalize (exec (MusicCog.get_guild_state g) w).
  clear w. intros w Hwf Hconn Hreg.
  destruct (lookup_lt_is_Some_2 (states w) l (Hwf _ _ Hreg)) as [st Hst].
  pose proof Hconn as Hconn'. unfold is_connected in Hconn'.
  destruct (voice_clients w !! g) as [v|] eqn:Hv; cbn in *; [|done].
  destruct (vcs w !! v) as [c|] eqn:Hc; cbn in *; [|done].
  destruct (queue st) as [|source rest] eqn:Hq.
  - rewrite (play_next_idle g l st v c w) by done.
    unfold timer_invariant, timer_live, current, is_connected, session. cbn.
    rewrite Hreg, Hv. cbn. rewrite Hc, list_lookup_alter_eq, Hst. cbn.
    rewrite lookup_app_r.
    2:{ unfold cancel_pending. crunch. by rewrite length_alter. }
    replace (length (tasks w) - length (cancel_pending (disconnect_timer st) (tasks w))) with 0.
    2:{ unfold cancel_pending. crunch; rewrite ?length_alter; lia. }
    cbn. done.
  - rewrite (play_next_advance g l st v c w source rest) by done.
    unfold timer_invariant, timer_live, current, is_connected, session. cbn.
    rewrite Hreg. cbn. rewrite list_lookup_alter_eq, Hst. cbn.
    split; [|by intros [? _]]. 
    unfold forget_pending, cancel_pending, timer_done.
    destruct (disconnect_timer st) as [t|]; [|done].
    destruct (tasks w !! t) as [k|] eqn:Hk; cbn.
    + destruct (is_done (task_status k)) eqn:Hd; cbn; [|done].
      rewrite Hk. cbn. by rewrite Hd.
    + by rewrite Hk.
Qed.

(** *** Enqueueing *)

Lemma play_resolved_busy f x w :
  sink_idle w (frame_vc f) = false →
  MusicCog.play_resolved f (inr x) w
  = (Ok tt,
     set_trace (λ tr, tr ++
        [OReply (frame_guild f)
           (AddedToQueue
              (length (queue (default GuildState_init
                                (states (enqueued f x w) !! frame_state f)))
               + 1) x)])
       (enqueued f x w)).
Proof.
  intros Hbusy. unfold MusicCog.play_resolved, enqueued, sink_idle in *.
  ops_unfold. cbn.
  destruct (player (default no_client (vcs w !! frame_vc f)))
    as [|s g' []]; done.
Qed.

Lemma play_resolved_idle f x w :
  sink_idle w (frame_vc f) = true →
  MusicCog.play_resolved f (inr x) w
  = (MusicCog.play_next (frame_guild f);;
     emit (OReply (frame_guild f) (NowPlayingReply x))) (enqueued f x w).
Proof.
  intros Hidle. unfold MusicCog.play_resolved, enqueued, sink_idle in *.
  ops_unfold. cbn.
  destruct (player (default no_client (vcs w !! frame_vc f)))
    as [|s g' []]; done.
Qed.

Lemma puts_app g tr tr' : puts g (tr ++ tr') = puts g tr ++ puts g tr'.
Proof. apply omap_app. Qed.
Lemma currents_app g tr tr' :
  currents g (tr ++ tr') = currents g tr ++ currents g tr'.
Proof. apply omap_app. Qed.




(** *** The timer invariant *)

Lemma timer_invariant_view w w' g :
  timer_view w' g = timer_view w g → timer_invariant w g → timer_invariant w' g.
Proof. unfold timer_view, timer_invariant. intros [= -> -> ->]. done. Qed.

Lemma timer_view_set_trace f w g : timer_view (set_trace f w) g = timer_view w g.
Proof. done. Qed.

Lemma timer_view_lookup g g' w :
  registry_allocated w →
  timer_view (exec (MusicCog.get_guild_state g) w) g' = timer_view w g'.
Proof.
  intros Hwf. unfold exec. destruct (guild_states w !! g) as [l|] eqn:Hg.
  - by rewrite (get_guild_state_hit _ _ _ Hg).
  - rewrite (get_guild_state_miss _ _ Hg).
    unfold timer_view, timer_live, current, is_connected, session. cbn.
    destruct (decide (g = g')) as [->|].
    + rewrite lookup_insert_eq, Hg. cbn.
      rewrite lookup_app_r by lia. by rewrite Nat.sub_diag.
    + rewrite lookup_insert_ne by done.
      destruct (guild_states w !! g') as [l'|] eqn:Hg'; cbn; [|done].
      by rewrite lookup_app_l by (by eapply Hwf).
Qed.

Lemma timer_view_enqueued f x w g :
  timer_view (enqueued f x w) g = timer_view w g.
Proof.
  unfold timer_view, timer_live, current, is_connected, session. cbn.
  destruct (guild_states w !! g) as [l|]; cbn; [|done].
  destruct (decide (l = frame_state f)) as [->|].
  - rewrite list_lookup_alter_eq. by destruct (states w !! frame_state f).
  - by rewrite list_lookup_alter_ne.
Qed.

Lemma registry_allocated_enqueued f x w :
  registry_allocated w → registry_allocated (enqueued f x w).
Proof.
  unfold registry_allocated. cbn. intros H g l. rewrite length_alter. apply H.
Qed.

Lemma timer_invariant_advance w g :
  registry_allocated w →
  is_connected w g = true ∨ timer_invariant w g →
  timer_invariant (exec (MusicCog.play_next g) w) g.
Proof.
  intros Hwf [Hc|Hinv]; [by apply play_next_timer_invariant|].
  destruct (is_connected w g) eqn:Hc; [by apply play_next_timer_invariant|].
  unfold exec. rewrite play_next_not_connected by done. cbn.
  eapply timer_invariant_view; [|done]. by apply timer_view_lookup.
Qed.

Lemma timer_invariant_full_stop w g l :
  running w = None → timer_invariant (exec (MusicCog.full_stop g l) w) g.
Proof.
  intros Hr. unfold exec.
  destruct (full_stop_spec g l w Hr) as (w' & -> & (_ & Hv & Hg) & _).
  unfold timer_invariant, timer_live, current, is_connected, session. cbn.
  rewrite Hv, Hg. cbn. split; [done|]. by intros [_ ?].
Qed.

Lemma timer_invariant_enqueue w f x :
  registry_allocated w →
  timer_invariant w (frame_guild f) →
  timer_invariant (exec (MusicCog.play_resolved f (inr x)) w) (frame_guild f).
Proof.
  intros Hwf Hinv. unfold exec.
  destruct (sink_idle w (frame_vc f)) eqn:Hidle.
  - rewrite play_resolved_idle by done. rewrite bind_eq.
    pose proof (timer_invariant_advance (enqueued f x w) (frame_guild f)
                  (registry_allocated_enqueued f x w Hwf)) as Hadv.
    unfold exec in Hadv.
    destruct (MusicCog.play_next (frame_guild f) (enqueued f x w))
      as [[[]|e] w1]; cbn in *.
    + apply Hadv. right.
      eapply timer_invariant_view; [|done]. apply timer_view_enqueued.
    + apply Hadv. right.
      eapply timer_invariant_view; [|done]. apply timer_view_enqueued.
  - rewrite play_resolved_busy by done. cbn.
    eapply timer_invariant_view; [|done].
    rewrite timer_view_set_trace. apply timer_view_enqueued.
Qed.

Lemma timer_view_connect g uc w g' :
  timer_live (exec (MusicCog.ensure_voice g uc) w) g' = timer_live w g'
  ∧ current (exec (MusicCog.ensure_voice g uc) w) g' = current w g'.
Proof.
  destruct (ensure_voice_frame g uc w) as (Hg & Hs & Ht).
  unfold timer_live, current, session. by rewrite Hg, Hs, Ht.
Qed.

Lemma timer_invariant_timer_stop w g l :
  guild_states w !! g = Some l →
  timer_invariant (exec (MusicCog.full_stop g l) w) g.
Proof.
  intros Hreg. unfold exec.
  destruct (full_stop_effect g l w)
    as (r & w' & -> & Hcl & Hv & Hg & _). cbn.
  unfold timer_invariant, timer_live, current, is_connected, session.
  rewrite Hv. cbn. split; [|by intros [_ ?]].
  destruct Hg as [-> | ->]; [by rewrite lookup_delete_eq|].
  rewrite Hreg. cbn.
  destruct (states w' !! l) as [st|] eqn:Hst; cbn; [|done].
  destruct (Hcl st Hst) as (_ & _ & _ & Ht).
  destruct (disconnect_timer st) as [t|]; [|done].
  destruct (tasks w' !! t) as [k|]; cbn in *; [|done]. by rewrite Ht.
Qed.

(** C2, as the code has it.  In a world whose registry entries are
    allocated: after [play_next] (an advance, or the completion of a skip)
    on a connected guild the invariant holds, and on a disconnected one it
    is kept; after [full_stop] it holds, when a command or a button runs
    it and also when a timer runs it on the state object that the registry
    holds for the guild, as [disconnect_after_timeout] does; an enqueue
    keeps it; and [ensure_voice], which connects, touches neither the
    timer nor the current track, so that it arms nothing. *)
Theorem timer_invariant_after_transitions (w : World) (g : GuildId) :
  registry_allocated w →
  (is_connected w g = true ∨ timer_invariant w g →
   timer_invariant (exec (MusicCog.play_next g) w) g)
  ∧ (∀ l, running w = None ∨ guild_states w !! g = Some l →
          timer_invariant (exec (MusicCog.full_stop g l) w) g)
  ∧ (∀ f x, frame_guild f = g → timer_invariant w g →
            timer_invariant (exec (MusicCog.play_resolved f (inr x)) w) g)
  ∧ (∀ user_channel,
       timer_live (exec (MusicCog.ensure_voice g user_channel) w) g
         = timer_live w g
       ∧ current (exec (MusicCog.ensure_voice g user_channel) w) g
         = current w g).
Proof.
  intros Hwf. split_and!.
  - by apply timer_invariant_advance.
  - intros l [Hr|Hreg];
      [by apply timer_invariant_full_stop|by apply timer_invariant_timer_stop].
  - intros f x <- Hinv. by apply timer_invariant_enqueue.
  - intros uc. apply timer_view_connect.
Qed.

Lemma registry_allocated_empty : registry_allocated empty_world.
Proof. intros g l. cbn. by rewrite lookup_empty. Qed.

(** C2, as stated, fails right after the connect transition: a guild
    that has just been connected by [/play] (and also once the resolution
    of that first request has failed) is connected with no current track,
    and no timer is live. *)
Lemma timer_invariant_fails_after_connect :
  ¬ timer_invariant (step empty_world (EvPlay 1 (Some 5%Z))) 1
  ∧ ¬ timer_invariant
        (run empty_world [EvPlay 1 (Some 5%Z); EvResolved 0 (inl IndexError)])
        1.
Proof.
  split; intros [_ H].
  - assert (timer_live (step empty_world (EvPlay 1 (Some 5%Z))) 1 = true)
      as Habs by (apply H; by vm_compute).
    by vm_compute in Habs.
  - assert (timer_live
              (run empty_world
                 [EvPlay 1 (Some 5%Z); EvResolved 0 (inl IndexError)]) 1
            = true) as Habs by (apply H; by vm_compute).
    by vm_compute in Habs.
Qed.

(** *** Failed resolution *)

Lemma ensure_voice_trace g uc w :
  trace (exec (MusicCog.ensure_voice g uc) w) = trace w
  ∨ trace (exec (MusicCog.ensure_voice g uc) w)
    = trace w ++ [OReply g NeedVoiceChannel].
Proof.
  unfold MusicCog.ensure_voice. destruct uc as [ch|]; [|right; by munfold].
  left. sink_unfold. simpl. crunch.
Qed.

Lemma puts_neutral g tr o :
  (∀ g' s, o ≠ OPut g' s) → puts g (tr ++ [o]) = puts g tr.
Proof.
  intros H. unfold puts. rewrite omap_app. cbn.
  destruct o; try by rewrite app_nil_r. by destruct (H g0 s).
Qed.

Lemma play_resolved_failed f e w :
  MusicCog.play_resolved f (inl e) w
  = (Ok tt, set_trace (λ tr, tr ++ [OLogError (frame_guild f);
                                     OReply (frame_guild f) (CouldNotLoad e)])
                      w).
Proof.
  unfold MusicCog.play_resolved. munfold. cbn.
  destruct w; unfold set_trace; cbn. by rewrite <- (assoc_L (++)).
Qed.

Lemma play_failed_world g uc e w :
  let w0 := exec (MusicCog.ensure_voice g uc) w in
  let w' := exec (MusicCog.play g uc (inl e)) w in
  let told := λ tr, tr ++ [OLogError g; OReply g (CouldNotLoad e)] in
  w' = w0
  ∨ (∃ l v, guild_states w0 !! g = Some l
      ∧ w' = set_trace told
               (set_states (alter (set_voice_client (Some v)) l) w0))
  ∨ (∃ v, guild_states w0 !! g = None
      ∧ w' = set_trace told
               (set_states (alter (set_voice_client (Some v))
                                  (length (states w0)))
                  (set_guild_states <[g := length (states w0)]>
                     (set_states (λ s, s ++ [GuildState_init]) w0)))).
Proof.
  cbn zeta. unfold exec, MusicCog.play, MusicCog.play_request.
  rewrite !bind_eq.
  destruct (MusicCog.ensure_voice g uc w) as [[[v|]|e'] w0]; cbn;
    [|by left..].
  rewrite bind_eq.
  destruct (guild_states w0 !! g) as [l|] eqn:Hreg.
  - rewrite (get_guild_state_hit _ _ _ Hreg). unfold update_state.
    munfold. cbn. right; left. exists l, v. split; [done|].
    destruct w0; unfold set_trace, set_states; cbn.
    by rewrite <- (assoc_L (++)).
  - rewrite (get_guild_state_miss _ _ Hreg). unfold update_state.
    munfold. cbn. right; right. exists v. split; [done|].
    destruct w0; unfold set_trace, set_states, set_guild_states; cbn.
    by rewrite <- (assoc_L (++)).
Qed.

(** C8.  A [play] whose resolution fails leaves the session as it was:
    the queue, the current track and the timer of the guild's session are
    the same (those of a fresh state when the lookup created it), the
    timers are untouched, nothing has been put on any queue, every state
    object keeps its queue, current track and timer, and the other guilds
    keep their registry entries.  The failing half of [play] on its own
    only logs and answers. *)
Theorem failed_resolution_keeps_session (w : World) (g : GuildId)
    (user_channel : option ChannelId) (e : ResolveError) :
  let w' := exec (MusicCog.play g user_channel (inl e)) w in
  session_view w' g = session_view w g
  ∧ tasks w' = tasks w
  ∧ (∀ g', puts g' (trace w') = puts g' (trace w))
  ∧ (∀ l st, states w !! l = Some st →
       ∃ st', states w' !! l = Some st'
              ∧ session_fields st' = session_fields st)
  ∧ (∀ g', g' ≠ g → guild_states w' !! g' = guild_states w !! g')
  ∧ ∀ f, exec (MusicCog.play_resolved f (inl e)) w
         = set_trace (λ tr, tr ++ [OLogError (frame_guild f);
                                   OReply (frame_guild f) (CouldNotLoad e)]) w.
Proof.
  cbn zeta.
  pose proof (ensure_voice_frame g user_channel w) as (Hg & Hs & Ht).
  assert (Htr : ∀ g', puts g' (trace (exec (MusicCog.ensure_voice g user_channel) w))
                      = puts g' (trace w)).
  { intros g'. destruct (ensure_voice_trace g user_channel w) as [->| ->];
      [done|]. by apply puts_neutral. }
  destruct (play_failed_world g user_channel e w)
    as [-> | [(l & v & Hreg & ->) | (v & Hreg & ->)]].
  - split_and!; try done.
    + unfold session_view, session. by rewrite Hg, Hs.
    + intros l st Hl. exists st. by rewrite Hs.
    + intros g' _. by rewrite Hg.
    + intros f. unfold exec. by rewrite play_resolved_failed.
  - split_and!; [cbn..|]; try done.
    + unfold session_view, session. cbn. rewrite Hreg. rewrite Hg in Hreg.
      rewrite Hreg. cbn. rewrite list_lookup_alter_eq, Hs.
      by destruct (states w !! l).
    + intros g'. unfold puts. rewrite omap_app. cbn. rewrite app_nil_r.
      apply Htr.
    + intros l' st Hl. rewrite Hs.
      destruct (decide (l' = l)) as [->|].
      * rewrite list_lookup_alter_eq, Hl. cbn. eauto.
      * rewrite list_lookup_alter_ne by done. eauto.
    + intros g' _. by rewrite Hg.
    + intros f. unfold exec. by rewrite play_resolved_failed.
  - split_and!; [cbn..|]; try done.
    + unfold session_view, session. cbn. rewrite lookup_insert_eq. cbn.
      rewrite list_lookup_alter_eq, lookup_app_r by lia.
      rewrite Nat.sub_diag. cbn. rewrite Hg in Hreg. by rewrite Hreg.
    + intros g'. unfold puts. rewrite omap_app. cbn. rewrite app_nil_r.
      apply Htr.
    + intros l' st Hl. rewrite Hs.
      rewrite list_lookup_alter_ne
        by (apply lookup_lt_Some in Hl; lia).
      exists st. by rewrite (lookup_app_l_Some _ _ _ _ Hl).
    + intros g' Hne. by rewrite lookup_insert_ne, Hg.
    + intros f. unfold exec. by rewrite play_resolved_failed.
Qed.

(** *** Completion of a track *)

Lemma track_finished_playing v c a g error w :
  vcs w !! v = Some c → player c = Playing a g false →
  track_finished v error w
  = (Ok tt,
     {| guild_states := guild_states w; states := states w;
        voice_clients := voice_clients w;
        vcs := alter (set_player NoPlayer) v (vcs w);
        tasks := tasks w; running := running w;
        loop_calls := loop_calls w ++ [g];
        suspended := suspended w;
        trace := trace w ++ match error with
                            | Some _ => [OLogError g]
                            | None => []
                            end |}).
Proof.
  intros Hc Hp. unfold track_finished. sink_unfold. cbn. rewrite Hc. cbn.
  rewrite Hp. destruct w; unfold set_loop_calls, set_vcs, set_trace; cbn.
  destruct error; cbn; by rewrite ?app_nil_r.
Qed.

Lemma run_loop_call_head g rest w :
  loop_calls w = g :: rest →
  run_loop_call w = MusicCog.play_next g (set_loop_calls (λ _, rest) w).
Proof. intros H. unfold run_loop_call. munfold. by rewrite H. Qed.

(** C5.  A track that ends with a playback error is handled as one that
    ends normally: once the submitted [play_next] has run, the world is
    the one of a normal completion, one logged line apart.  On a connected
    guild the next queued track is then current and rendered, and with an
    empty queue the session is idle with a live timer. *)
Theorem playback_error_advances (w : World) (g : GuildId) (l : Loc)
    (v : VcRef) (st : GuildState) (c : VoiceClient) (a : YTDLSource)
    (err : Exn) :
  guild_states w !! g = Some l → states w !! l = Some st →
  voice_clients w !! g = Some v → vcs w !! v = Some c →
  player c = Playing a g false → loop_calls w = [] →
  let w_err := run w [EvFinished v (Some err); EvLoopCall] in
  let w_ok := run w [EvFinished v None; EvLoopCall] in
  same_state w_ok w_err
  ∧ trace w_err
    = trace w ++ [OLogError g] ++ drop (length (trace w)) (trace w_ok)
  ∧ (connected c = true →
     match queue st with
     | next :: rest =>
         current w_err g = Some next ∧ pending w_err g = rest
         ∧ rendering w_err g = Playing next g false
     | [] =>
         current w_err g = None ∧ pending w_err g = []
         ∧ rendering w_err g = NoPlayer ∧ timer_live w_err g = true
     end).
Proof.
  intros Hg Hl Hv Hc Hp Hloop. cbn -[run_loop_call track_finished].
  unfold exec.
  rewrite !(track_finished_playing v c a g) by done. cbn -[run_loop_call].
  rewrite Hloop. cbn -[run_loop_call].
  rewrite !(run_loop_call_head g []) by done.
  unfold set_loop_calls. cbn.
  destruct (connected c) eqn:Hconn.
  - destruct (queue st) as [|next rest] eqn:Hq.
    + rewrite !(play_next_idle g l st v (set_player NoPlayer c)); try done;
        try (by cbn; rewrite list_lookup_alter_eq, Hc).
      cbn. split_and!.
      * done.
      * by rewrite drop_app_length.
      * intros _. unfold current, pending, rendering, timer_live, session.
        cbn. rewrite Hg, Hv. cbn.
        rewrite !list_lookup_alter_eq, Hl, Hc. cbn.
        split_and!; try done.
        rewrite lookup_app_r
          by (unfold cancel_pending; crunch; by rewrite length_alter).
        replace (length (tasks w)
                 - length (cancel_pending (disconnect_timer st) (tasks w)))
          with 0
          by (unfold cancel_pending; crunch; rewrite ?length_alter; lia).
        done.
    + rewrite !(play_next_advance g l st v (set_player NoPlayer c) _ next rest);
        try done; try (by cbn; rewrite list_lookup_alter_eq, Hc).
      cbn. split_and!.
      * done.
      * rewrite app_nil_r, drop_app_length. by rewrite <- !(assoc_L (++)).
      * intros _. unfold current, pending, rendering, session.
        cbn. rewrite Hg, Hv. cbn.
        by rewrite !list_lookup_alter_eq, Hl, Hc.
  - rewrite !play_next_not_connected
      by (unfold is_connected; cbn; rewrite Hv; cbn;
          by rewrite list_lookup_alter_eq, Hc).
    unfold exec. rewrite !(get_guild_state_hit _ _ l) by done. cbn.
    split_and!; try done.
    by rewrite drop_app_length.
Qed.

Lemma playback_error_advances_witness :
  let w := run playing_A_then_B
             [EvFinished 0 (Some (ClientException "broken pipe")); EvLoopCall] in
  current w 1 = Some (track "B") ∧ pending w 1 = []
  ∧ rendering w 1 = Playing (track "B") 1 false.
Proof.
  exact (proj2 (proj2
    (playback_error_advances playing_A_then_B 1 0 0
       {| queue := [track "B"]; current_track := Some (track "A");
          now_playing_message := None; disconnect_timer := None;
          voice_client := Some 0 |}
       {| channel := 5; connected := true;
          player := Playing (track "A") 1 false |}
       (track "A") (ClientException "broken pipe")
       eq_refl eq_refl eq_refl eq_refl eq_refl eq_refl)) eq_refl).
Defined.

(** C4 at its failing input.  Track "A" plays with nothing pending.  It
    ends; before the loop runs the [play_next] submitted by its completion
    callback, a [play] of "X" resumes: it finds the sink idle, takes "X"
    from the queue and plays it.  The late [play_next] then finds the queue
    empty, resets [current_track] and arms the timer: "X" is rendered once
    and is not pending, but it is not the current track. *)
Lemma enqueue_completion_race :
  current race_world 1 = None
  ∧ pending race_world 1 = []
  ∧ rendering race_world 1 = Playing (track "X") 1 false
  ∧ timer_live race_world 1 = true
  ∧ currents 1 (trace race_world) = [track "A"; track "X"].
Proof. by vm_compute. Qed.

(** In the two other orders "X" ends up current, rendered and not
    pending. *)
Lemma enqueue_completion_in_order :
  let before := run playing_A [EvPlay 1 (Some 5%Z);
                               EvResolved 0 (inr (track "X"));
                               EvFinished 0 None; EvLoopCall] in
  let after := run playing_A [EvPlay 1 (Some 5%Z); EvFinished 0 None;
                              EvLoopCall; EvResolved 0 (inr (track "X"))] in
  (current before 1 = Some (track "X") ∧ pending before 1 = []
   ∧ rendering before 1 = Playing (track "X") 1 false)
  ∧ (current after 1 = Some (track "X") ∧ pending after 1 = []
     ∧ rendering after 1 = Playing (track "X") 1 false).
Proof. by vm_compute. Qed.

Lemma stale_timer_fire_is_noop_witness :
  let w' := step race_world (EvTimer 0 true) in
  guild_states w' = guild_states race_world
  ∧ states w' = states race_world
  ∧ voice_clients w' = voice_clients race_world
  ∧ vcs w' = vcs race_world.
Proof.
  assert (H : ∀ k, tasks race_world !! 0 = Some k →
            guild_states race_world !! task_guild k = None
            ∨ is_connected race_world (task_guild k) = false
            ∨ ∃ s g', rendering race_world (task_guild k) = Playing s g' false).
  { intros k Hk. vm_compute in Hk. injection Hk as <-.
    right; right. eexists _, _. vm_compute. reflexivity. }
  destruct (stale_timer_fire_is_noop race_world 0 true H)
    as (H1 & H2 & H3 & H4 & _).
  cbn zeta. by split_and!.
Defined.

(** *** First in, first out *)

Lemma pending_queues w g :
  pending w g
  = default [] (guild_states w !! g ≫= λ l, (queue <$> states w) !! l).
Proof.
  unfold pending, session. destruct (guild_states w !! g) as [l|]; cbn; [|done].
  rewrite list_lookup_fmap. by destruct (states w !! l).
Qed.

Lemma fifo_neutral w w' :
  queue_neutral w w' → fifo_invariant w → fifo_invariant w'.
Proof.
  intros (Hg & Hq & Hs & Hp & Hc) (Ha & Hi & Hf & Hfifo).
  split_and!.
  - intros g l. rewrite Hg. intros H%Ha.
    rewrite <- (length_fmap queue), Hq, length_fmap. done.
  - intros g g' l. rewrite Hg. apply Hi.
  - intros f. rewrite Hs, Hg. apply Hf.
  - intros g. unfold fifo_at. rewrite Hp, Hc, pending_queues, Hg, Hq.
    rewrite <- pending_queues. apply Hfifo.
Qed.

Lemma queue_neutral_refl w : queue_neutral w w.
Proof. done. Qed.

Lemma queue_neutral_trans w1 w2 w3 :
  queue_neutral w1 w2 → queue_neutral w2 w3 → queue_neutral w1 w3.
Proof.
  intros (?&?&?&?&?) (?&?&?&?&?). split_and!; try congruence;
    intros g; congruence.
Qed.

Lemma ensure_voice_neutral g uc w :
  queue_neutral w (exec (MusicCog.ensure_voice g uc) w).
Proof.
  destruct (ensure_voice_frame g uc w) as (Hg & Hs & _).
  assert (suspended (exec (MusicCog.ensure_voice g uc) w) = suspended w) as Hsu.
  { unfold MusicCog.ensure_voice. destruct uc as [ch|]; [|by munfold].
    sink_unfold. simpl. crunch. }
  split_and!; try done.
  - by rewrite Hs.
  - destruct (ensure_voice_trace g uc w) as [-> | ->]; [done|trace_neutral].
  - destruct (ensure_voice_trace g uc w) as [-> | ->]; [done|trace_neutral].
Qed.

Lemma skip_neutral g w : queue_neutral w (exec (MusicCog.skip g) w).
Proof.
  unfold MusicCog.skip. sink_unfold. cbn.
  crunch; split_and!; try done; trace_neutral.
Qed.

Lemma skip_button_neutral g w :
  queue_neutral w (exec (MusicControlView.skip g) w).
Proof.
  unfold MusicControlView.skip. sink_unfold. cbn.
  crunch; split_and!; try done; trace_neutral.
Qed.

Lemma pause_resume_neutral g w :
  queue_neutral w (exec (MusicControlView.pause_resume g) w).
Proof.
  unfold MusicControlView.pause_resume. sink_unfold. cbn.
  crunch; split_and!; try done; trace_neutral.
Qed.

Lemma track_finished_neutral v error w :
  queue_neutral w (exec (track_finished v error) w).
Proof.
  unfold track_finished. sink_unfold. cbn.
  crunch; split_and!; try done; trace_neutral.
Qed.

Lemma queues_alter (f : GuildState → GuildState) l (sts : list GuildState) :
  (∀ s, queue (f s) = queue s) → queue <$> alter f l sts = queue <$> sts.
Proof.
  intros Hf. apply list_eq. intros i. rewrite !list_lookup_fmap.
  destruct (decide (i = l)) as [->|].
  - rewrite list_lookup_alter_eq. destruct (sts !! l); cbn; [|done].
    by rewrite Hf.
  - by rewrite list_lookup_alter_ne.
Qed.

Lemma update_state_neutral l f w :
  (∀ s, queue (f s) = queue s) → queue_neutral w (exec (update_state l f) w).
Proof.
  intros Hf. unfold update_state. munfold. cbn.
  split_and!; try done. cbn. by apply queues_alter.
Qed.

Lemma get_guild_state_fifo g w :
  fifo_invariant w → fifo_invariant (exec (MusicCog.get_guild_state g) w).
Proof.
  intros Hinv. pose proof Hinv as (Ha & Hi & Hf & Hfifo). unfold exec.
  destruct (guild_states w !! g) as [l|] eqn:Hg.
  { by rewrite (get_guild_state_hit _ _ _ Hg). }
  pose proof (registry_allocated_lookup g w Ha) as Ha'. unfold exec in Ha'.
  rewrite (get_guild_state_miss _ _ Hg) in *. cbn in *.
  split_and!; [done|..].
  - intros g1 g2 l'. cbn.
    destruct (decide (g = g1)) as [<-|]; destruct (decide (g = g2)) as [<-|];
      rewrite ?lookup_insert_eq, ?lookup_insert_ne by done; try done.
    + intros ? H%Ha. simplify_eq. lia.
    + intros H%Ha ?. simplify_eq. lia.
    + apply Hi.
  - intros f Hin. cbn in *. specialize (Hf f Hin).
    rewrite lookup_insert_ne; [done|]. intros ->. by rewrite Hg in Hf.
  - intros g'. unfold fifo_at, pending, session. cbn.
    specialize (Hfifo g'). unfold fifo_at, pending, session in Hfifo.
    destruct (decide (g = g')) as [->|].
    + rewrite lookup_insert_eq. cbn. rewrite lookup_app_r by lia.
      rewrite Nat.sub_diag. cbn. by rewrite Hg in Hfifo.
    + rewrite lookup_insert_ne by done.
      destruct (guild_states w !! g') as [l'|] eqn:Hg'; cbn in *; [|done].
      by rewrite lookup_app_l by (by eapply Ha).
Qed.

Lemma enqueued_fifo f x w :
  fifo_invariant w →
  guild_states w !! frame_guild f = Some (frame_state f) →
  fifo_invariant (enqueued f x w).
Proof.
  intros (Ha & Hi & Hf & Hfifo) Hreg. split_and!.
  - by apply registry_allocated_enqueued.
  - done.
  - done.
  - intros g. unfold fifo_at, pending, session. cbn.
    specialize (Hfifo g). unfold fifo_at, pending, session in Hfifo.
    unfold puts, currents in *. rewrite !omap_app. cbn.
    case_bool_decide as Hgg; cbn.
    + subst g. rewrite Hreg in Hfifo. rewrite Hreg. cbn in *.
      destruct (lookup_lt_is_Some_2 (states w) (frame_state f)
                  (Ha _ _ Hreg)) as [st Hst].
      rewrite list_lookup_alter_eq, Hst. rewrite Hst in Hfifo. cbn in *.
      rewrite Hfifo. by rewrite app_nil_r, (assoc_L (++)).
    + rewrite !app_nil_r.
      destruct (guild_states w !! g) as [l|] eqn:Hg; cbn in *; [|done].
      rewrite list_lookup_alter_ne; [done|].
      intros Heq. subst l. apply Hgg. by eapply Hi.
Qed.

Lemma play_next_fifo g w :
  fifo_invariant w → fifo_invariant (exec (MusicCog.play_next g) w).
Proof.
  intros Hinv. unfold exec. rewrite play_next_lookup.
  apply (get_guild_state_fifo g) in Hinv.
  destruct (get_guild_state_lookup g w) as (l & _ & Hreg).
  revert Hinv Hreg. generalize (exec (MusicCog.get_guild_state g) w).
  clear w. intros w Hinv Hreg.
  pose proof Hinv as (Ha & Hi & Hf & Hfifo).
  destruct (lookup_lt_is_Some_2 (states w) l (Ha _ _ Hreg)) as [st Hst].
  destruct (is_connected w g) eqn:Hconn.
  2:{ rewrite play_next_not_connected by done. unfold exec.
      by rewrite (get_guild_state_hit _ _ _ Hreg). }
  pose proof Hconn as Hconn'. unfold is_connected in Hconn'.
  destruct (voice_clients w !! g) as [v|] eqn:Hv; cbn in *; [|done].
  destruct (vcs w !! v) as [c|] eqn:Hc; cbn in *; [|done].
  destruct (queue st) as [|source rest] eqn:Hq.
  - rewrite (play_next_idle g l st v c w) by done. cbn.
    eapply fifo_neutral; [|exact Hinv].
    split_and!; try done. cbn. by apply queues_alter.
  - rewrite (play_next_advance g l st v c w source rest) by done. cbn.
    split_and!.
    + intros g' l'. cbn. rewrite length_alter. apply Ha.
    + done.
    + done.
    + intros g'. unfold fifo_at, pending, session. cbn.
      specialize (Hfifo g'). unfold fifo_at, pending, session in Hfifo.
      unfold puts, currents in *. rewrite !omap_app. cbn.
      assert (omap (λ o, match o with
                         | OPut g'0 s =>
                             if bool_decide (g'0 = g') then Some s else None
                         | _ => None
                         end)
                (match player c with
                 | Playing _ _ false => []
                 | _ => [OSinkPlay g source;
                         OReply g (NowPlayingEmbed source)]
                 end) = []) as -> by (by destruct (player c) as [|? ? []]).
      assert (omap (λ o, match o with
                         | OCurrent g'0 s =>
                             if bool_decide (g'0 = g') then Some s else None
                         | _ => None
                         end)
                (match player c with
                 | Playing _ _ false => []
                 | _ => [OSinkPlay g source;
                         OReply g (NowPlayingEmbed source)]
                 end) = []) as -> by (by destruct (player c) as [|? ? []]).
      rewrite !app_nil_r.
      case_bool_decide as Hgg; cbn.
      * subst g'. rewrite Hreg in Hfifo. rewrite Hreg. cbn in *.
        rewrite list_lookup_alter_eq, Hst. rewrite Hst in Hfifo. cbn in *.
        rewrite Hfifo, Hq. by rewrite <- (assoc_L (++)).
      * rewrite app_nil_r.
        destruct (guild_states w !! g') as [l'|] eqn:Hg'; cbn in *; [|done].
        rewrite list_lookup_alter_ne; [done|].
        intros ->. apply Hgg. by eapply Hi.
Qed.

Lemma play_request_fifo g uc w :
  fifo_invariant w →
  ∃ r w', MusicCog.play_request g uc w = (r, w') ∧ fifo_invariant w'
          ∧ ∀ f, r = Ok (Some f) →
                 guild_states w' !! frame_guild f = Some (frame_state f).
Proof.
  intros Hinv. unfold MusicCog.play_request. rewrite bind_eq.
  pose proof (ensure_voice_neutral g uc w) as Hn. unfold exec in Hn.
  apply fifo_neutral in Hn; [|done].
  destruct (MusicCog.ensure_voice g uc w) as [[[v|]|e] w0]; cbn in *;
    [|by eexists _, _..].
  rewrite bind_eq.
  pose proof (get_guild_state_fifo g w0 Hn) as Hl.
  destruct (get_guild_state_lookup g w0) as (l & -> & Hreg).
  revert Hl Hreg. generalize (exec (MusicCog.get_guild_state g) w0).
  intros w1 Hl Hreg. rewrite bind_eq.
  pose proof (update_state_neutral l (set_voice_client (Some v)) w1) as Hu.
  unfold exec, update_state in *. munfold. cbn in *.
  eexists _, _. split; [reflexivity|]. split.
  - eapply fifo_neutral; [apply Hu; by intros []|done].
  - intros f [= <-]. done.
Qed.

Lemma start_play_fifo g uc w :
  fifo_invariant w → fifo_invariant (exec (start_play g uc) w).
Proof.
  intros Hinv. unfold exec, start_play. rewrite bind_eq.
  destruct (play_request_fifo g uc w Hinv) as (r & w' & -> & Hinv' & Hfr).
  destruct r as [[f|]|e]; cbn; try done.
  destruct Hinv' as (Ha & Hi & Hf & Hfifo). split_and!; try done.
  intros f'. cbn. rewrite elem_of_app, list_elem_of_singleton.
  intros [?| ->]; [by apply Hf|by apply Hfr].
Qed.

Lemma play_resolved_fifo f r w :
  fifo_invariant w →
  guild_states w !! frame_guild f = Some (frame_state f) →
  fifo_invariant (exec (MusicCog.play_resolved f r) w).
Proof.
  intros Hinv Hreg. unfold exec. destruct r as [e|x].
  - rewrite play_resolved_failed. cbn.
    eapply fifo_neutral; [|done]. split_and!; try done; trace_neutral.
  - pose proof (enqueued_fifo f x w Hinv Hreg) as Henq.
    destruct (sink_idle w (frame_vc f)) eqn:Hidle.
    + rewrite play_resolved_idle by done. rewrite bind_eq.
      pose proof (play_next_fifo (frame_guild f) _ Henq) as Hnext.
      unfold exec in Hnext.
      destruct (MusicCog.play_next (frame_guild f) (enqueued f x w))
        as [[[]|e] w1]; cbn in *; [|done].
      eapply fifo_neutral; [|done]. split_and!; try done; trace_neutral.
    + rewrite play_resolved_busy by done. cbn.
      eapply fifo_neutral; [|exact Henq].
      split_and!; try done; trace_neutral.
Qed.

Lemma resume_play_fifo k r w :
  fifo_invariant w → fifo_invariant (exec (resume_play k r) w).
Proof.
  intros Hinv. unfold exec, resume_play. rewrite bind_eq. unfold gets at 1.
  destruct (suspended w !! k) as [f|] eqn:Hk; [|done].
  rewrite bind_eq. unfold modify at 1.
  apply play_resolved_fifo.
  - destruct Hinv as (Ha & Hi & Hf & Hfifo). split_and!; try done.
    intros f'. cbn. intros Hin. apply Hf.
    eapply elem_of_sublist; [done|]. apply sublist_delete.
  - cbn. destruct Hinv as (_ & _ & Hf & _). apply Hf.
    by eapply list_elem_of_lookup_2.
Qed.

Lemma run_loop_call_fifo w :
  fifo_invariant w → fifo_invariant (exec run_loop_call w).
Proof.
  intros Hinv. unfold exec, run_loop_call. rewrite bind_eq. unfold gets at 1.
  destruct (loop_calls w) as [|g rest]; [done|].
  rewrite bind_eq. unfold modify at 1. by apply play_next_fifo.
Qed.

Lemma queue_view_fifo g w :
  fifo_invariant w → fifo_invariant (exec (MusicCog.queue g) w).
Proof.
  intros Hinv. apply (get_guild_state_fifo g) in Hinv.
  unfold MusicCog.queue. unfold exec at 1. rewrite bind_eq.
  destruct (get_guild_state_lookup g w) as (l & -> & _).
  revert Hinv. generalize (exec (MusicCog.get_guild_state g) w). intros w1 ?.
  unfold state_at. munfold. cbn.
  eapply fifo_neutral; [|done].
  crunch; split_and!; try done; trace_neutral.
Qed.

Lemma step_fifo w e :
  teardown_free e = true → fifo_invariant w → fifo_invariant (step w e).
Proof.
  intros Hfree Hinv. destruct e; try done; cbn.
  - by apply start_play_fifo.
  - by apply resume_play_fifo.
  - eapply fifo_neutral; [apply track_finished_neutral|done].
  - by apply run_loop_call_fifo.
  - eapply fifo_neutral; [apply skip_neutral|done].
  - by apply queue_view_fifo.
  - eapply fifo_neutral; [apply pause_resume_neutral|done].
  - eapply fifo_neutral; [apply skip_button_neutral|done].
Qed.

Lemma fifo_invariant_empty : fifo_invariant empty_world.
Proof.
  split_and!.
  - apply registry_allocated_empty.
  - intros g g' l. cbn. by rewrite lookup_empty.
  - intros f. cbn. by rewrite elem_of_nil.
  - done.
Qed.

Lemma run_fifo es w :
  forallb teardown_free es = true → fifo_invariant w →
  fifo_invariant (run w es).
Proof.
  revert w. induction es as [|e es IH]; intros w Hfree Hinv; [done|].
  cbn in Hfree. apply andb_prop in Hfree as [He Hes].
  cbn. apply IH; [done|]. by apply step_fifo.
Qed.

(** The same through teardowns: tracks may be dropped, never reordered. *)

Lemma bind_inv {A B} (P : World → Prop) (m : M A) (k : A → M B) w :
  P (exec m w) → (∀ a w', P w' → P (exec (k a) w')) → P (exec (m ≫= k) w).
Proof.
  unfold exec. rewrite bind_eq. intros Hm Hk.
  destruct (m w) as [[a|e] w']; cbn in *; [by apply Hk|done].
Qed.

Lemma queue_neutral_shrinking w w' : queue_neutral w w' → queue_shrinking w w'.
Proof.
  intros (Hg & Hq & Hs & Hp & Hc). split_and!; try done.
  - by rewrite <- (length_fmap queue), Hq, length_fmap.
  - intros i st' Hi.
    assert ((queue <$> states w') !! i = Some (queue st')) as Hq'
      by (by rewrite list_lookup_fmap, Hi).
    rewrite Hq, list_lookup_fmap in Hq'.
    destruct (states w !! i) as [st|]; cbn in *; [|done].
    exists st. split; [done|]. left. congruence.
Qed.

Lemma order_shrinking w w' :
  queue_shrinking w w' → order_invariant w → order_invariant w'.
Proof.
  intros (Hg & Hlen & Hq & Hs & Hp & Hc) (Ha & Hi & Hf & Hord).
  split_and!.
  - intros g l. rewrite Hg, Hlen. apply Ha.
  - intros g g' l. rewrite Hg. apply Hi.
  - intros f. rewrite Hs, Hg, Hlen. apply Hf.
  - intros g. unfold order_at. rewrite Hp, Hc.
    etrans; [|apply Hord]. apply sublist_app; [done|].
    unfold pending, session. rewrite Hg.
    destruct (guild_states w !! g) as [l|]; cbn; [|done].
    destruct (states w' !! l) as [st'|] eqn:Hl; cbn; [|apply sublist_nil_l].
    destruct (Hq l st' Hl) as (st & -> & [-> | ->]); cbn;
      [done|apply sublist_nil_l].
Qed.

Lemma order_neutral w w' :
  queue_neutral w w' → order_invariant w → order_invariant w'.
Proof. intros H. apply order_shrinking. by apply queue_neutral_shrinking. Qed.

Lemma get_guild_state_order g w :
  order_invariant w → order_invariant (exec (MusicCog.get_guild_state g) w).
Proof.
  intros Hinv. pose proof Hinv as (Ha & Hi & Hf & Hord). unfold exec.
  destruct (guild_states w !! g) as [l|] eqn:Hg.
  { by rewrite (get_guild_state_hit _ _ _ Hg). }
  pose proof (registry_allocated_lookup g w Ha) as Ha'. unfold exec in Ha'.
  rewrite (get_guild_state_miss _ _ Hg) in *. cbn in *.
  split_and!; [done|..].
  - intros g1 g2 l'. cbn.
    destruct (decide (g = g1)) as [<-|]; destruct (decide (g = g2)) as [<-|];
      rewrite ?lookup_insert_eq, ?lookup_insert_ne by done; try done.
    + intros ? H%Ha. simplify_eq. lia.
    + intros H%Ha ?. simplify_eq. lia.
    + apply Hi.
  - intros f Hin. cbn in *. destruct (Hf f Hin) as [Hlt Hown].
    rewrite length_app. cbn. split; [lia|]. intros g'.
    destruct (decide (g = g')) as [<-|].
    + rewrite lookup_insert_eq. intros [= Heq]. lia.
    + rewrite lookup_insert_ne by done. apply Hown.
  - intros g'. unfold order_at, pending, session. cbn.
    specialize (Hord g'). unfold order_at, pending, session in Hord.
    destruct (decide (g = g')) as [<-|].
    + rewrite lookup_insert_eq. cbn. rewrite lookup_app_r by lia.
      rewrite Nat.sub_diag. cbn. by rewrite Hg in Hord.
    + rewrite lookup_insert_ne by done.
      destruct (guild_states w !! g') as [l'|] eqn:Hg'; cbn in *; [|done].
      by rewrite lookup_app_l by (by eapply Ha).
Qed.

Lemma enqueued_order f x w :
  order_invariant w →
  (∀ g, guild_states w !! g = Some (frame_state f) → g = frame_guild f) →
  order_invariant (enqueued f x w).
Proof.
  intros (Ha & Hi & Hf & Hord) Hown. split_and!.
  - by apply registry_allocated_enqueued.
  - done.
  - intros f' Hin. cbn. rewrite length_alter. by apply Hf.
  - intros g. unfold order_at, pending, session. cbn.
    specialize (Hord g). unfold order_at, pending, session in Hord.
    unfold puts, currents in *. rewrite !omap_app. cbn. rewrite app_nil_r.
    destruct (guild_states w !! g) as [l|] eqn:Hg; cbn in *.
    + destruct (decide (l = frame_state f)) as [->|Hne].
      * pose proof (Hown g Hg). subst g.
        rewrite bool_decide_eq_true_2 by done. cbn.
        rewrite list_lookup_alter_eq.
        destruct (states w !! frame_state f) as [st|]; cbn in *.
        -- rewrite (assoc_L (++)). by apply sublist_app.
        -- by apply sublist_inserts_r.
      * rewrite list_lookup_alter_ne by done. by apply sublist_inserts_r.
    + by apply sublist_inserts_r.
Qed.

Lemma play_next_order g w :
  order_invariant w → order_invariant (exec (MusicCog.play_next g) w).
Proof.
  intros Hinv. unfold exec. rewrite play_next_lookup.
  apply (get_guild_state_order g) in Hinv.
  destruct (get_guild_state_lookup g w) as (l & _ & Hreg).
  revert Hinv Hreg. generalize (exec (MusicCog.get_guild_state g) w).
  clear w. intros w Hinv Hreg.
  pose proof Hinv as (Ha & Hi & Hf & Hord).
  destruct (lookup_lt_is_Some_2 (states w) l (Ha _ _ Hreg)) as [st Hst].
  destruct (is_connected w g) eqn:Hconn.
  2:{ rewrite play_next_not_connected by done. unfold exec.
      by rewrite (get_guild_state_hit _ _ _ Hreg). }
  pose proof Hconn as Hconn'. unfold is_connected in Hconn'.
  destruct (voice_clients w !! g) as [v|] eqn:Hv; cbn in *; [|done].
  destruct (vcs w !! v) as [c|] eqn:Hc; cbn in *; [|done].
  destruct (queue st) as [|source rest] eqn:Hq.
  - rewrite (play_next_idle g l st v c w) by done. cbn.
    eapply order_neutral; [|exact Hinv].
    split_and!; try done. cbn. by apply queues_alter.
  - rewrite (play_next_advance g l st v c w source rest) by done. cbn.
    split_and!.
    + intros g' l'. cbn. rewrite length_alter. apply Ha.
    + done.
    + intros f' Hin. cbn. rewrite length_alter. by apply Hf.
    + intros g'. unfold order_at, pending, session. cbn.
      specialize (Hord g'). unfold order_at, pending, session in Hord.
      unfold puts, currents in *. rewrite !omap_app. cbn.
      assert (omap (λ o, match o with
                         | OPut g'0 s =>
                             if bool_decide (g'0 = g') then Some s else None
                         | _ => None
                         end)
                (match player c with
                 | Playing _ _ false => []
                 | _ => [OSinkPlay g source;
                         OReply g (NowPlayingEmbed source)]
                 end) = []) as -> by (by destruct (player c) as [|? ? []]).
      assert (omap (λ o, match o with
                         | OCurrent g'0 s =>
                             if bool_decide (g'0 = g') then Some s else None
                         | _ => None
                         end)
                (match player c with
                 | Playing _ _ false => []
                 | _ => [OSinkPlay g source;
                         OReply g (NowPlayingEmbed source)]
                 end) = []) as -> by (by destruct (player c) as [|? ? []]).
      rewrite !app_nil_r.
      case_bool_decide as Hgg; cbn.
      * subst g'. rewrite Hreg in Hord. rewrite Hreg. cbn in *.
        rewrite list_lookup_alter_eq, Hst. rewrite Hst in Hord. cbn in *.
        rewrite Hq in Hord. by rewrite <- (assoc_L (++)).
      * rewrite app_nil_r.
        destruct (guild_states w !! g') as [l'|] eqn:Hg'; cbn in *; [|done].
        rewrite list_lookup_alter_ne; [done|].
        intros ->. apply Hgg. by eapply Hi.
Qed.

Lemma clear_shrinking l w : queue_shrinking w (exec (clear l) w).
Proof.
  unfold exec. destruct (clear_spec l w)
    as (w' & Heq & Hc & Hg & _ & _ & _ & _ & Hsu & Htr).
  assert (Hst : ∃ f, states (clear l w).2 = alter f l (states w)).
  { ops_unfold. cbn. crunch; rewrite ?list_alter_alter_eq; eauto. }
  rewrite Heq in *. cbn in *. destruct Hst as [f Hst].
  split_and!; try done.
  - by rewrite Hst, length_alter.
  - intros i st' Hi. rewrite Hst in Hi.
    destruct (decide (i = l)) as [->|].
    + rewrite list_lookup_alter_eq in Hi.
      destruct (states w !! l) as [st|] eqn:Hl; cbn in *; [|done].
      exists st. split; [done|]. right. simplify_eq.
      destruct (Hc (f st)) as (? & _); [|done].
      by rewrite Hst, list_lookup_alter_eq, Hl.
    + rewrite list_lookup_alter_ne in Hi by done. eauto.
  - intros g. by rewrite Htr.
  - intros g. by rewrite Htr.
Qed.

Lemma hangup_neutral g v w :
  queue_neutral w (exec (vc_stop v;; vc_disconnect g v) w).
Proof. sink_unfold. cbn. crunch. Qed.

Lemma unregister_order g w :
  order_invariant w → order_invariant (set_guild_states (delete g) w).
Proof.
  intros (Ha & Hi & Hf & Hord). split_and!.
  - intros g' l. cbn. rewrite lookup_delete_Some. intros [_ Hd].
    by apply (Ha g').
  - intros g1 g2 l. cbn. rewrite !lookup_delete_Some.
    intros [_ H1] [_ H2]. by apply (Hi g1 g2 l).
  - intros f Hin. cbn. destruct (Hf f Hin) as [? Hown]. split; [done|].
    intros g'. rewrite lookup_delete_Some. intros [_ Hd]. by apply Hown.
  - intros g'. unfold order_at, pending, session. cbn.
    specialize (Hord g'). unfold order_at, pending, session in Hord.
    destruct (decide (g = g')) as [<-|].
    + rewrite lookup_delete_eq. cbn. etrans; [|exact Hord].
      apply sublist_app; [done|apply sublist_nil_l].
    + by rewrite lookup_delete_ne.
Qed.

Lemma full_stop_order g l w :
  order_invariant w → order_invariant (exec (MusicCog.full_stop g l) w).
Proof.
  intros Hinv. unfold MusicCog.full_stop.
  apply bind_inv; [by eapply order_shrinking; [apply clear_shrinking|]|].
  clear w Hinv. intros _ w Hinv.
  apply bind_inv; [done|]. intros vc w' Hinv'.
  apply bind_inv.
  - destruct vc as [v|]; [|done].
    eapply order_neutral; [apply hangup_neutral|done].
  - clear. intros _ w Hinv. apply bind_inv; [done|].
    intros [] w' Hinv'; [|done]. by apply unregister_order.
Qed.

Lemma emit_reply_order g r w :
  order_invariant w → order_invariant (exec (emit (OReply g r)) w).
Proof.
  intros Hinv. eapply order_neutral; [|done]. munfold. cbn.
  split_and!; try done; trace_neutral.
Qed.

Lemma stop_order g w :
  order_invariant w → order_invariant (exec (MusicCog.stop g) w).
Proof.
  intros Hinv. unfold MusicCog.stop.
  apply bind_inv; [by apply get_guild_state_order|].
  clear w Hinv. intros l w Hinv. apply bind_inv; [done|].
  intros [v|] w' Hinv'; [|by apply emit_reply_order].
  apply bind_inv; [by apply full_stop_order|].
  intros _ w'' ?. by apply emit_reply_order.
Qed.

Lemma stop_button_order g w :
  order_invariant w → order_invariant (exec (MusicControlView.stop g) w).
Proof.
  intros Hinv. unfold MusicControlView.stop.
  apply bind_inv; [by apply get_guild_state_order|].
  clear w Hinv. intros l w Hinv.
  apply bind_inv; [by apply full_stop_order|].
  intros _ w'' ?. by apply emit_reply_order.
Qed.

Lemma timer_body_order g known w :
  order_invariant w →
  order_invariant (exec (MusicCog.disconnect_after_timeout g known) w).
Proof.
  intros Hinv. unfold MusicCog.disconnect_after_timeout.
  destruct known; cbn; [|done].
  apply bind_inv; [done|]. intros [l|] w' Hinv'; [|done].
  apply bind_inv; [done|]. intros [v|] w'' Hinv''; [|done].
  apply bind_inv; [done|]. intros conn w3 Hinv3.
  apply bind_inv; [done|]. intros pl w4 Hinv4.
  destruct (conn && negb pl); [|done].
  apply bind_inv; [by apply full_stop_order|].
  intros _ w5 ?. eapply order_neutral; [|done]. munfold. cbn.
  split_and!; try done; trace_neutral.
Qed.

Lemma bookkeeping_order r f w :
  order_invariant w → order_invariant (set_running r (set_tasks f w)).
Proof. intros Hinv. eapply order_neutral; [|done]. done. Qed.

Lemma run_timer_order t known w :
  order_invariant w → order_invariant (run_timer t known w).
Proof.
  intros Hinv. unfold run_timer.
  destruct (tasks w !! t) as [k|]; [|done].
  destruct (task_status k); try done.
  pose proof (timer_body_order (task_guild k) known _
                (bookkeeping_order (Some t) (alter (set_status Running) t)
                   w Hinv)) as Hbody.
  unfold exec in Hbody.
  destruct (MusicCog.disconnect_after_timeout _ _ _) as [r w2]; cbn in *.
  by apply bookkeeping_order.
Qed.

Lemma play_request_order g uc w :
  order_invariant w →
  ∃ r w', MusicCog.play_request g uc w = (r, w') ∧ order_invariant w'
          ∧ ∀ f, r = Ok (Some f) →
                 guild_states w' !! frame_guild f = Some (frame_state f).
Proof.
  intros Hinv. unfold MusicCog.play_request. rewrite bind_eq.
  pose proof (ensure_voice_neutral g uc w) as Hn. unfold exec in Hn.
  apply order_neutral in Hn; [|done].
  destruct (MusicCog.ensure_voice g uc w) as [[[v|]|e] w0]; cbn in *;
    [|by eexists _, _..].
  rewrite bind_eq.
  pose proof (get_guild_state_order g w0 Hn) as Hl.
  destruct (get_guild_state_lookup g w0) as (l & -> & Hreg).
  revert Hl Hreg. generalize (exec (MusicCog.get_guild_state g) w0).
  intros w1 Hl Hreg. rewrite bind_eq.
  pose proof (update_state_neutral l (set_voice_client (Some v)) w1) as Hu.
  unfold exec, update_state in *. munfold. cbn in *.
  eexists _, _. split; [reflexivity|]. split.
  - eapply order_neutral; [apply Hu; by intros []|done].
  - intros f [= <-]. done.
Qed.

Lemma start_play_order g uc w :
  order_invariant w → order_invariant (exec (start_play g uc) w).
Proof.
  intros Hinv. unfold exec, start_play. rewrite bind_eq.
  destruct (play_request_order g uc w Hinv) as (r & w' & -> & Hinv' & Hfr).
  destruct r as [[f|]|e]; cbn; try done.
  destruct Hinv' as (Ha & Hi & Hf & Hord). split_and!; try done.
  intros f'. cbn. rewrite elem_of_app, list_elem_of_singleton.
  intros [?| ->]; [by apply Hf|].
  specialize (Hfr f eq_refl). split; [by eapply Ha|].
  intros g' Hg'. by eapply Hi.
Qed.

Lemma play_resolved_order f r w :
  order_invariant w →
  (∀ g, guild_states w !! g = Some (frame_state f) → g = frame_guild f) →
  order_invariant (exec (MusicCog.play_resolved f r) w).
Proof.
  intros Hinv Hown. unfold exec. destruct r as [e|x].
  - rewrite play_resolved_failed. cbn.
    eapply order_neutral; [|done]. split_and!; try done; trace_neutral.
  - pose proof (enqueued_order f x w Hinv Hown) as Henq.
    destruct (sink_idle w (frame_vc f)) eqn:Hidle.
    + rewrite play_resolved_idle by done. rewrite bind_eq.
      pose proof (play_next_order (frame_guild f) _ Henq) as Hnext.
      unfold exec in Hnext.
      destruct (MusicCog.play_next (frame_guild f) (enqueued f x w))
        as [[[]|e] w1]; cbn in *; [|done].
      eapply order_neutral; [|done]. split_and!; try done; trace_neutral.
    + rewrite play_resolved_busy by done. cbn.
      eapply order_neutral; [|exact Henq].
      split_and!; try done; trace_neutral.
Qed.

Lemma resume_play_order k r w :
  order_invariant w → order_invariant (exec (resume_play k r) w).
Proof.
  intros Hinv. unfold exec, resume_play. rewrite bind_eq. unfold gets at 1.
  destruct (suspended w !! k) as [f|] eqn:Hk; [|done].
  rewrite bind_eq. unfold modify at 1.
  apply play_resolved_order.
  - destruct Hinv as (Ha & Hi & Hf & Hord). split_and!; try done.
    intros f'. cbn. intros Hin. apply Hf.
    eapply elem_of_sublist; [done|]. apply sublist_delete.
  - cbn. destruct Hinv as (_ & _ & Hf & _). apply Hf.
    by eapply list_elem_of_lookup_2.
Qed.

Lemma run_loop_call_order w :
  order_invariant w → order_invariant (exec run_loop_call w).
Proof.
  intros Hinv. unfold exec, run_loop_call. rewrite bind_eq. unfold gets at 1.
  destruct (loop_calls w) as [|g rest]; [done|].
  rewrite bind_eq. unfold modify at 1. by apply play_next_order.
Qed.

Lemma queue_view_order g w :
  order_invariant w → order_invariant (exec (MusicCog.queue g) w).
Proof.
  intros Hinv. apply (get_guild_state_order g) in Hinv.
  unfold MusicCog.queue. unfold exec at 1. rewrite bind_eq.
  destruct (get_guild_state_lookup g w) as (l & -> & _).
  revert Hinv. generalize (exec (MusicCog.get_guild_state g) w). intros w1 ?.
  unfold state_at. munfold. cbn.
  eapply order_neutral; [|done].
  crunch; split_and!; try done; trace_neutral.
Qed.

Lemma step_order w e : order_invariant w → order_invariant (step w e).
Proof.
  intros Hinv. destruct e; cbn.
  - by apply start_play_order.
  - by apply resume_play_order.
  - eapply order_neutral; [apply track_finished_neutral|done].
  - by apply run_loop_call_order.
  - by apply run_timer_order.
  - eapply order_neutral; [apply skip_neutral|done].
  - by apply stop_order.
  - by apply queue_view_order.
  - eapply order_neutral; [apply pause_resume_neutral|done].
  - eapply order_neutral; [apply skip_button_neutral|done].
  - by apply stop_button_order.
Qed.

Lemma order_invariant_empty : order_invariant empty_world.
Proof.
  split_and!.
  - apply registry_allocated_empty.
  - intros g g' l. cbn. by rewrite lookup_empty.
  - intros f. cbn. by rewrite elem_of_nil.
  - intros g. unfold order_at. cbn. constructor.
Qed.

Lemma run_order es w : order_invariant w → order_invariant (run w es).
Proof.
  revert w. induction es as [|e es IH]; intros w Hinv; [done|].
  cbn. apply IH. by apply step_order.
Qed.

Lemma registry_allocated_run es : registry_allocated (run empty_world es).
Proof. by destruct (run_order es empty_world order_invariant_empty). Qed.

(** C2 at work.  Track "A" has ended and the session is idle, connected,
    with a live timer: a full stop and an enqueue keep the invariant.
    Track "A" has ended and [play_next] has not run yet: its run
    establishes the invariant. *)
Lemma timer_invariant_after_transitions_witness :
  let idle := run empty_world
                [EvPlay 1 (Some 5%Z); EvResolved 0 (inr (track "A"));
                 EvFinished 0 None; EvLoopCall] in
  let ended := run empty_world
                 [EvPlay 1 (Some 5%Z); EvResolved 0 (inr (track "A"));
                  EvFinished 0 None] in
  timer_live idle 1 = true
  ∧ timer_invariant (exec (MusicCog.full_stop 1 0) idle) 1
  ∧ timer_invariant
      (exec (MusicCog.play_resolved
               {| frame_guild := 1; frame_state := 0; frame_vc := 0 |}
               (inr (track "B"))) idle) 1
  ∧ timer_invariant (exec (MusicCog.play_next 1) ended) 1.
Proof.
  cbn zeta. split_and!.
  - by vm_compute.
  - refine (proj1 (proj2 (timer_invariant_after_transitions
             (run empty_world
                [EvPlay 1 (Some 5%Z); EvResolved 0 (inr (track "A"));
                 EvFinished 0 None; EvLoopCall]) 1
             (registry_allocated_run _))) 0 _).
    left. by vm_compute.
  - refine (proj1 (proj2 (proj2 (timer_invariant_after_transitions
             (run empty_world
                [EvPlay 1 (Some 5%Z); EvResolved 0 (inr (track "A"));
                 EvFinished 0 None; EvLoopCall]) 1
             (registry_allocated_run _))))
             {| frame_guild := 1; frame_state := 0; frame_vc := 0 |}
             (track "B") eq_refl _).
    split; intros _; by vm_compute.
  - refine (proj1 (timer_invariant_after_transitions
             (run empty_world
                [EvPlay 1 (Some 5%Z); EvResolved 0 (inr (track "A"));
                 EvFinished 0 None]) 1
             (registry_allocated_run _)) _).
    left. by vm_compute.
Defined.

(** C1.  Start from the empty world and let any events happen.  For
    every guild, the tracks that became [current_track], followed by the
    tracks still pending, are a subsequence of the tracks put on its queue:
    no track ever overtakes another.  As long as no session is torn down
    (no stop, no timer firing), nothing is lost either: the tracks put on
    the queue are exactly the tracks that became current followed by the
    pending ones, so that the play order is a prefix of the enqueue order
    and a track becomes current only after all the tracks put before
    it. *)
Theorem play_order_is_enqueue_order (es : list Event) (g : GuildId) :
  let w := run empty_world es in
  (currents g (trace w) ++ pending w g) `sublist_of` puts g (trace w)
  ∧ (forallb teardown_free es = true →
     puts g (trace w) = currents g (trace w) ++ pending w g
     ∧ currents g (trace w) `prefix_of` puts g (trace w)).
Proof.
  intros w. split.
  - destruct (run_order es empty_world order_invariant_empty)
      as (_ & _ & _ & Hord).
    apply Hord.
  - intros Hfree.
    destruct (run_fifo es empty_world Hfree fifo_invariant_empty)
      as (_ & _ & _ & Hfifo).
    specialize (Hfifo g). unfold fifo_at in Hfifo. fold w in Hfifo.
    split; [done|]. rewrite Hfifo. by apply prefix_app_r.
Qed.

Lemma play_order_is_enqueue_order_witness :
  let w := run empty_world
             [EvPlay 1 (Some 5%Z); EvResolved 0 (inr (track "A"));
              EvPlay 1 (Some 5%Z); EvPlay 1 (Some 5%Z);
              EvResolved 1 (inr (track "C")); EvResolved 0 (inr (track "B"));
              EvFinished 0 None; EvLoopCall] in
  puts 1 (trace w) = currents 1 (trace w) ++ pending w 1.
Proof.
  exact (proj1 (proj2 (play_order_is_enqueue_order
    [EvPlay 1 (Some 5%Z); EvResolved 0 (inr (track "A"));
     EvPlay 1 (Some 5%Z); EvPlay 1 (Some 5%Z);
     EvResolved 1 (inr (track "C")); EvResolved 0 (inr (track "B"));
     EvFinished 0 None; EvLoopCall] 1) eq_refl)).
Defined.

(** *** A remark on the same race *)

(** The race of C4 with a track waiting: "A" plays and "B" is pending; "A"
    ends, and a [play] of "X" resumes before the submitted [play_next]
    runs.  The resumed [play] starts "B"; the late [play_next] takes "X"
    from the queue and makes it current, but the sink refuses it because
    "B" is playing.  When "B" has ended the session is idle: "X" was never
    rendered. *)
Lemma late_play_next_drops_track :
  let w := run playing_A_then_B
             [EvPlay 1 (Some 5%Z); EvFinished 0 None;
              EvResolved 0 (inr (track "X")); EvLoopCall] in
  let w' := run w [EvFinished 0 None; EvLoopCall] in
  current w 1 = Some (track "X")
  ∧ rendering w 1 = Playing (track "B") 1 false
  ∧ pending w 1 = []
  ∧ current w' 1 = None ∧ pending w' 1 = [] ∧ rendering w' 1 = NoPlayer
  ∧ omap (λ o, match o with OSinkPlay _ s => Some s | _ => None end)
         (trace w') = [track "A"; track "B"].
Proof. by vm_compute. Qed.

(** *** The resolver adapter: what a source holds *)

(** X1.  A source that [create_source] returns can be played and shown: its
    stream address and its page address are non-empty, its requester is
    the user of the request, and its title and duration are those of the
    data it was built from. *)
Theorem create_source_playable
    (extract_flat extract_full : string → Extract) (search : string)
    (r : User) (s : YTDLSource) :
  create_source extract_flat extract_full search r = inr s →
  truthy (stream_url s) = true ∧ truthy (url s) = true
  ∧ requester s = Some r
  ∧ title s = info_title (data s) ∧ duration s = info_duration (data s).
Proof.
  unfold create_source, resolve_candidate.
  assert (Hinit : ∀ d, negb (truthy (info_url (set_requester d r))) = false →
            truthy (stream_url (YTDLSource_init (set_requester d r))) = true
            ∧ truthy (url (YTDLSource_init (set_requester d r))) = true
            ∧ requester (YTDLSource_init (set_requester d r)) = Some r).
  { intros d Hd. apply negb_false_iff in Hd.
    unfold YTDLSource_init, set_requester in *. cbn in *.
    split_and!; [done| |done]. unfold py_or.
    by destruct (truthy (info_webpage_url d)) eqn:E. }
  intros H.
  repeat (case_match; simplify_eq/=);
    match goal with
    | H : negb _ = false |- _ => destruct (Hinit _ H) as (?&?&?); done
    end.
Qed.

Lemma create_source_playable_witness :
  truthy (stream_url (YTDLSource_init (set_requester (entry "u") 7))) = true.
Proof.
  exact (proj1 (create_source_playable
    (λ _, ExtInfo (entry "u")) (λ _, ExtInfo (entry "u")) "q" 7
    (YTDLSource_init (set_requester (entry "u") 7)) eq_refl)).
Defined.

(** X2.  The second extraction is asked about one address only: the [url]
    of the candidate chosen by the first extraction, or its [webpage_url]
    when [url] is missing or empty.  Two extractors that agree on that
    address give the same outcome, source or error, whatever they do
    elsewhere; when the first extraction fails or finds no candidate, the
    second one does not matter at all. *)
Theorem create_source_second_query
    (extract_flat extract_full extract_full' : string → Extract)
    (search : string) (r : User) :
  (∀ d c u, extract_flat search = ExtInfo d → first_candidate d = Some c →
            second_query c = Some u → u ≠ "" →
            extract_full u = extract_full' u) →
  create_source extract_flat extract_full search r
  = create_source extract_flat extract_full' search r.
Proof.
  intros Hagree. unfold create_source.
  destruct (extract_flat search) as [| |d] eqn:Hflat; try done.
  assert (Hcand : ∀ c, first_candidate d = Some c →
            resolve_candidate extract_full search r c
            = resolve_candidate extract_full' search r c).
  { intros c Hc. unfold resolve_candidate.
    destruct (truthy (py_or (info_url c) (info_webpage_url c))) eqn:Ht;
      cbn; [|done].
    destruct (py_or (info_url c) (info_webpage_url c)) as [u|] eqn:Hu;
      [|done]. cbn.
    rewrite (Hagree d c u); try done.
    intros ->. by cbn in Ht. }
  unfold first_candidate in Hcand.
  destruct (entries d) as [[|e es]|]; [done|by apply Hcand..].
Qed.

Lemma create_source_second_query_witness :
  create_source (λ _, ExtInfo (entry "u")) (λ _, ExtInfo (entry "u")) "q" 7
  = create_source (λ _, ExtInfo (entry "u"))
      (λ q, if String.eqb q "u" then ExtInfo (entry "u") else ExtNone) "q" 7.
Proof.
  apply create_source_second_query.
  intros d c u Hd Hc Hu _. injection Hd as <-.
  injection Hc as <-. injection Hu as <-. reflexivity.
Defined.

(** *** The clock of a track *)

Lemma two_digit_table : forallb two_digit_check (seqZ 0 100) = true.
Proof. by vm_compute. Qed.

Lemma format_02d_two_digits n :
  (0 ≤ n < 100)%Z →
  ∃ a b, format_02d n = String a (String b "") ∧ two_digits a b = Some n.
Proof.
  intros Hn. pose proof two_digit_table as Htab.
  rewrite forallb_forall in Htab.
  specialize (Htab n). unfold two_digit_check in Htab.
  destruct (format_02d n) as [|a [|b [|]]];
    try (by discriminate Htab; apply list_elem_of_In, elem_of_seqZ; lia).
  exists a, b. split; [done|].
  eapply bool_decide_eq_true_1, Htab, list_elem_of_In, elem_of_seqZ. lia.
Qed.

Lemma clock_minutes m sec :
  (0 ≤ m < 100)%Z → (0 ≤ sec < 100)%Z →
  clock_seconds (format_02d m +:+ ":" +:+ format_02d sec)
  = Some (60 * m + sec)%Z
  ∧ String.length (format_02d m +:+ ":" +:+ format_02d sec) = 5.
Proof.
  intros Hm Hs.
  destruct (format_02d_two_digits m Hm) as (m1 & m2 & -> & Hm12).
  destruct (format_02d_two_digits sec Hs) as (s1 & s2 & -> & Hs12).
  string_app. cbn -[two_digits]. by rewrite Hm12, Hs12.
Qed.

Lemma clock_hours h m sec :
  (0 ≤ h < 100)%Z → (0 ≤ m < 100)%Z → (0 ≤ sec < 100)%Z →
  clock_seconds (format_02d h +:+ ":" +:+ format_02d m +:+ ":"
                   +:+ format_02d sec)
  = Some (3600 * h + 60 * m + sec)%Z
  ∧ String.length (format_02d h +:+ ":" +:+ format_02d m +:+ ":"
                     +:+ format_02d sec) = 8.
Proof.
  intros Hh Hm Hs.
  destruct (format_02d_two_digits h Hh) as (h1 & h2 & -> & Hh12).
  destruct (format_02d_two_digits m Hm) as (m1 & m2 & -> & Hm12).
  destruct (format_02d_two_digits sec Hs) as (s1 & s2 & -> & Hs12).
  string_app. cbn -[two_digits]. by rewrite Hh12, Hm12, Hs12.
Qed.

(** X3.  For a duration of less than a hundred hours,
    [duration_formatted] is a clock that reads back as the duration:
    "MM:SS", five characters, below one hour, and "HH:MM:SS", eight
    characters, from one hour on, every field with two digits. *)
Theorem duration_formatted_reads_back (s : YTDLSource) (d : Z) :
  duration s = Some d → (0 ≤ d < 360000)%Z →
  clock_seconds (duration_formatted s) = Some d
  ∧ String.length (duration_formatted s) = if (d <? 3600)%Z then 5 else 8.
Proof.
  intros Hd Hrange. unfold duration_formatted. rewrite Hd. cbn zeta.
  set (h := ((d `div` 60) `div` 60)%Z).
  set (m := ((d `div` 60) `mod` 60)%Z).
  set (sec := (d `mod` 60)%Z).
  assert (0 ≤ h < 100 ∧ 0 ≤ m < 60 ∧ 0 ≤ sec < 60
          ∧ d = 3600 * h + 60 * m + sec)%Z as (Hh & Hm & Hs & Hsum).
  { subst h m sec. Z.div_mod_to_equations. lia. }
  destruct (0 <? h)%Z eqn:Hpos.
  - apply Z.ltb_lt in Hpos. rewrite (proj2 (Z.ltb_ge d 3600)) by lia.
    destruct (clock_hours h m sec) as [-> ->]; [lia..|].
    split; [f_equal; lia|done].
  - apply Z.ltb_ge in Hpos. rewrite (proj2 (Z.ltb_lt d 3600)) by lia.
    destruct (clock_minutes m sec) as [-> ->]; [lia..|].
    split; [f_equal; lia|done].
Qed.

Lemma duration_formatted_reads_back_witness :
  clock_seconds (duration_formatted (with_duration (Some 3725%Z)))
  = Some 3725%Z.
Proof.
  apply (duration_formatted_reads_back (with_duration (Some 3725%Z)) 3725);
    [reflexivity|lia].
Defined.

(** X4.  The hours are shown only when they are positive, so that a
    duration below one hour, a negative one included, is shown as the
    five-character clock of its remainder modulo one hour: no sign, no
    error, and the same text as that remainder gets. *)
Theorem duration_formatted_wraps (s : YTDLSource) (d : Z) :
  duration s = Some d → (d < 3600)%Z →
  clock_seconds (duration_formatted s) = Some (d `mod` 3600)%Z
  ∧ String.length (duration_formatted s) = 5
  ∧ ∀ s', duration s' = Some (d `mod` 3600)%Z →
          duration_formatted s' = duration_formatted s.
Proof.
  intros Hd Hlt.
  assert (Hshape : ∀ s0 d0, duration s0 = Some d0 → (d0 < 3600)%Z →
            duration_formatted s0
            = format_02d ((d0 `div` 60) `mod` 60) +:+ ":"
              +:+ format_02d (d0 `mod` 60)).
  { intros s0 d0 H0 Hlt0. unfold duration_formatted. rewrite H0. cbn zeta.
    rewrite (proj2 (Z.ltb_ge 0 ((d0 `div` 60) `div` 60))); [done|].
    Z.div_mod_to_equations. lia. }
  rewrite (Hshape s d Hd Hlt).
  destruct (clock_minutes ((d `div` 60) `mod` 60) (d `mod` 60))
    as [-> ->]; [Z.div_mod_to_equations; lia..|].
  split_and!; [f_equal; Z.div_mod_to_equations; lia|done|].
  intros s' Hs'. rewrite (Hshape s' _ Hs') by (Z.div_mod_to_equations; lia).
  assert (Hmin : (((d `mod` 3600) `div` 60) `mod` 60
                  = (d `div` 60) `mod` 60)%Z)
    by (Z.div_mod_to_equations; lia).
  assert (Hsec : ((d `mod` 3600) `mod` 60 = d `mod` 60)%Z)
    by (Z.div_mod_to_equations; lia).
  by rewrite Hmin, Hsec.
Qed.

Lemma duration_formatted_wraps_witness :
  duration_formatted (with_duration (Some (-1)%Z)) = "59:59".
Proof.
  destruct (duration_formatted_wraps (with_duration (Some (-1)%Z)) (-1)
              eq_refl eq_refl) as (_ & _ & H).
  rewrite <- (H (with_duration (Some 3599%Z)) eq_refl). reflexivity.
Defined.

(** *** Joining the voice channel of the user *)

Lemma ensure_voice_result (w : World) (g : GuildId) (ch : ChannelId) :
  voice_allocated w → running w = None →
  ∃ v c w', MusicCog.ensure_voice g (Some ch) w = (Ok (Some v), w')
    ∧ voice_clients w' !! g = Some v ∧ vcs w' !! v = Some c
    ∧ channel c = ch
    ∧ trace w' = trace w
    ∧ (connected c = true
       ∨ voice_clients w !! g = Some v ∧ is_connected w g = false
         ∧ ∃ c0, vcs w !! v = Some c0 ∧ channel c0 ≠ ch).
Proof.
  intros Hva Hr. unfold MusicCog.ensure_voice. sink_unfold. cbn.
  destruct (voice_clients w !! g) as [v|] eqn:Hv; cbn.
  - destruct (lookup_lt_is_Some_2 _ _ (Hva _ _ Hv)) as [c Hc].
    rewrite Hc. cbn.
    case_bool_decide as Hch; cbn.
    + destruct (connected c) eqn:Hconn; cbn.
      * exists v, c, w. rewrite Hv. by eauto 10.
      * rewrite Hc. cbn. destruct (player c) as [|s g' p] eqn:Hp; cbn.
        -- rewrite Hr. cbn. rewrite lookup_delete_eq. cbn.
           eexists _, _, _. split; [reflexivity|]. cbn.
           rewrite lookup_insert_eq, length_alter.
           rewrite lookup_app_r by (by rewrite length_alter).
           rewrite length_alter, Nat.sub_diag. cbn. by eauto 10.
        -- rewrite Hr. cbn. rewrite lookup_delete_eq. cbn.
           eexists _, _, _. split; [reflexivity|]. cbn.
           rewrite lookup_insert_eq, !length_alter.
           rewrite lookup_app_r by (by rewrite !length_alter).
           rewrite !length_alter, Nat.sub_diag. cbn. by eauto 10.
    + eexists _, _, _. split; [reflexivity|]. cbn.
      rewrite Hv, list_lookup_alter_eq, Hc. cbn.
      split_and!; try done.
      destruct (connected c) eqn:Hconn; [by left|right].
      split_and!; try done.
      * unfold is_connected. rewrite Hv. cbn. by rewrite Hc.
      * by exists c.
  - rewrite Hv. cbn. eexists _, _, _. split; [reflexivity|]. cbn.
    rewrite lookup_insert_eq, lookup_app_r by done.
    rewrite Nat.sub_diag. cbn. by eauto 10.
Qed.

Lemma voice_allocated_empty : voice_allocated empty_world.
Proof. intros g v H. cbn in H. by rewrite lookup_empty in H. Qed.

(** X5.  For a user who is in a voice channel, [ensure_voice] called by a
    command returns a voice client, and it is the voice client of the
    guild, placed in the channel of the user; nothing is sent to the user,
    and the sessions and the timers are untouched.  That client is
    connected, except in one case: a client of the guild
    that was disconnected and in another channel is moved, not
    reconnected. *)
Theorem ensure_voice_joins_user_channel (w : World) (g : GuildId)
    (ch : ChannelId) :
  voice_allocated w → running w = None →
  ∃ v c w', MusicCog.ensure_voice g (Some ch) w = (Ok (Some v), w')
    ∧ voice_clients w' !! g = Some v ∧ vcs w' !! v = Some c
    ∧ channel c = ch
    ∧ trace w' = trace w ∧ same_sessions w w'
    ∧ (connected c = true
       ∨ voice_clients w !! g = Some v ∧ is_connected w g = false
         ∧ ∃ c0, vcs w !! v = Some c0 ∧ channel c0 ≠ ch).
Proof.
  intros Hva Hr.
  destruct (ensure_voice_result w g ch Hva Hr)
    as (v & c & w' & Hev & Hv & Hc & Hch & Htr & Hconn).
  exists v, c, w'. split_and!; try done.
  pose proof (ensure_voice_frame g (Some ch) w) as Hframe.
  unfold exec in Hframe. by rewrite Hev in Hframe.
Qed.

Lemma ensure_voice_joins_user_channel_witness :
  ∃ v c w', MusicCog.ensure_voice 1 (Some 5%Z) empty_world = (Ok (Some v), w')
    ∧ voice_clients w' !! 1%Z = Some v ∧ vcs w' !! v = Some c
    ∧ channel c = 5%Z.
Proof.
  destruct (ensure_voice_joins_user_channel empty_world 1 5) as
    (v & c & w' & H1 & H2 & H3 & H4 & _).
  - apply voice_allocated_empty.
  - reflexivity.
  - by exists v, c, w'.
Defined.

(** X6.  When the guild has a connected voice client, [ensure_voice] keeps
    it: the same client is returned, at most moved to the channel of the
    user.  What it renders goes on, no completion callback is submitted,
    no second client is created, and the sessions and timers are
    untouched. *)
Theorem ensure_voice_keeps_playback (w : World) (g : GuildId)
    (ch : ChannelId) (v : VcRef) (c : VoiceClient) :
  voice_clients w !! g = Some v → vcs w !! v = Some c →
  connected c = true →
  ∃ w', MusicCog.ensure_voice g (Some ch) w = (Ok (Some v), w')
    ∧ vcs w' = alter (set_channel ch) v (vcs w)
    ∧ rendering w' g = rendering w g
    ∧ is_connected w' g = true
    ∧ voice_clients w' = voice_clients w
    ∧ loop_calls w' = loop_calls w
    ∧ same_sessions w w' ∧ trace w' = trace w.
Proof.
  intros Hv Hc Hconn. unfold MusicCog.ensure_voice.
  sink_unfold. cbn. rewrite Hv. cbn. rewrite Hc. cbn.
  case_bool_decide as Hch; cbn.
  - rewrite Hconn. cbn. exists w. split_and!; try done.
    + symmetry. apply alter_fix. intros x Hx.
      rewrite Hc in Hx. injection Hx as <-. by destruct c; cbn in *; subst.
    + unfold is_connected. rewrite Hv. cbn. by rewrite Hc.
  - eexists. split; [reflexivity|]. cbn.
    unfold rendering, is_connected. cbn. rewrite Hv. cbn.
    rewrite list_lookup_alter_eq, Hc. cbn. by split_and!.
Qed.

Lemma ensure_voice_keeps_playback_witness :
  ∃ w', MusicCog.ensure_voice 1 (Some 9%Z) playing_A = (Ok (Some 0), w')
    ∧ rendering w' 1 = rendering playing_A 1.
Proof.
  destruct (ensure_voice_keeps_playback playing_A 1 9 0
              {| channel := 5; connected := true;
                 player := Playing (track "A") 1 false |}
              eq_refl eq_refl eq_refl) as (w' & H1 & _ & H2 & _).
  by exists w'.
Defined.

(** *** Skip and pause *)

(** X7.  Skipping needs a track that is being played.  When the guild
    renders nothing, or when the track is paused, the skip command and the
    Skip button only answer that there is nothing to skip: nothing is
    stopped and no [play_next] is submitted. *)
Theorem skip_requires_playing (w : World) (g : GuildId) :
  (rendering w g = NoPlayer ∨ ∃ s g', rendering w g = Playing s g' true) →
  MusicCog.skip g w
  = (Ok tt, set_trace (λ tr, tr ++ [OReply g NothingPlayingToSkip]) w)
  ∧ MusicControlView.skip g w
    = (Ok tt, set_trace (λ tr, tr ++ [OReply g NothingToSkip]) w).
Proof.
  intros H. unfold MusicCog.skip, MusicControlView.skip, rendering in *.
  sink_unfold. cbn.
  destruct (voice_clients w !! g) as [v|]; cbn in *; [|done].
  destruct (vcs w !! v) as [c|]; cbn in *; [|done].
  by destruct H as [->|(s & g' & ->)].
Qed.

Lemma skip_requires_playing_witness :
  let w := step playing_A (EvPauseResumeButton 1) in
  rendering w 1 = Playing (track "A") 1 true
  ∧ MusicCog.skip 1 w
    = (Ok tt, set_trace (λ tr, tr ++ [OReply 1 NothingPlayingToSkip]) w).
Proof.
  split; [reflexivity|].
  apply (skip_requires_playing (step playing_A (EvPauseResumeButton 1)) 1).
  right. by exists (track "A"), 1%Z.
Defined.

Lemma skip_playing g v c a g' w :
  voice_clients w !! g = Some v → vcs w !! v = Some c →
  player c = Playing a g' false →
  MusicCog.skip g w
  = (Ok tt,
     {| guild_states := guild_states w; states := states w;
        voice_clients := voice_clients w;
        vcs := alter (set_player NoPlayer) v (vcs w);
        tasks := tasks w; running := running w;
        loop_calls := loop_calls w ++ [g'];
        suspended := suspended w;
        trace := trace w ++ [OReply g Skipped] |})
  ∧ MusicControlView.skip g w
  = (Ok tt,
     {| guild_states := guild_states w; states := states w;
        voice_clients := voice_clients w;
        vcs := alter (set_player NoPlayer) v (vcs w);
        tasks := tasks w; running := running w;
        loop_calls := loop_calls w ++ [g'];
        suspended := suspended w;
        trace := trace w ++ [OReply g Skipped] |}).
Proof.
  intros Hv Hc Hp. unfold MusicCog.skip, MusicControlView.skip.
  sink_unfold. cbn.
  rewrite Hv. cbn. rewrite Hc. cbn. rewrite Hp. cbn. rewrite Hc. cbn.
  by rewrite Hp.
Qed.

(** X8.  Skipping a track that is being played stops the sink and submits
    one [play_next]; the session itself is not touched, so that the
    skipped track is still the current one until the loop runs that call.
    Once it has run, the next queued track is current and rendered, or,
    with nothing queued, the session is idle with a live timer.  The Skip
    button does the same as the command. *)
Theorem skip_advances (w : World) (g : GuildId) (l : Loc) (v : VcRef)
    (st : GuildState) (c : VoiceClient) (a : YTDLSource) :
  guild_states w !! g = Some l → states w !! l = Some st →
  voice_clients w !! g = Some v → vcs w !! v = Some c →
  player c = Playing a g false → connected c = true → loop_calls w = [] →
  let w1 := step w (EvSkip g) in
  let w2 := step w1 EvLoopCall in
  step w (EvSkipButton g) = w1
  ∧ current w1 g = current w g ∧ pending w1 g = pending w g
  ∧ rendering w1 g = NoPlayer ∧ loop_calls w1 = [g]
  ∧ trace w1 = trace w ++ [OReply g Skipped]
  ∧ loop_calls w2 = []
  ∧ match queue st with
    | next :: rest =>
        current w2 g = Some next ∧ pending w2 g = rest
        ∧ rendering w2 g = Playing next g false
    | [] =>
        current w2 g = None ∧ pending w2 g = []
        ∧ rendering w2 g = NoPlayer ∧ timer_live w2 g = true
    end.
Proof.
  intros Hg Hl Hv Hc Hp Hconn Hloop. cbn -[run_loop_call].
  destruct (skip_playing g v c a g w Hv Hc Hp) as [Hs Hb].
  unfold exec. rewrite Hs, Hb. cbn -[run_loop_call]. rewrite Hloop.
  cbn -[run_loop_call].
  split_and!; try done.
  - unfold rendering. cbn. rewrite Hv. cbn.
    by rewrite list_lookup_alter_eq, Hc.
  - rewrite (run_loop_call_head g []) by done. unfold set_loop_calls. cbn.
    destruct (queue st) as [|next rest] eqn:Hq.
    + by rewrite (play_next_idle g l st v (set_player NoPlayer c)); try done;
        try (by cbn; rewrite list_lookup_alter_eq, Hc).
    + by rewrite (play_next_advance g l st v (set_player NoPlayer c) _ next rest);
        try done; try (by cbn; rewrite list_lookup_alter_eq, Hc).
  - rewrite (run_loop_call_head g []) by done. unfold set_loop_calls. cbn.
    destruct (queue st) as [|next rest] eqn:Hq.
    + rewrite (play_next_idle g l st v (set_player NoPlayer c)); try done;
        try (by cbn; rewrite list_lookup_alter_eq, Hc).
      unfold current, pending, rendering, timer_live, session.
      cbn. rewrite Hg, Hv. cbn.
      rewrite !list_lookup_alter_eq, Hl, Hc. cbn.
      split_and!; try done.
      rewrite lookup_app_r
        by (unfold cancel_pending; crunch; by rewrite length_alter).
      replace (length (tasks w)
               - length (cancel_pending (disconnect_timer st) (tasks w)))
        with 0
        by (unfold cancel_pending; crunch; rewrite ?length_alter; lia).
      done.
    + rewrite (play_next_advance g l st v (set_player NoPlayer c) _ next rest);
        try done; try (by cbn; rewrite list_lookup_alter_eq, Hc).
      unfold current, pending, rendering, session.
      cbn. rewrite Hg, Hv. cbn.
      by rewrite !list_lookup_alter_eq, Hl, Hc.
Qed.

Lemma skip_advances_witness :
  let w := run playing_A_then_B [EvSkip 1; EvLoopCall] in
  current w 1 = Some (track "B") ∧ pending w 1 = []
  ∧ rendering w 1 = Playing (track "B") 1 false.
Proof.
  exact (proj2 (proj2 (proj2 (proj2 (proj2 (proj2 (proj2
    (skip_advances playing_A_then_B 1 0 0
       {| queue := [track "B"]; current_track := Some (track "A");
          now_playing_message := None; disconnect_timer := None;
          voice_client := Some 0 |}
       {| channel := 5; connected := true;
          player := Playing (track "A") 1 false |}
       (track "A")
       eq_refl eq_refl eq_refl eq_refl eq_refl eq_refl eq_refl)))))))).
Defined.

Lemma pause_resume_spec g v c s g' p w :
  voice_clients w !! g = Some v → vcs w !! v = Some c →
  player c = Playing s g' p →
  MusicControlView.pause_resume g w
  = (Ok tt,
     {| guild_states := guild_states w; states := states w;
        voice_clients := voice_clients w;
        vcs := alter (set_player (Playing s g' (negb p))) v (vcs w);
        tasks := tasks w; running := running w;
        loop_calls := loop_calls w;
        suspended := suspended w;
        trace := trace w ++ [OReply g (if p then Resumed else Paused)] |}).
Proof.
  intros Hv Hc Hp. unfold MusicControlView.pause_resume.
  sink_unfold. cbn. rewrite Hv. cbn. rewrite Hc. cbn. rewrite Hp.
  assert (Halter : ∀ b,
    alter (λ c0, match player c0 with
                 | NoPlayer => c0
                 | Playing s0 g0 _ => set_player (Playing s0 g0 b) c0
                 end) v (vcs w)
    = alter (set_player (Playing s g' b)) v (vcs w)).
  { intros b. apply list_alter_ext; [|done..]. intros x Hx.
    rewrite Hc in Hx. injection Hx as <-. by rewrite Hp. }
  destruct p; cbn; rewrite ?Hc; cbn; rewrite ?Hp; cbn;
    unfold set_trace, set_vcs; cbn; by rewrite Halter.
Qed.

(** X9.  The Pause/Resume button toggles.  Pressed while a track is played,
    it pauses that track and touches neither the sessions, nor the timers,
    nor the submitted calls; pressed again, it resumes the track, and the
    state is the one before the first press, two answers apart. *)
Theorem pause_resume_round_trip (w : World) (g : GuildId) (v : VcRef)
    (c : VoiceClient) (s : YTDLSource) (g' : GuildId) :
  voice_clients w !! g = Some v → vcs w !! v = Some c →
  player c = Playing s g' false →
  let w1 := step w (EvPauseResumeButton g) in
  let w2 := step w1 (EvPauseResumeButton g) in
  rendering w1 g = Playing s g' true
  ∧ same_sessions w w1 ∧ loop_calls w1 = loop_calls w
  ∧ same_state w w2
  ∧ trace w2 = trace w ++ [OReply g Paused; OReply g Resumed].
Proof.
  intros Hv Hc Hp. cbn. unfold exec.
  rewrite (pause_resume_spec g v c s g' false w) by done. cbn.
  rewrite (pause_resume_spec g v (set_player (Playing s g' true) c) s g' true)
    by (cbn; by rewrite ?list_lookup_alter_eq, ?Hc).
  cbn. split_and!; try done.
  - unfold rendering. cbn. rewrite Hv. cbn.
    by rewrite list_lookup_alter_eq, Hc.
  - unfold same_state. cbn. split_and!; try done.
    rewrite list_alter_alter_eq. apply alter_fix. intros x Hx.
    rewrite Hc in Hx. injection Hx as <-. unfold compose.
    destruct c; cbn in *; by subst.
  - by rewrite <- (assoc_L (++)).
Qed.

Lemma pause_resume_round_trip_witness :
  same_state playing_A
    (run playing_A [EvPauseResumeButton 1; EvPauseResumeButton 1]).
Proof.
  exact (proj1 (proj2 (proj2 (proj2
    (pause_resume_round_trip playing_A 1 0
       {| channel := 5; connected := true;
          player := Playing (track "A") 1 false |}
       (track "A") 1 eq_refl eq_refl eq_refl))))).
Defined.

(** *** The queue view *)

(** X10.  For a guild that has a session, the queue command changes
    nothing and sends one answer.  The answer is "the queue is empty"
    exactly when there is neither a current track nor a pending one.
    Otherwise it shows the current track and the first ten pending tracks
    in queue order, and the number it gives for the rest is the number of
    pending tracks that are not shown. *)
Theorem queue_view_read_only (w : World) (g : GuildId) (l : Loc)
    (st : GuildState) :
  guild_states w !! g = Some l → states w !! l = Some st →
  ∃ r, MusicCog.queue g w
       = (Ok tt, set_trace (λ tr, tr ++ [OReply g r]) w)
    ∧ match r with
      | QueueEmpty => queue st = [] ∧ current_track st = None
      | QueueEmbed now upcoming more =>
          now = current_track st
          ∧ upcoming = take 10 (queue st)
          ∧ length upcoming = length (queue st) `min` 10
          ∧ length upcoming + more = length (queue st)
          ∧ (queue st = [] → is_Some (current_track st))
      | _ => False
      end.
Proof.
  intros Hg Hl. unfold MusicCog.queue.
  rewrite bind_eq, (get_guild_state_hit _ _ _ Hg).
  unfold state_at. munfold. cbn. rewrite Hl. cbn.
  destruct (queue st) as [|x q] eqn:Hq.
  - destruct (current_track st) as [now|] eqn:Hnow.
    + eexists. split; [reflexivity|]. cbn. by split_and!.
    + eexists. split; [reflexivity|]. done.
  - eexists. split; [reflexivity|].
    split_and!; try done; rewrite length_take; lia.
Qed.

Lemma queue_view_read_only_witness :
  ∃ r, MusicCog.queue 1 playing_A_then_B
       = (Ok tt, set_trace (λ tr, tr ++ [OReply 1 r]) playing_A_then_B).
Proof.
  destruct (queue_view_read_only playing_A_then_B 1 0
    {| queue := [track "B"]; current_track := Some (track "A");
       now_playing_message := None; disconnect_timer := None;
       voice_client := Some 0 |} eq_refl eq_refl) as (r & H & _).
  by exists r.
Defined.

(** *** Play: the first request, and the requests that go nowhere *)

(** X11.  A play command reaches the resolver exactly when its user is in
    a voice channel.  Without one it only answers that a voice channel is
    needed: no session is created (unlike the queue and stop commands),
    no client is connected, nothing is left waiting.  With one, it leaves
    one request waiting for its resolution, bound to the session that the
    registry holds for the guild and to the voice client of the guild,
    which is in the channel of the user; nothing has been sent yet. *)
Theorem play_needs_voice_channel (w : World) (g : GuildId)
    (user_channel : option ChannelId) :
  voice_allocated w → running w = None →
  let w' := step w (EvPlay g user_channel) in
  match user_channel with
  | None => w' = set_trace (λ tr, tr ++ [OReply g NeedVoiceChannel]) w
  | Some ch =>
      ∃ f, suspended w' = suspended w ++ [f] ∧ frame_guild f = g
           ∧ guild_states w' !! g = Some (frame_state f)
           ∧ voice_clients w' !! g = Some (frame_vc f)
           ∧ channel (default no_client (vcs w' !! frame_vc f)) = ch
           ∧ trace w' = trace w
  end.
Proof.
  intros Hva Hr. destruct user_channel as [ch|]; [|done].
  cbn [step]. unfold exec, start_play, MusicCog.play_request.
  rewrite !bind_eq.
  destruct (ensure_voice_result w g ch Hva Hr)
    as (v & c & w1 & Hev & Hv & Hc & Hch & Htr & _).
  rewrite Hev, bind_eq.
  destruct (get_guild_state_lookup g w1) as (l & -> & Hreg).
  assert (Hsame : voice_clients (exec (MusicCog.get_guild_state g) w1)
                  = voice_clients w1
                  ∧ vcs (exec (MusicCog.get_guild_state g) w1) = vcs w1
                  ∧ suspended (exec (MusicCog.get_guild_state g) w1)
                    = suspended w1
                  ∧ trace (exec (MusicCog.get_guild_state g) w1) = trace w1).
  { unfold exec, MusicCog.get_guild_state. munfold. crunch. }
  destruct Hsame as (Hv2 & Hc2 & Hs2 & Htr2).
  assert (Hsus : suspended w1 = suspended w).
  { pose proof (ensure_voice_neutral g (Some ch) w) as (_ & _ & H & _).
    unfold exec in H. by rewrite Hev in H. }
  revert Hreg Hv2 Hc2 Hs2 Htr2.
  generalize (exec (MusicCog.get_guild_state g) w1).
  intros w2 Hreg Hv2 Hc2 Hs2 Htr2.
  unfold update_state. munfold. cbn.
  exists {| frame_guild := g; frame_state := l; frame_vc := v |}. cbn.
  split_and!; try done.
  - by rewrite Hs2, Hsus.
  - by rewrite Hv2.
  - by rewrite Hc2, Hc.
  - by rewrite Htr2.
Qed.

Lemma play_needs_voice_channel_witness :
  ∃ f, suspended (step empty_world (EvPlay 1 (Some 5%Z))) = [] ++ [f]
       ∧ frame_guild f = 1%Z.
Proof.
  destruct (play_needs_voice_channel empty_world 1 (Some 5%Z)
              voice_allocated_empty eq_refl) as (f & H1 & H2 & _).
  by exists f.
Defined.



(** X13.  A play command that was waiting for its resolution while the
    session was stopped loses its track.  When it resumes, the guild has
    no registry entry and no voice client: the track is put on the queue
    of the state object the command still holds, which the registry no
    longer knows; [play_next] creates a fresh session and returns, since
    there is no voice client; and the user is told "now playing".  The
    track is neither current, nor pending, nor rendered. *)
Theorem resumed_play_after_stop_is_lost (w : World) (k : nat) (f : PlayFrame)
    (x : YTDLSource) :
  suspended w !! k = Some f →
  guild_states w !! frame_guild f = None →
  voice_clients w !! frame_guild f = None →
  sink_idle w (frame_vc f) = true →
  let g := frame_guild f in
  let w' := step w (EvResolved k (inr x)) in
  trace w' = trace w ++ [OPut g x; OReply g (NowPlayingReply x)]
  ∧ current w' g = None ∧ pending w' g = [] ∧ rendering w' g = NoPlayer
  ∧ session w' g = Some GuildState_init
  ∧ vcs w' = vcs w ∧ tasks w' = tasks w
  ∧ ∀ st, states w !! frame_state f = Some st →
          states w' !! frame_state f
          = Some (set_queue (queue st ++ [x]) st).
Proof.
  intros Hk Hg Hv Hidle. cbn zeta.
  assert (Hw' : step w (EvResolved k (inr x))
    = set_trace (λ tr, tr ++ [OReply (frame_guild f) (NowPlayingReply x)])
        (set_guild_states <[frame_guild f := length (states w)]>
           (set_states (λ s, s ++ [GuildState_init])
              (enqueued f x (set_suspended (delete k) w))))).
  { cbn [step]. unfold exec, resume_play. munfold. rewrite Hk.
    cbn -[MusicCog.play_resolved].
    rewrite play_resolved_idle by done.
    rewrite bind_eq, play_next_no_client by done.
    unfold exec. rewrite get_guild_state_miss by done. cbn.
    by rewrite length_alter. }
  rewrite Hw'. unfold current, pending, rendering, session. cbn.
  rewrite Hv, lookup_insert_eq. cbn.
  rewrite lookup_app_r by (by rewrite length_alter).
  rewrite length_alter, Nat.sub_diag. cbn.
  split_and!; try done.
  - by rewrite <- (assoc_L (++)).
  - intros st Hst. rewrite lookup_app_l
      by (rewrite length_alter; by eapply lookup_lt_Some).
    by rewrite list_lookup_alter_eq, Hst.
Qed.

Lemma resumed_play_after_stop_is_lost_witness :
  let w := run playing_A [EvPlay 1 (Some 5%Z); EvStop 1] in
  let w' := step w (EvResolved 0 (inr (track "B"))) in
  current w' 1 = None ∧ pending w' 1 = [] ∧ rendering w' 1 = NoPlayer.
Proof.
  destruct (resumed_play_after_stop_is_lost
    (run playing_A [EvPlay 1 (Some 5%Z); EvStop 1]) 0
    {| frame_guild := 1; frame_state := 0; frame_vc := 0 |} (track "B")
    eq_refl eq_refl eq_refl eq_refl) as (_ & H1 & H2 & H3 & _).
  by split_and!.
Defined.

(** *** The life of a timer *)

Lemma timer_body_inactive g l v c w :
  guild_states w !! g = Some l →
  voice_clients w !! g = Some v → vcs w !! v = Some c →
  connected c = true →
  (player c = NoPlayer ∨ ∃ s g', player c = Playing s g' true) →
  MusicCog.disconnect_after_timeout g true w
  = match MusicCog.full_stop g l w with
    | (Ok _, w') => (Ok tt, set_trace (λ tr, tr ++ [OLogInfo g]) w')
    | (Raise e, w') => (Raise e, w')
    end.
Proof.
  intros Hg Hv Hc Hconn Hidle. unfold MusicCog.disconnect_after_timeout.
  unfold guild_voice_client, vc_is_connected, vc_is_playing, vc_at.
  munfold. cbn. rewrite Hg, Hv. cbn. rewrite Hc. cbn. rewrite Hconn.
  by destruct Hidle as [->|(?&?&->)].
Qed.

(** X16.  When the timer of a guild fires while the guild has a session
    and a connected voice client that is not playing (idle, or paused),
    the session is torn down: the guild has no voice client any more,
    nothing is rendered, nothing is pending, there is no current track and
    no live timer, and the timer task itself is done. *)
Theorem inactivity_timeout_tears_down (w : World) (t : TaskId) (k : Task)
    (l : Loc) (v : VcRef) (c : VoiceClient) :
  tasks w !! t = Some k → task_status k = Sleeping →
  guild_states w !! task_guild k = Some l →
  voice_clients w !! task_guild k = Some v → vcs w !! v = Some c →
  connected c = true →
  (player c = NoPlayer ∨ ∃ s g', player c = Playing s g' true) →
  let g := task_guild k in
  let w' := step w (EvTimer t true) in
  voice_clients w' !! g = None ∧ is_connected w' g = false
  ∧ rendering w' g = NoPlayer
  ∧ pending w' g = [] ∧ current w' g = None ∧ timer_live w' g = false
  ∧ (∃ k', tasks w' !! t = Some k' ∧ is_done (task_status k') = true)
  ∧ running w' = None.
Proof.
  intros Hk Hs Hg Hv Hc Hconn Hidle. cbn zeta.
  set (w1 := set_running (Some t) (set_tasks (alter (set_status Running) t) w)).
  destruct (full_stop_effect (task_guild k) l w1)
    as (r & w2 & Hfs & Hcl & Hvc & Hreg & Htasks & _ & _ & _).
  assert (Hreg' : guild_states w2 !! task_guild k = None
                  ∨ guild_states w2 = guild_states w).
  { destruct Hreg as [Hreg|Hreg]; [left|by right].
    by rewrite Hreg, lookup_delete_eq. }
  clear Hreg. rename Hreg' into Hreg.
  assert (Hlen : length (tasks w2) = length (tasks w)).
  { rewrite Htasks. subst w1. clear. ops_unfold. cbn.
    repeat case_match; simplify_eq/=; by rewrite ?length_alter. }
  destruct (lookup_lt_is_Some_2 (tasks w2) t) as [k2 Hk2].
  { rewrite Hlen. by eapply lookup_lt_Some. }
  assert (Hstep : ∃ final w3,
    is_done final = true ∧ set_trace (λ _, trace w2) w3 = w2
    ∧ step w (EvTimer t true)
      = set_running None (set_tasks (alter (set_status final) t) w3)).
  { cbn. unfold run_timer. rewrite Hk, Hs. fold w1.
    rewrite (timer_body_inactive (task_guild k) l v c w1) by done.
    rewrite Hfs. destruct r as [[]|e].
    - cbn. exists Finished, (set_trace (λ tr, tr ++ [OLogInfo (task_guild k)]) w2).
      split_and!; try done. by destruct w2.
    - exists (match e with CancelledError => Cancelled | _ => Finished end), w2.
      split_and!; try done; [by destruct e|by destruct w2]. }
  destruct Hstep as (final & w3 & Hdone & Hw3 & ->).
  assert (Hcl3 : cleared w3 l).
  { apply (cleared_ext w2); [by rewrite <- Hw3..|done]. }
  assert (voice_clients w3 = voice_clients w2) as Hvc3 by (by rewrite <- Hw3).
  assert (guild_states w3 = guild_states w2) as Hg3 by (by rewrite <- Hw3).
  assert (tasks w3 = tasks w2) as Ht3 by (by rewrite <- Hw3).
  unfold is_connected, rendering, pending, current, timer_live, session.
  cbn. rewrite Hvc3, Hvc, Hg3, Ht3. cbn.
  rewrite list_lookup_alter_eq, Hk2. cbn.
  split_and!; try done; [| | |by eauto].
  - destruct Hreg as [->| ->]; [done|]. rewrite Hg. cbn.
    destruct (states w3 !! l) as [st|] eqn:Hst; [|done]. cbn.
    by destruct (Hcl3 st Hst) as (->&_).
  - destruct Hreg as [->| ->]; [done|]. rewrite Hg. cbn.
    destruct (states w3 !! l) as [st|] eqn:Hst; [|done]. cbn.
    by destruct (Hcl3 st Hst) as (_&->&_).
  - destruct Hreg as [->| ->]; [done|]. rewrite Hg. cbn.
    destruct (states w3 !! l) as [st|] eqn:Hst; [|done]. cbn.
    destruct (Hcl3 st Hst) as (_&_&_&Ht).
    destruct (disconnect_timer st) as [t'|]; [|done].
    destruct (decide (t' = t)) as [->|].
    + rewrite list_lookup_alter_eq, Hk2. cbn. by rewrite Hdone.
    + rewrite list_lookup_alter_ne by done. rewrite Ht3 in Ht.
      destruct (tasks w2 !! t'); cbn in *; [|done]. by rewrite Ht.
Qed.

Lemma inactivity_timeout_tears_down_witness :
  let w := run playing_A [EvFinished 0 None; EvLoopCall] in
  let w' := step w (EvTimer 0 true) in
  voice_clients w' !! 1%Z = None ∧ is_connected w' 1 = false.
Proof.
  destruct (inactivity_timeout_tears_down
    (run playing_A [EvFinished 0 None; EvLoopCall]) 0
    {| task_guild := 1; task_status := Sleeping |} 0 0
    {| channel := 5; connected := true; player := NoPlayer |}
    eq_refl eq_refl eq_refl eq_refl eq_refl eq_refl (or_introl eq_refl))
    as (H1 & H2 & _).
  by split.
Defined.

Lemma clear_tasks l st w :
  states w !! l = Some st →
  tasks (clear l w).2 = cancel_pending (disconnect_timer st) (tasks w).
Proof.
  intros Hl. ops_unfold. cbn. rewrite !list_lookup_alter_eq, Hl. cbn.
  unfold cancel_pending, timer_done.
  destruct (disconnect_timer st) as [t|]; cbn; [|done].
  by destruct (from_option _ _ _).
Qed.

Lemma cancel_pending_lookup t k ts :
  ts !! t = Some k → task_status k = Sleeping →
  cancel_pending (Some t) ts !! t = Some (set_status Cancelled k).
Proof.
  intros Hk Hs. unfold cancel_pending, timer_done. rewrite Hk. cbn.
  rewrite Hs. cbn. by rewrite list_lookup_alter_eq, Hk; cbn; rewrite Hs.
Qed.

Lemma cancelled_timer_noop t k known w :
  tasks w !! t = Some (set_status Cancelled k) →
  step w (EvTimer t known) = w.
Proof. intros H. cbn. unfold run_timer. by rewrite H. Qed.

(** X17.  The sleeping timer that a state object holds is cancelled by
    [GuildState.clear], by [full_stop] on that object, and by [play_next]
    on a connected guild whose session it is (whether a track starts or a
    new timer is armed); once cancelled, its waking up changes nothing. *)
Theorem armed_timer_is_cancelled (w : World) (l : Loc) (st : GuildState)
    (t : TaskId) (k : Task) :
  states w !! l = Some st → disconnect_timer st = Some t →
  tasks w !! t = Some k → task_status k = Sleeping →
  (let w' := exec (clear l) w in
   tasks w' !! t = Some (set_status Cancelled k)
   ∧ ∀ known, step w' (EvTimer t known) = w')
  ∧ (∀ g, let w' := exec (MusicCog.full_stop g l) w in
          tasks w' !! t = Some (set_status Cancelled k)
          ∧ ∀ known, step w' (EvTimer t known) = w')
  ∧ (∀ g v c, guild_states w !! g = Some l →
       voice_clients w !! g = Some v → vcs w !! v = Some c →
       connected c = true →
       let w' := exec (MusicCog.play_next g) w in
       tasks w' !! t = Some (set_status Cancelled k)
       ∧ ∀ known, step w' (EvTimer t known) = w').
Proof.
  intros Hl Ht Hk Hs.
  assert (Hclear : tasks (exec (clear l) w) !! t
                   = Some (set_status Cancelled k)).
  { unfold exec. rewrite (clear_tasks l st) by done.
    rewrite Ht. by apply cancel_pending_lookup. }
  split_and!.
  - cbn zeta. split; [done|]. intros known.
    by apply (cancelled_timer_noop t k).
  - intros g. cbn zeta.
    assert (tasks (exec (MusicCog.full_stop g l) w) !! t
            = Some (set_status Cancelled k)) as Hfs.
    { unfold exec.
      destruct (full_stop_effect g l w) as (r & w' & -> & _ & _ & _ & Ht' & _).
      cbn. by rewrite Ht'. }
    split; [done|]. intros known. by apply (cancelled_timer_noop t k).
  - intros g v c Hg Hv Hc Hconn. cbn zeta.
    assert (tasks (exec (MusicCog.play_next g) w) !! t
            = Some (set_status Cancelled k)) as Hpn.
    { unfold exec. destruct (queue st) as [|source rest] eqn:Hq.
      - rewrite (play_next_idle g l st v c w) by done. cbn.
        rewrite Ht. rewrite lookup_app_l.
        + by apply cancel_pending_lookup.
        + apply lookup_lt_Some in Hk. unfold cancel_pending.
          case_match; by rewrite ?length_alter.
      - rewrite (play_next_advance g l st v c w source rest) by done. cbn.
        rewrite Ht. by apply cancel_pending_lookup. }
    split; [done|]. intros known. by apply (cancelled_timer_noop t k).
Qed.

Lemma armed_timer_is_cancelled_witness :
  let w := run playing_A [EvFinished 0 None; EvLoopCall] in
  let w' := exec (MusicCog.full_stop 1 0) w in
  step w' (EvTimer 0 true) = w'.
Proof.
  exact (proj2 (proj1 (proj2
    (armed_timer_is_cancelled
       (run playing_A [EvFinished 0 None; EvLoopCall]) 0
       {| queue := []; current_track := None; now_playing_message := None;
          disconnect_timer := Some 0; voice_client := Some 0 |}
       0 {| task_guild := 1%Z; task_status := Sleeping |}
       eq_refl eq_refl eq_refl eq_refl)) 1%Z) true).
Defined.

(** *** Every sleeping timer belongs to a session *)

Lemma ownership_neutral w w' :
  timer_neutral w w' → timer_ownership w → timer_ownership w'.
Proof.
  intros (Hg & Hs & Ht) (Ha & Hi & Ho). split_and!.
  - intros g l. rewrite Hg. intros H%Ha.
    by rewrite <- (length_fmap disconnect_timer), Hs, length_fmap.
  - intros g g' l. rewrite Hg. apply Hi.
  - intros t k. rewrite Ht, Hg. intros Hk Hsl.
    destruct (Ho t k Hk Hsl) as (l & st & Hl & Hst & Hd).
    assert ((disconnect_timer <$> states w') !! l = Some (Some t)) as H'
      by (by rewrite Hs, list_lookup_fmap, Hst; cbn; rewrite Hd).
    rewrite list_lookup_fmap in H'.
    destruct (states w' !! l) as [st'|] eqn:Hst'; cbn in *; [|done].
    exists l, st'. split_and!; congruence.
Qed.

Lemma same_sessions_neutral w w' : same_sessions w w' → timer_neutral w w'.
Proof. intros (?&?&?). split_and!; congruence. Qed.

Lemma timers_alter (f : GuildState → GuildState) l (sts : list GuildState) :
  (∀ s, disconnect_timer (f s) = disconnect_timer s) →
  disconnect_timer <$> alter f l sts = disconnect_timer <$> sts.
Proof.
  intros Hf. apply list_eq. intros i. rewrite !list_lookup_fmap.
  destruct (decide (i = l)) as [->|].
  - rewrite list_lookup_alter_eq. destruct (sts !! l); cbn; [|done].
    by rewrite Hf.
  - by rewrite list_lookup_alter_ne.
Qed.

Lemma get_guild_state_ownership g w :
  timer_ownership w → timer_ownership (exec (MusicCog.get_guild_state g) w).
Proof.
  intros Hinv. pose proof Hinv as (Ha & Hi & Ho). unfold exec.
  destruct (guild_states w !! g) as [l|] eqn:Hg.
  { by rewrite (get_guild_state_hit _ _ _ Hg). }
  pose proof (registry_allocated_lookup g w Ha) as Ha'. unfold exec in Ha'.
  rewrite (get_guild_state_miss _ _ Hg) in *. cbn in *.
  split_and!; [done|..].
  - intros g1 g2 l'. cbn.
    destruct (decide (g = g1)) as [<-|]; destruct (decide (g = g2)) as [<-|];
      rewrite ?lookup_insert_eq, ?lookup_insert_ne by done; try done.
    + intros ? H%Ha. simplify_eq. lia.
    + intros H%Ha ?. simplify_eq. lia.
    + apply Hi.
  - intros t k. cbn. intros Hk Hsl.
    destruct (Ho t k Hk Hsl) as (l & st & Hl & Hst & Hd).
    exists l, st. split_and!; [|by apply lookup_app_l_Some|done].
    rewrite lookup_insert_ne; [done|]. intros Heq.
    by rewrite <- Heq, Hg in Hl.
Qed.

(** A state object gives up its timer: the timer is cancelled when it is
    pending, and the other fields may change. *)
Lemma cancel_ownership l st f w w' :
  states w !! l = Some st →
  guild_states w' = guild_states w →
  states w' = alter f l (states w) →
  disconnect_timer (f st) = forget_pending (tasks w) (disconnect_timer st) →
  tasks w' = cancel_pending (disconnect_timer st) (tasks w) →
  timer_ownership w → timer_ownership w'.
Proof.
  intros Hl Hg Hs Hf Ht (Ha & Hi & Ho). split_and!.
  - intros g l'. rewrite Hg, Hs, length_alter. apply Ha.
  - intros g g' l'. rewrite Hg. apply Hi.
  - intros t k. rewrite Ht, Hg, Hs. intros Hk Hsl.
    assert (tasks w !! t = Some k ∧ disconnect_timer st ≠ Some t) as [Hk0 Hne].
    { unfold cancel_pending, timer_done in Hk.
      destruct (disconnect_timer st) as [t0|]; [|done].
      destruct (tasks w !! t0) as [k0|] eqn:Hk0; cbn in Hk.
      - destruct (is_done (task_status k0)) eqn:Hd.
        + split; [done|]. intros [= ->]. rewrite Hk0 in Hk. simplify_eq.
          by rewrite Hsl in Hd.
        + destruct (decide (t0 = t)) as [->|].
          * rewrite list_lookup_alter_eq, Hk0 in Hk. cbn in Hk.
            simplify_eq/=. by destruct (task_status k0).
          * rewrite list_lookup_alter_ne in Hk by done. split; congruence.
      - split; [done|]. intros [= ->]. by rewrite Hk0 in Hk. }
    destruct (Ho t k Hk0 Hsl) as (l1 & st1 & Hl1 & Hst1 & Hd1).
    destruct (decide (l1 = l)) as [->|].
    + rewrite Hl in Hst1. simplify_eq.
    + exists l1, st1. by rewrite list_lookup_alter_ne.
Qed.

Lemma clear_ownership l w :
  timer_ownership w → timer_ownership (exec (clear l) w).
Proof.
  intros Hinv. destruct (states w !! l) as [st|] eqn:Hl.
  - assert (∃ f, states (exec (clear l) w) = alter f l (states w)
              ∧ disconnect_timer (f st)
                = forget_pending (tasks w) (disconnect_timer st)) as (f & Hs & Hf).
    { unfold exec. ops_unfold. cbn. rewrite !list_lookup_alter_eq, Hl. cbn.
      unfold forget_pending, timer_done.
      destruct (disconnect_timer st) as [t|] eqn:Ht; cbn.
      - destruct (from_option _ _ _); cbn;
          rewrite ?list_alter_alter_eq; eexists; (split; [reflexivity|]);
          unfold compose; cbn; done.
      - rewrite ?list_alter_alter_eq. eexists; (split; [reflexivity|]).
        unfold compose; cbn; done. }
    eapply (cancel_ownership l st f w); try done.
    + by destruct (clear_frame l w) as (?&_).
    + by apply clear_tasks.
  - eapply ownership_neutral; [|done].
    unfold exec. ops_unfold. cbn. rewrite !list_lookup_alter_eq, Hl. cbn.
    assert (Hnone : ∀ f : GuildState → GuildState,
              alter f l (states w) = states w).
    { intros f. apply alter_fix. intros x Hx. congruence. }
    split_and!; try done. cbn. by rewrite !Hnone.
Qed.

Lemma unregister_ownership g w :
  timer_ownership w →
  (∀ t k, tasks w !! t = Some k → task_status k = Sleeping →
          task_guild k ≠ g) →
  timer_ownership (set_guild_states (delete g) w).
Proof.
  intros (Ha & Hi & Ho) Hnone. split_and!.
  - intros g' l. cbn. rewrite lookup_delete_Some. intros [_ Hd].
    by apply (Ha g').
  - intros g1 g2 l. cbn. rewrite !lookup_delete_Some.
    intros [_ H1] [_ H2]. by apply (Hi g1 g2 l).
  - intros t k Hk Hsl. cbn in *.
    destruct (Ho t k Hk Hsl) as (l & st & Hl & Hst & Hd).
    exists l, st. split_and!; try done.
    rewrite lookup_delete_ne; [done|]. intros Heq.
    by apply (Hnone t k Hk Hsl).
Qed.

Lemma full_stop_ownership g l w :
  timer_ownership w →
  guild_states w !! g = Some l ∨ guild_states w !! g = None →
  timer_ownership (exec (MusicCog.full_stop g l) w).
Proof.
  intros Hinv Hreg. pose proof (clear_ownership l w Hinv) as Hc.
  unfold exec in *.
  destruct (clear_frame l w) as (Hgc & _).
  destruct (full_stop_effect g l w)
    as (r & w' & -> & Hcl & _ & Hg' & Ht' & Hs' & _). cbn.
  assert (Hsame : timer_ownership
            (set_guild_states (λ _, guild_states w) w')).
  { eapply ownership_neutral; [|exact Hc].
    split_and!; cbn; [done|by rewrite Hs'|done]. }
  destruct Hg' as [Hg'|Hg'].
  - assert (w' = set_guild_states (delete g)
                   (set_guild_states (λ _, guild_states w) w')) as ->.
    { destruct w'; unfold set_guild_states; cbn in *. by rewrite Hg'. }
    apply unregister_ownership; [done|].
    intros t k Hk Hsl Heq. cbn in Hk.
    destruct Hsame as (_ & _ & Ho).
    destruct (Ho t k Hk Hsl) as (l1 & st & Hl1 & Hst & Hd). cbn in *.
    rewrite Heq in Hl1. destruct Hreg as [Hreg|Hreg]; [|congruence].
    assert (l1 = l) as -> by congruence.
    destruct (Hcl st Hst) as (_ & _ & _ & Hdone).
    rewrite Hd, Hk in Hdone. cbn in Hdone. by rewrite Hsl in Hdone.
  - assert (w' = set_guild_states (λ _, guild_states w) w') as ->; [|done].
    destruct w'; unfold set_guild_states; cbn in *. by rewrite Hg'.
Qed.

Lemma play_next_ownership g w :
  timer_ownership w → timer_ownership (exec (MusicCog.play_next g) w).
Proof.
  intros Hinv. unfold exec. rewrite play_next_lookup.
  apply (get_guild_state_ownership g) in Hinv.
  destruct (get_guild_state_lookup g w) as (l & _ & Hreg).
  revert Hinv Hreg. generalize (exec (MusicCog.get_guild_state g) w).
  clear w. intros w Hinv Hreg.
  pose proof Hinv as (Ha & Hi & Ho).
  destruct (lookup_lt_is_Some_2 (states w) l (Ha _ _ Hreg)) as [st Hst].
  destruct (is_connected w g) eqn:Hconn.
  2:{ rewrite play_next_not_connected by done. unfold exec.
      by rewrite (get_guild_state_hit _ _ _ Hreg). }
  pose proof Hconn as Hconn'. unfold is_connected in Hconn'.
  destruct (voice_clients w !! g) as [v|] eqn:Hv; cbn in *; [|done].
  destruct (vcs w !! v) as [c|] eqn:Hc; cbn in *; [|done].
  destruct (queue st) as [|source rest] eqn:Hq.
  - rewrite (play_next_idle g l st v c w) by done. cbn.
    (* first the cancellation, then the new timer *)
    set (w1 := set_tasks (λ _, cancel_pending (disconnect_timer st) (tasks w))
                 (set_states (alter (λ s, set_disconnect_timer
                    (forget_pending (tasks w) (disconnect_timer st))
                    (set_current_track None s)) l) w)).
    assert (Hw1 : timer_ownership w1).
    { eapply (cancel_ownership l st _ w w1); try done. }
    destruct Hw1 as (Ha1 & Hi1 & Ho1).
    assert (Hlen : length (cancel_pending (disconnect_timer st) (tasks w))
                   = length (tasks w)).
    { unfold cancel_pending. repeat case_match; by rewrite ?length_alter. }
    split_and!.
    + intros g' l'. cbn. rewrite length_alter. apply Ha.
    + done.
    + intros t k. cbn. intros Hk Hsl.
      destruct (decide (t = length (tasks w))) as [->|Hne].
      * rewrite lookup_app_r, Hlen, Nat.sub_diag in Hk by lia.
        cbn in Hk. simplify_eq/=. eexists l, _.
        split_and!; [done|by rewrite list_lookup_alter_eq, Hst|done].
      * assert (t < length (tasks w)).
        { apply lookup_lt_Some in Hk. rewrite length_app, Hlen in Hk.
          cbn in Hk. lia. }
        rewrite lookup_app_l in Hk by lia.
        destruct (Ho1 t k Hk Hsl) as (l1 & st1 & Hl1 & Hst1 & Hd1).
        cbn in Hl1, Hst1.
        destruct (decide (l1 = l)) as [->|].
        -- rewrite list_lookup_alter_eq, Hst in Hst1. cbn in Hst1.
           simplify_eq/=. unfold forget_pending, timer_done in Hd1.
           destruct (disconnect_timer st) as [t0|]; [|done].
           unfold cancel_pending, timer_done in Hk.
           destruct (tasks w !! t0) as [k0|] eqn:Hk0; cbn in *.
           ++ destruct (is_done (task_status k0)) eqn:Hd; [|done].
              injection Hd1 as ->. rewrite Hk0 in Hk. injection Hk as ->.
              by rewrite Hsl in Hd.
           ++ injection Hd1 as ->. by rewrite Hk0 in Hk.
        -- rewrite list_lookup_alter_ne in Hst1 by done.
           exists l1, st1. by rewrite list_lookup_alter_ne.
  - rewrite (play_next_advance g l st v c w source rest) by done. cbn.
    eapply (cancel_ownership l st _ w); try done.
Qed.

Lemma trace_ownership f w :
  timer_ownership w → timer_ownership (set_trace f w).
Proof. intros H. eapply ownership_neutral; [|done]. done. Qed.

Lemma stop_ownership g w :
  timer_ownership w → timer_ownership (exec (MusicCog.stop g) w).
Proof.
  intros Hinv. apply (get_guild_state_ownership g) in Hinv.
  unfold MusicCog.stop. unfold exec at 1. rewrite bind_eq.
  destruct (get_guild_state_lookup g w) as (l & -> & Hreg).
  revert Hinv Hreg. generalize (exec (MusicCog.get_guild_state g) w).
  intros w1 Hinv Hreg.
  unfold guild_voice_client at 1. rewrite bind_eq. unfold gets at 1.
  destruct (voice_clients w1 !! g) as [v|].
  - rewrite bind_eq.
    pose proof (full_stop_ownership g l w1 Hinv (or_introl Hreg)) as Hfs.
    unfold exec in Hfs.
    destruct (MusicCog.full_stop g l w1) as [[[]|e] w2]; cbn in *; [|done].
    by apply trace_ownership.
  - by apply trace_ownership.
Qed.

Lemma stop_button_ownership g w :
  timer_ownership w → timer_ownership (exec (MusicControlView.stop g) w).
Proof.
  intros Hinv. apply (get_guild_state_ownership g) in Hinv.
  unfold MusicControlView.stop. unfold exec at 1. rewrite bind_eq.
  destruct (get_guild_state_lookup g w) as (l & -> & Hreg).
  revert Hinv Hreg. generalize (exec (MusicCog.get_guild_state g) w).
  intros w1 Hinv Hreg. rewrite bind_eq.
  pose proof (full_stop_ownership g l w1 Hinv (or_introl Hreg)) as Hfs.
  unfold exec in Hfs.
  destruct (MusicCog.full_stop g l w1) as [[[]|e] w2]; cbn in *; [|done].
  by apply trace_ownership.
Qed.

Lemma timer_body_ownership g known w :
  timer_ownership w →
  timer_ownership (exec (MusicCog.disconnect_after_timeout g known) w).
Proof.
  intros Hinv. unfold MusicCog.disconnect_after_timeout.
  destruct known; cbn; [|done].
  unfold exec. rewrite bind_eq. unfold gets at 1.
  destruct (guild_states w !! g) as [l|] eqn:Hreg; [|done].
  unfold guild_voice_client at 1. rewrite bind_eq. unfold gets at 1.
  destruct (voice_clients w !! g) as [v|]; [|done].
  unfold vc_is_connected, vc_is_playing, vc_at.
  rewrite bind_eq. unfold mbind at 1, M_bind at 1, gets at 1, mret, M_ret.
  rewrite bind_eq. unfold mbind at 1, M_bind at 1, gets at 1.
  destruct (_ && _); [|done].
  rewrite bind_eq.
  pose proof (full_stop_ownership g l w Hinv (or_introl Hreg)) as Hfs.
  unfold exec in Hfs.
  destruct (MusicCog.full_stop g l w) as [[[]|e] w2]; cbn in *; [|done].
  by apply trace_ownership.
Qed.

Lemma retire_ownership t s r w :
  s ≠ Sleeping → timer_ownership w →
  timer_ownership (set_running r (set_tasks (alter (set_status s) t) w)).
Proof.
  intros Hs (Ha & Hi & Ho). split_and!; [done..|].
  intros t' k. cbn. intros Hk Hsl.
  destruct (decide (t' = t)) as [->|].
  - rewrite list_lookup_alter_eq in Hk.
    destruct (tasks w !! t); simplify_eq/=.
  - rewrite list_lookup_alter_ne in Hk by done. by apply Ho.
Qed.

Lemma run_timer_ownership t known w :
  timer_ownership w → timer_ownership (run_timer t known w).
Proof.
  intros Hinv. unfold run_timer.
  destruct (tasks w !! t) as [k|]; [|done].
  destruct (task_status k); try done.
  pose proof (timer_body_ownership (task_guild k) known _
                (retire_ownership t Running (Some t) w
                   ltac:(done) Hinv)) as Hbody.
  unfold exec in Hbody.
  destruct (MusicCog.disconnect_after_timeout _ _ _) as [r w2]; cbn in *.
  apply retire_ownership; [by destruct r as [|[]]|done].
Qed.

Lemma update_state_ownership l f w :
  (∀ s, disconnect_timer (f s) = disconnect_timer s) →
  timer_ownership w → timer_ownership (exec (update_state l f) w).
Proof.
  intros Hf Hinv. eapply ownership_neutral; [|done].
  unfold update_state. munfold. cbn. split_and!; try done. cbn.
  by apply timers_alter.
Qed.

Lemma play_request_ownership g uc w :
  timer_ownership w → timer_ownership (exec (MusicCog.play_request g uc) w).
Proof.
  intros Hinv. unfold MusicCog.play_request.
  apply bind_inv.
  { eapply ownership_neutral; [|done]. apply same_sessions_neutral.
    apply ensure_voice_frame. }
  intros [v|] w1 Hinv1; [|done].
  apply bind_inv; [by apply get_guild_state_ownership|].
  intros l w2 Hinv2.
  apply bind_inv; [by apply update_state_ownership|]. done.
Qed.

Lemma start_play_ownership g uc w :
  timer_ownership w → timer_ownership (exec (start_play g uc) w).
Proof.
  intros Hinv. unfold start_play.
  apply bind_inv; [by apply play_request_ownership|].
  intros [f|] w1 Hinv1; [|done].
  eapply ownership_neutral; [|done]. done.
Qed.

Lemma play_resolved_ownership f r w :
  timer_ownership w → timer_ownership (exec (MusicCog.play_resolved f r) w).
Proof.
  intros Hinv. unfold exec. destruct r as [e|x].
  - rewrite play_resolved_failed. cbn. by apply trace_ownership.
  - assert (Henq : timer_ownership (enqueued f x w)).
    { eapply ownership_neutral; [|done]. split_and!; try done. cbn.
      by apply timers_alter. }
    destruct (sink_idle w (frame_vc f)) eqn:Hidle.
    + rewrite play_resolved_idle by done. rewrite bind_eq.
      pose proof (play_next_ownership (frame_guild f) _ Henq) as Hnext.
      unfold exec in Hnext.
      destruct (MusicCog.play_next (frame_guild f) (enqueued f x w))
        as [[[]|e] w1]; cbn in *; [|done].
      by apply trace_ownership.
    + rewrite play_resolved_busy by done. cbn. by apply trace_ownership.
Qed.

Lemma resume_play_ownership k r w :
  timer_ownership w → timer_ownership (exec (resume_play k r) w).
Proof.
  intros Hinv. unfold exec, resume_play. rewrite bind_eq. unfold gets at 1.
  destruct (suspended w !! k) as [f|] eqn:Hk; [|done].
  rewrite bind_eq. unfold modify at 1.
  apply play_resolved_ownership.
  eapply ownership_neutral; [|done]. done.
Qed.

Lemma run_loop_call_ownership w :
  timer_ownership w → timer_ownership (exec run_loop_call w).
Proof.
  intros Hinv. unfold exec, run_loop_call. rewrite bind_eq. unfold gets at 1.
  destruct (loop_calls w) as [|g rest]; [done|].
  rewrite bind_eq. unfold modify at 1. apply play_next_ownership.
  eapply ownership_neutral; [|done]. done.
Qed.

Lemma queue_view_ownership g w :
  timer_ownership w → timer_ownership (exec (MusicCog.queue g) w).
Proof.
  intros Hinv. destruct (queue_view_frame g w) as [tr ->].
  apply trace_ownership. by apply get_guild_state_ownership.
Qed.

Lemma sink_ops_neutral g v error w :
  timer_neutral w (exec (MusicCog.skip g) w)
  ∧ timer_neutral w (exec (MusicControlView.skip g) w)
  ∧ timer_neutral w (exec (MusicControlView.pause_resume g) w)
  ∧ timer_neutral w (exec (track_finished v error) w).
Proof.
  unfold MusicCog.skip, MusicControlView.skip, MusicControlView.pause_resume,
    track_finished.
  sink_unfold. cbn. split_and!; crunch.
Qed.

Lemma step_ownership w e : timer_ownership w → timer_ownership (step w e).
Proof.
  intros Hinv. destruct e; cbn.
  - by apply start_play_ownership.
  - by apply resume_play_ownership.
  - eapply ownership_neutral; [apply (sink_ops_neutral 0)|done].
  - by apply run_loop_call_ownership.
  - by apply run_timer_ownership.
  - eapply ownership_neutral; [apply (sink_ops_neutral g 0 None)|done].
  - by apply stop_ownership.
  - by apply queue_view_ownership.
  - eapply ownership_neutral; [apply (sink_ops_neutral g 0 None)|done].
  - eapply ownership_neutral; [apply (sink_ops_neutral g 0 None)|done].
  - by apply stop_button_ownership.
Qed.

Lemma timer_ownership_empty : timer_ownership empty_world.
Proof.
  split_and!.
  - apply registry_allocated_empty.
  - intros g g' l. cbn. by rewrite lookup_empty.
  - intros t k. cbn. by rewrite lookup_nil.
Qed.

Lemma run_ownership es w : timer_ownership w → timer_ownership (run w es).
Proof.
  revert w. induction es as [|e es IH]; intros w Hinv; [done|].
  cbn. apply IH. by apply step_ownership.
Qed.

(** X18.  In every world the bot can reach from its start, by any sequence
    of commands, button presses, resolutions, track ends, submitted calls
    and timer wake-ups, a sleeping timer is the [disconnect_timer] of the
    session that the registry holds for its guild.  So a guild never has
    two sleeping timers, and a guild without a session has none. *)
Theorem sleeping_timer_is_session_timer (es : list Event) (t : TaskId)
    (k : Task) :
  let w := run empty_world es in
  tasks w !! t = Some k → task_status k = Sleeping →
  session w (task_guild k) ≫= disconnect_timer = Some t
  ∧ timer_live w (task_guild k) = true
  ∧ ∀ t' k', tasks w !! t' = Some k' → task_status k' = Sleeping →
             task_guild k' = task_guild k → t' = t.
Proof.
  intros w Hk Hsl.
  destruct (run_ownership es empty_world timer_ownership_empty)
    as (_ & _ & Ho). fold w in Ho.
  destruct (Ho t k Hk Hsl) as (l & st & Hl & Hst & Hd).
  assert (Hses : session w (task_guild k) ≫= disconnect_timer = Some t).
  { unfold session. rewrite Hl. cbn. rewrite Hst. done. }
  split_and!; [done| |].
  - unfold timer_live. rewrite Hses, Hk. cbn. by rewrite Hsl.
  - intros t' k' Hk' Hsl' Hg.
    destruct (Ho t' k' Hk' Hsl') as (l' & st' & Hl' & Hst' & Hd').
    rewrite Hg in Hl'. congruence.
Qed.

Lemma sleeping_timer_is_session_timer_witness :
  let w := run empty_world
             [EvPlay 1 (Some 5%Z); EvResolved 0 (inr (track "A"));
              EvFinished 0 None; EvLoopCall] in
  session w 1 ≫= disconnect_timer = Some 0.
Proof.
  exact (proj1 (sleeping_timer_is_session_timer
    [EvPlay 1 (Some 5%Z); EvResolved 0 (inr (track "A"));
     EvFinished 0 None; EvLoopCall] 0
    {| task_guild := 1; task_status := Sleeping |} eq_refl eq_refl)).
Defined.

Lemma full_stop_by_own_timer g l st t k v w :
  running w = Some t → tasks w !! t = Some k → task_status k = Running →
  states w !! l = Some st → disconnect_timer st = Some t →
  voice_clients w !! g = Some v →
  ∃ w', MusicCog.full_stop g l w = (Raise CancelledError, w')
    ∧ guild_states w' = guild_states w ∧ trace w' = trace w
    ∧ voice_clients w' = delete g (voice_clients w)
    ∧ tasks w' = alter (set_status MustCancel) t (tasks w).
Proof.
  intros Hr Hk Hs Hl Hd Hv. unfold MusicCog.full_stop. rewrite bind_eq.
  pose proof (clear_tasks l st w Hl) as Htasks.
  destruct (clear_spec l w)
    as (w1 & Hcl & _ & Hg1 & Hv1 & _ & Hr1 & _ & _ & Htr1).
  rewrite Hcl in *. cbn in Htasks.
  assert (Ht1 : tasks w1 = alter (set_status MustCancel) t (tasks w)).
  { rewrite Htasks, Hd. unfold cancel_pending, timer_done. rewrite Hk. cbn.
    rewrite Hs. cbn. apply list_alter_ext; [|done..].
    intros k' Hk'. rewrite Hk in Hk'. injection Hk' as <-. by rewrite Hs. }
  unfold guild_voice_client at 1. rewrite bind_eq. unfold gets at 1.
  rewrite Hv1, Hv. rewrite bind_eq.
  unfold vc_disconnect. rewrite bind_eq.
  destruct (vc_stop_spec v w1) as (w2 & -> & (Hg2&_&Ht2) & Hr2 & Hv2 & _ & Htr2).
  rewrite bind_eq.
  destruct (vc_stop_spec v w2) as (w3 & -> & (Hg3&_&Ht3) & Hr3 & Hv3 & _ & Htr3).
  unfold update_vc, suspension_point. munfold. cbn.
  rewrite Hr3, Hr2, Hr1, Hr, Ht3, Ht2, Ht1, list_lookup_alter_eq, Hk. cbn.
  eexists. split; [reflexivity|]. cbn.
  split_and!; congruence.
Qed.

(** X19.  In every world the bot can reach, the timer that tears an idle
    session down is the timer of that session, and [clear] cancels it
    while it runs: the cancellation is delivered at the await of
    [vc.disconnect], so that [full_stop] never reaches the deletion of the
    registry entry and [disconnect_after_timeout] never reaches its log
    line.  The guild is disconnected, the registry is as it was, nothing
    is logged, and the task ends cancelled. *)
Theorem timer_teardown_cancels_itself (es : list Event) (t : TaskId)
    (k : Task) (l : Loc) (v : VcRef) (c : VoiceClient) :
  let w := run empty_world es in
  tasks w !! t = Some k → task_status k = Sleeping →
  guild_states w !! task_guild k = Some l →
  voice_clients w !! task_guild k = Some v → vcs w !! v = Some c →
  connected c = true →
  (player c = NoPlayer ∨ ∃ s g', player c = Playing s g' true) →
  let w' := step w (EvTimer t true) in
  guild_states w' = guild_states w
  ∧ voice_clients w' !! task_guild k = None
  ∧ tasks w' !! t = Some (set_status Cancelled k)
  ∧ trace w' = trace w.
Proof.
  intros w Hk Hs Hg Hv Hc Hconn Hidle.
  destruct (run_ownership es empty_world timer_ownership_empty)
    as (_ & _ & Ho). fold w in Ho.
  destruct (Ho t k Hk Hs) as (l' & st & Hl' & Hst & Hd).
  assert (l' = l) as -> by congruence.
  cbn. unfold run_timer. rewrite Hk, Hs.
  set (w1 := set_running (Some t) (set_tasks (alter (set_status Running) t) w)).
  rewrite (timer_body_inactive (task_guild k) l v c w1) by done.
  destruct (full_stop_by_own_timer (task_guild k) l st t
              (set_status Running k) v w1)
    as (w2 & -> & Hg2 & Htr2 & Hv2 & Ht2); try done.
  { cbn. by rewrite list_lookup_alter_eq, Hk. }
  cbn. rewrite Hg2, Htr2, Hv2, Ht2. cbn.
  rewrite lookup_delete_eq, !list_lookup_alter_eq, Hk. done.
Qed.

Lemma timer_teardown_cancels_itself_witness :
  let w := run empty_world
             [EvPlay 1 (Some 5%Z); EvResolved 0 (inr (track "A"));
              EvFinished 0 None; EvLoopCall] in
  guild_states (step w (EvTimer 0 true)) = guild_states w.
Proof.
  exact (proj1 (timer_teardown_cancels_itself
    [EvPlay 1 (Some 5%Z); EvResolved 0 (inr (track "A"));
     EvFinished 0 None; EvLoopCall] 0
    {| task_guild := 1; task_status := Sleeping |} 0 0
    {| channel := 5; connected := true; player := NoPlayer |}
    eq_refl eq_refl eq_refl eq_refl eq_refl eq_refl (or_introl eq_refl))).
Defined.

(** *** A late play_next on a sink that is playing *)

(** X20.  [play_next] does not look at what the sink is doing.  When it
    runs on a connected guild whose sink is playing and whose queue is not
    empty, it takes the head of the queue and makes it the current track,
    and only then [vc.play] refuses it: [play_next] ends with that
    exception, no embed is sent, the sink goes on with what it was
    playing, and the track taken from the queue is neither pending nor
    rendered.  This is what the loop does with a [play_next] that a
    completion callback submitted too late. *)
Theorem play_next_on_playing_sink (w : World) (g : GuildId) (l : Loc)
    (st : GuildState) (v : VcRef) (c : VoiceClient)
    (source b : YTDLSource) (rest : list YTDLSource) (g' : GuildId) :
  guild_states w !! g = Some l → states w !! l = Some st →
  queue st = source :: rest →
  voice_clients w !! g = Some v → vcs w !! v = Some c →
  connected c = true → player c = Playing b g' false →
  ∃ w', MusicCog.play_next g w
        = (Raise (ClientException "Already playing audio."), w')
    ∧ current w' g = Some source ∧ pending w' g = rest
    ∧ rendering w' g = Playing b g' false
    ∧ vcs w' = vcs w ∧ loop_calls w' = loop_calls w
    ∧ trace w' = trace w ++ [OCurrent g source]
    ∧ ∀ calls, loop_calls w = g :: calls →
        step w EvLoopCall = set_loop_calls (λ _, calls) w'.
Proof.
  intros Hg Hl Hq Hv Hc Hconn Hp.
  pose proof (play_next_advance g l st v c w source rest Hg Hl Hv Hc Hconn Hq)
    as Hnext.
  rewrite Hp in Hnext. cbn in Hnext. eexists. split; [exact Hnext|].
  unfold current, pending, rendering, session. cbn.
  rewrite Hg, Hv. cbn. rewrite list_lookup_alter_eq, Hl, Hc. cbn. rewrite Hp.
  split_and!; try done.
  intros calls Hcalls. cbn -[run_loop_call]. unfold exec.
  rewrite (run_loop_call_head g calls) by done.
  rewrite (play_next_advance g l st v c (set_loop_calls (λ _, calls) w)
             source rest Hg Hl Hv Hc Hconn Hq).
  rewrite Hp. cbn. unfold set_loop_calls. cbn. done.
Qed.

Lemma play_next_on_playing_sink_witness :
  ∃ w', MusicCog.play_next 1 playing_A_then_B
        = (Raise (ClientException "Already playing audio."), w')
    ∧ current w' 1 = Some (track "B") ∧ pending w' 1 = []
    ∧ rendering w' 1 = Playing (track "A") 1 false.
Proof.
  destruct (play_next_on_playing_sink playing_A_then_B 1 0
    {| queue := [track "B"]; current_track := Some (track "A");
       now_playing_message := None; disconnect_timer := None;
       voice_client := Some 0 |} 0
    {| channel := 5; connected := true;
       player := Playing (track "A") 1 false |}
    (track "B") (track "A") [] 1
    eq_refl eq_refl eq_refl eq_refl eq_refl eq_refl eq_refl)
    as (w' & H1 & H2 & H3 & H4 & _).
  by exists w'.
Defined.

(** *** The team draw *)

Lemma split_teams_lengths (shuffle : list Member → list Member)
    (members team1 team2 : list Member) :
  (∀ l, shuffle l ≡ₚ l) →
  split_into_teams shuffle members = (team1, team2) →
  team1 ++ team2 = shuffle members
  ∧ length team1 = (length members / 2)%nat
  ∧ length team1 + length team2 = length members.
Proof.
  intros Hperm [= <- <-].
  pose proof (Permutation_length (Hperm members)) as Hlen.
  rewrite take_drop, length_take, length_drop, Hlen.
  change (Nat.divmod (length members) 1 0 1).1
    with (length members / 2)%nat.
  pose proof (Nat.div_mod_eq (length members) 2).
  pose proof (Nat.mod_upper_bound (length members) 2 ltac:(lia)).
  split_and!; [done|..]; lia.
Qed.

(** X21.  Whatever permutation the shuffle produces, [split_into_teams]
    puts every member in exactly one of the two teams; the first team has
    half of the members, rounded down, and the second one the rest, so
    that the sizes differ by at most one, in favour of the second; with at
    least two members no team is empty. *)
Theorem split_into_teams_partition (shuffle : list Member → list Member)
    (members : list Member) :
  (∀ l, shuffle l ≡ₚ l) →
  let '(team1, team2) := split_into_teams shuffle members in
  team1 ++ team2 ≡ₚ members
  ∧ length team1 = (length members / 2)%nat
  ∧ length team1 + length team2 = length members
  ∧ (length team2 = length team1 ∨ length team2 = S (length team1))
  ∧ (2 ≤ length members → team1 ≠ [] ∧ team2 ≠ []).
Proof.
  intros Hperm.
  destruct (split_into_teams shuffle members) as [team1 team2] eqn:Hsplit.
  destruct (split_teams_lengths shuffle members team1 team2 Hperm Hsplit)
    as (Happ & Hl1 & Hsum).
  assert (Hhalf : (2 * (length members / 2) ≤ length members
                   ∧ length members < 2 * (length members / 2) + 2)%nat).
  { pose proof (Nat.div_mod_eq (length members) 2).
    pose proof (Nat.mod_upper_bound (length members) 2 ltac:(lia)). lia. }
  split_and!; [by rewrite Happ|done|done|lia|].
  intros H2. split; intros ->; cbn in *; lia.
Qed.

Lemma split_into_teams_partition_witness :
  let '(team1, team2) := split_into_teams reverse sample_channel in
  team1 ++ team2 ≡ₚ sample_channel.
Proof.
  exact (proj1 (split_into_teams_partition reverse sample_channel
                  (λ l, reverse_Permutation l))).
Defined.

Lemma team_text_placeholder team : team_text team = "_(vazio)_" ↔ team = [].
Proof.
  split; [|by intros ->].
  destruct team as [|m [|m' rest]]; [done|..]; unfold team_text; cbn;
    intros H; discriminate H.
Qed.

(** X22.  When [sortear_voz] answers with teams, the voice channel had at
    least two members that are not bots; the two teams consist of exactly
    those members, each in one team; the number of players shown is their
    number; and neither field shows the placeholder for an empty team. *)
Theorem sortear_voz_teams (shuffle : list Member → list Member)
    (all : list Member) (fields : string * string) (players : nat) :
  (∀ l, shuffle l ≡ₚ l) →
  sortear_voz shuffle (Some all) = TeamsEmbed fields players →
  ∃ team1 team2,
    fields = (team_text team1, team_text team2)
    ∧ team1 ++ team2 ≡ₚ filter (λ m, bot m = false) all
    ∧ players = length team1 + length team2 ∧ 2 ≤ players
    ∧ (∀ m, m ∈ team1 ++ team2 → bot m = false ∧ m ∈ all)
    ∧ fields.1 ≠ "_(vazio)_" ∧ fields.2 ≠ "_(vazio)_".
Proof.
  intros Hperm. unfold sortear_voz.
  set (members := filter (λ m, bot m = false) all).
  destruct (length members <? 2)%nat eqn:Hlt; [done|].
  apply Nat.ltb_ge in Hlt.
  destruct (split_into_teams shuffle members) as [team1 team2] eqn:Hsplit.
  destruct (split_teams_lengths shuffle members team1 team2 Hperm Hsplit)
    as (Happ & Hl1 & Hsum).
  assert (Hp : team1 ++ team2 ≡ₚ members) by (by rewrite Happ).
  assert (Hhalf : (2 * (length members / 2) ≤ length members
                   ∧ length members < 2 * (length members / 2) + 2)%nat).
  { pose proof (Nat.div_mod_eq (length members) 2).
    pose proof (Nat.mod_upper_bound (length members) 2 ltac:(lia)). lia. }
  assert (Hne1 : team1 ≠ []) by (intros ->; cbn in *; lia).
  assert (Hne2 : team2 ≠ []) by (intros ->; cbn in *; lia).
  intros [= <- <-]. exists team1, team2.
  split_and!; try done.
  - intros m Hm. rewrite Hp in Hm. by apply list_elem_of_filter in Hm.
  - cbn. by rewrite team_text_placeholder.
  - cbn. by rewrite team_text_placeholder.
Qed.

Lemma sortear_voz_teams_witness :
  ∃ fields, sortear_voz reverse (Some sample_channel) = TeamsEmbed fields 3
            ∧ fields.1 ≠ "_(vazio)_" ∧ fields.2 ≠ "_(vazio)_".
Proof.
  eexists. split; [reflexivity|].
  destruct (sortear_voz_teams reverse sample_channel _ 3
              (λ l, reverse_Permutation l) eq_refl)
    as (team1 & team2 & _ & _ & _ & _ & _ & H).
  exact H.
Defined.
